(** * Chebyshev polynomial filters of pygsp: evaluation, filtering, coefficients

    The development embeds [pygsp/filters/approximations.py] (class
    [Chebyshev]) and the two Chebyshev routines of [pygsp/operators.py]
    ([compute_cheby_coeff], [cheby_op]).  Floating point numbers are read as
    real numbers, numpy arrays as a shape together with row-major data, and
    Python exceptions as an explicit error result. *)

From Stdlib Require Import String Bool Arith ZArith Reals Lia Lra List.
Import ListNotations.
Local Open Scope R_scope.

Set Implicit Arguments.

(** ** Exceptions and results *)

Inductive exn : Set :=
| ValueError
| IndexError
| AttributeError
| NotImplementedError.

Inductive result (A : Type) : Type :=
| Ok (a : A)
| Raise (e : exn).
Arguments Ok {A} a.
Arguments Raise {A} e.

(** ** Element-wise operations on one- and two-dimensional arrays *)

Fixpoint zipWith {A B C : Type} (f : A -> B -> C) (l1 : list A) (l2 : list B) : list C :=
  match l1, l2 with
  | a :: l1', b :: l2' => f a b :: zipWith f l1' l2'
  | _, _ => []
  end.

Abbreviation vec := (list R) (only parsing).
Abbreviation mat := (list (list R)) (only parsing).

Definition zeros (n : nat) : vec := repeat 0 n.
Definition ones (n : nat) : vec := repeat 1 n.
Definition vadd : vec -> vec -> vec := zipWith Rplus.
Definition vsub : vec -> vec -> vec := zipWith Rminus.
Definition vmul : vec -> vec -> vec := zipWith Rmult.
Definition vscale (a : R) (v : vec) : vec := map (Rmult a) v.

Definition madd : mat -> mat -> mat := zipWith vadd.
Definition msub : mat -> mat -> mat := zipWith vsub.
Definition mscale (a : R) (m : mat) : mat := map (vscale a) m.
Definition mzeros (r n : nat) : mat := repeat (zeros n) r.

(** Broadcasting of numpy, for the three shapes met in [_evaluate_*]:
    a column [(F, 1)] against a row [(P,)], a row against an [(F, P)] array
    and a column against an [(F, P)] array. *)
Definition outer (ck : vec) (v : vec) : mat := map (fun a => vscale a v) ck.
Definition rowmul (x : vec) (b : mat) : mat := map (vmul x) b.
Definition coladd (ck : vec) (b : mat) : mat :=
  zipWith (fun a row => map (Rplus a) row) ck b.

(** ** Chebyshev polynomials of the first kind *)

Fixpoint cheb (n : nat) (x : R) : R :=
  match n with
  | O => 1
  | S m =>
      match m with
      | O => x
      | S p => 2 * x * cheb m x - cheb p x
      end
  end.

(** [sum_k col[k] * T_(n+k)(t)], the series a coefficient column stands for. *)
Fixpoint series_from (n : nat) (col : list R) (t : R) : R :=
  match col with
  | [] => 0
  | a :: l => a * cheb n t + series_from (S n) l t
  end.

Definition cheb_series (col : list R) (t : R) : R := series_from 0 col t.

(** ** [Chebyshev._evaluate_direct], [_evaluate_recursive], [_evaluate_clenshaw]

    [c] is the coefficient array reshaped by [_evaluate] to [(K, F, 1, ..)],
    held as its [K] rows of [F] numbers; [x] is the array of evaluation
    points, held as the list of its entries (every operation below is
    element-wise in [x]).  The result has shape [(F,) + x.shape]. *)

Definition _evaluate_direct (F : nat) (c : list vec) (x : vec) : mat :=
  let result := mzeros F (length x) in
  let x := map acos x in
  fst (fold_left
         (fun (st : mat * nat) ck =>
            let (result, k) := st in
            (madd result (outer ck (map (fun t => cos (INR k * t)) x)), S k))
         c (result, O)).

(** [for k in range(2, K)] visits [c[2:]] in order. *)
Definition rec_step (x : vec) (st : mat * vec * vec) (ck : vec) : mat * vec * vec :=
  let '(result, x0, x1) := st in
  let x2 := vsub (vmul (vscale 2 x) x1) x0 in
  (madd result (outer ck x2), x1, x2).

Definition _evaluate_recursive (c : list vec) (x : vec) : result mat :=
  match c with
  | [] => Raise IndexError                        (* c[0] with K = 0 *)
  | c0 :: cs =>
      let x0 := ones (length x) in
      let result := outer c0 x0 in
      match cs with
      | [] => Ok result                            (* K = 1 *)
      | c1 :: cs' =>
          let x1 := x in
          let result := madd result (outer c1 x1) in
          Ok (fst (fst (fold_left (rec_step x) cs' (result, x0, x1))))
      end
  end.

(** [for k in range(K-2, 0, -1)] visits [c[K-2]], ..., [c[1]].  The Python
    scalar [0] that starts [b2] (and [b1] when [K < 2]) is held as the array
    of zeros it broadcasts to. *)
Definition clen_step (x : vec) (st : mat * mat) (ck : vec) : mat * mat :=
  let (b1, b2) := st in
  let b := msub (coladd ck (rowmul (vscale 2 x) b1)) b2 in
  (b, b1).

Definition _evaluate_clenshaw (c : list vec) (x : vec) : result mat :=
  match c with
  | [] => Raise IndexError                        (* c[0] with K = 0 *)
  | c0 :: cs =>
      let zero := mzeros (length c0) (length x) in
      let b2 := zero in
      let b1 := match cs with
                | [] => zero                       (* K < 2 *)
                | _ :: _ => outer (last cs []) (ones (length x))
                end in
      let (b1', b2') := fold_left (clen_step x) (rev (removelast cs)) (b1, b2) in
      Ok (msub (coladd c0 (rowmul x b1')) b2')
  end.

(** ** numpy arrays: a shape and row-major data *)

Record ndarray : Type := { nd_shape : list nat; nd_data : list R }.

Definition ndim (a : ndarray) : nat := length (nd_shape a).
Definition size_of (sh : list nat) : nat := fold_right Nat.mul 1%nat sh.

(** [unflat r n d] reads the data [d] as [r] rows of [n] entries. *)
Fixpoint unflat (A : Type) (r n : nat) (d : list A) : list (list A) :=
  match r with
  | O => []
  | S r' => firstn n d :: unflat r' n (skipn n d)
  end.

Definition flat (A : Type) (rows : list (list A)) : list A := concat rows.

(** [c[k]] for a coefficient array of shape [(K, Fout, Fin)]: the [k]-th
    [Fout x Fin] matrix, [IndexError] when [k] is out of range. *)
Definition coef_at (K Fout Fin : nat) (d : list R) (k : nat) : result mat :=
  match nth_error (unflat K (Fout * Fin) d) k with
  | Some sl => Ok (unflat Fout Fin sl)
  | None => Raise IndexError
  end.

(** [sum_j a[j] * vs[j]], a vector of length [n]: one output channel of
    [np.einsum('oi,min->mon', c, x)], and one row of [x @ L]. *)
Definition lincomb (n : nat) (a : vec) (vs : list vec) : vec :=
  fold_right vadd (zeros n) (zipWith vscale a vs).

Definition einsum_oi_min_mon (N : nat) (ck : mat) (x : list (list vec)) : list (list vec) :=
  map (fun sig => map (fun crow => lincomb N crow sig) ck) x.

Definition ncols (L : mat) : nat :=
  match L with
  | [] => O
  | r :: _ => length r
  end.

(** [x @ L], row by row. *)
Definition matmul (x : list vec) (L : mat) : list vec :=
  map (fun row => lincomb (ncols L) row L) x.

Definition identity (n : nat) : mat :=
  map (fun i => map (fun j => if Nat.eqb i j then 1 else 0) (seq 0 n)) (seq 0 n).

(** [A[i, j]]. *)
Definition entry (A : mat) (i j : nat) : R := nth j (nth i A []) 0.

(** Broadcasting of two two-dimensional arrays of shapes [(ra, ca)] and
    [(rb, cb)]: along each axis the lengths are equal or one of them is 1,
    [ValueError] otherwise. *)
Definition bdim (a b : nat) : option nat :=
  if Nat.eqb a b then Some a
  else if Nat.eqb a 1 then Some b
  else if Nat.eqb b 1 then Some a
  else None.

Definition bidx (dim i : nat) : nat := if Nat.eqb dim 1 then O else i.

Definition broadcast2 (f : R -> R -> R) (ra ca : nat) (A : mat) (rb cb : nat) (B : mat)
  : result (nat * nat * mat) :=
  match bdim ra rb, bdim ca cb with
  | Some r, Some c =>
      Ok (r, c,
          map (fun i =>
                 map (fun j => f (entry A (bidx ra i) (bidx ca j))
                                 (entry B (bidx rb i) (bidx cb j)))
                     (seq 0 c))
              (seq 0 r))
  | _, _ => Raise ValueError
  end.

(** The Laplacian that [_filter] hands to the algorithms is a scipy sparse
    matrix or a numpy [ndarray], as [G.L] is. *)
Inductive laplacian : Type :=
| SparseMatrix (rows : mat)
| DenseArray (rows : mat).

(** Element types of arrays. *)
Inductive dtype : Set := float16 | float32 | float64.

Definition dtype_eqb (a b : dtype) : bool :=
  match a, b with
  | float16, float16 | float32, float32 | float64, float64 => true
  | _, _ => false
  end.

(** ** The store: array objects, the buffers they view, and a call log

    An array object is a header (shape and buffer); [s.view()] makes a new
    header over the same buffer, and [x.shape = ...] rewrites a header in
    place.  A buffer holds the elements in the row-major order of the
    headers over it, and has an element type and a memory layout, which
    those headers share: the code makes headers with [view()] and by
    assigning [shape], never by transposing, slicing or reinterpreting.
    The log records the calls of the local helpers [mult] and [dot]. *)

Record arrobj : Type := { a_buf : nat; a_shape : list nat }.

(** How the elements lie in memory, as far as assigning [shape] asks: in
    C order ([flags.c_contiguous]), or not; then [Blocks bs] gives the sizes
    of the maximal groups of neighbouring axes (axes of length 1 left out)
    that lie in memory as in C order, the groups numpy can merge without
    copying.  A Fortran-ordered [(2, 3, 4)] array, or a C-ordered one after
    [transpose(2, 1, 0)], is [Blocks [2; 3; 4]]; the slice [a[:, :, :4]] of
    a C-ordered [(2, 3, 8)] array is [Blocks [6; 4]]. *)
Inductive layout : Type :=
| Contiguous
| Blocks (bs : list nat).

Inductive op : Set := OpMult | OpDot.

Record heap : Type := {
  objs : nat -> option arrobj;
  next_obj : nat;
  bufs : nat -> option (list R);
  buf_layout : nat -> layout;
  buf_dtype : nat -> dtype;
  next_buf : nat;
  trace : list op
}.

Definition M (A : Type) : Type := heap -> result A * heap.

Definition ret (A : Type) (a : A) : M A := fun h => (Ok a, h).
Definition raise (A : Type) (e : exn) : M A := fun h => (Raise e, h).
Definition bind (A B : Type) (m : M A) (f : A -> M B) : M B :=
  fun h => match m h with
           | (Ok a, h') => f a h'
           | (Raise e, h') => (Raise e, h')
           end.
Definition lift (A : Type) (r : result A) : M A := fun h => (r, h).

Notation "x <- m ;; f" := (bind m (fun x => f))
  (at level 61, m at next level, right associativity).
Notation "m ;;; f" := (bind m (fun _ => f))
  (at level 61, right associativity).

Definition upd (A : Type) (f : nat -> option A) (i : nat) (v : A) : nat -> option A :=
  fun j => if Nat.eqb j i then Some v else f j.

Definition updf (A : Type) (f : nat -> A) (i : nat) (v : A) : nat -> A :=
  fun j => if Nat.eqb j i then v else f j.

Definition log (o : op) : M unit :=
  fun h => (Ok tt, {| objs := objs h; next_obj := next_obj h;
                      bufs := bufs h;
                      buf_layout := buf_layout h; buf_dtype := buf_dtype h;
                      next_buf := next_buf h;
                      trace := trace h ++ [o] |}).

(** Reading an array: its shape and its data.  A reference always names a
    live object in Python; the error branches only make the functions total. *)
Definition read (a : nat) : M (list nat * list R) :=
  fun h => match objs h a with
           | Some o => match bufs h (a_buf o) with
                       | Some d => (Ok (a_shape o, d), h)
                       | None => (Raise ValueError, h)
                       end
           | None => (Raise ValueError, h)
           end.

(** A new array with its own buffer: the value of [np.zeros], [np.einsum],
    a product with the Laplacian, or arithmetic on such values.  It is
    double precision, either by default or because numpy promotes to the
    type of the coefficients and of the Laplacian, which are double
    precision arrays.  Of the layout numpy and scipy choose for a result the
    model keeps that the code can assign its shapes [(M, F, N)] and
    [(M * F, N)] to it in place, and holds it as contiguous. *)
Definition new_array (sh : list nat) (d : list R) : M nat :=
  fun h => (Ok (next_obj h),
            {| objs := upd (objs h) (next_obj h) {| a_buf := next_buf h; a_shape := sh |};
               next_obj := S (next_obj h);
               bufs := upd (bufs h) (next_buf h) d;
               buf_layout := updf (buf_layout h) (next_buf h) Contiguous;
               buf_dtype := updf (buf_dtype h) (next_buf h) float64;
               next_buf := S (next_buf h);
               trace := trace h |}).

(** [a.view()]: a new header over the buffer of [a]. *)
Definition view (a : nat) : M nat :=
  fun h => match objs h a with
           | Some o => (Ok (next_obj h),
                        {| objs := upd (objs h) (next_obj h) o;
                           next_obj := S (next_obj h);
                           bufs := bufs h;
                           buf_layout := buf_layout h; buf_dtype := buf_dtype h;
                           next_buf := next_buf h;
                           trace := trace h |})
           | None => (Raise ValueError, h)
           end.

Definition shape_eqb (s1 s2 : list nat) : bool :=
  if list_eq_dec Nat.eq_dec s1 s2 then true else false.

(** Whether the shape [sh] regroups the blocks [bs]: each block is the
    product of a run of neighbouring entries of [sh]; [acc] is the product of
    the run in progress. *)
Fixpoint splits_into (sh bs : list nat) (acc : nat) : bool :=
  match sh with
  | [] => match bs with
          | [] => Nat.eqb acc 1
          | _ :: _ => false
          end
  | n :: sh' =>
      match bs with
      | [] => false
      | b :: bs' =>
          if Nat.eqb (acc * n) b then splits_into sh' bs' 1
          else if Nat.ltb (acc * n) b then splits_into sh' bs (acc * n)
          else false
      end
  end.

Definition drop_ones (sh : list nat) : list nat :=
  filter (fun n => negb (Nat.eqb n 1)) sh.

(** Whether numpy can give an array of shape [old] the shape [sh], of the
    same size, without copying: always when the shape does not change, when
    the array is contiguous or has at most one element; otherwise when no
    axes must be merged that do not lie together in memory. *)
Definition inplace_ok (l : layout) (old sh : list nat) : bool :=
  match l with
  | Contiguous => true
  | Blocks bs =>
      shape_eqb sh old || Nat.leb (size_of sh) 1 || splits_into (drop_ones sh) bs 1
  end.

(** [a.shape = sh]: in place.  [ValueError] when the sizes differ,
    [AttributeError] ("incompatible shape for in-place modification") when
    the layout does not allow the shape without a copy. *)
Definition set_shape (a : nat) (sh : list nat) : M unit :=
  fun h => match objs h a with
           | Some o =>
               match bufs h (a_buf o) with
               | Some d =>
                   if Nat.eqb (size_of sh) (length d)
                   then if inplace_ok (buf_layout h (a_buf o)) (a_shape o) sh
                        then (Ok tt, {| objs := upd (objs h) a {| a_buf := a_buf o; a_shape := sh |};
                                        next_obj := next_obj h;
                                        bufs := bufs h;
                                        buf_layout := buf_layout h; buf_dtype := buf_dtype h;
                                        next_buf := next_buf h;
                                        trace := trace h |})
                        else (Raise AttributeError, h)
                   else (Raise ValueError, h)
               | None => (Raise ValueError, h)
               end
           | None => (Raise ValueError, h)
           end.

(** [a += b]: writes the buffer of [a].  The operands of this file always
    have equal shapes; other shapes are refused rather than broadcast. *)
Definition iadd (a b : nat) : M unit :=
  fun h => match objs h a, read a h, read b h with
           | Some o, (Ok (sa, da), _), (Ok (sb, db), _) =>
               if shape_eqb sa sb
               then (Ok tt, {| objs := objs h; next_obj := next_obj h;
                               bufs := upd (bufs h) (a_buf o) (vadd da db);
                               buf_layout := buf_layout h; buf_dtype := buf_dtype h;
                               next_buf := next_buf h;
                               trace := trace h |})
               else (Raise ValueError, h)
           | _, _, _ => (Raise ValueError, h)
           end.

(** [a + b], [a - b], [2 * a]: new arrays, on operands of equal shapes. *)
Definition binop (f : R -> R -> R) (a b : nat) : M nat :=
  ra <- read a ;; rb <- read b ;;
  if shape_eqb (fst ra) (fst rb)
  then new_array (fst ra) (zipWith f (snd ra) (snd rb))
  else raise nat ValueError.

Definition scalar_mul (k : R) (a : nat) : M nat :=
  ra <- read a ;; new_array (fst ra) (vscale k (snd ra)).

(** [a - b2] where [b2] is the Python integer [0] ([None]) or an array. *)
Definition sub_val (a : nat) (b2 : option nat) : M nat :=
  match b2 with
  | Some b => binop Rminus a b
  | None => ra <- read a ;; new_array (fst ra) (map (fun v => v - 0) (snd ra))
  end.

(** [np.einsum('oi,min->mon', ck, x)].  Operands whose channel counts differ
    are refused with [ValueError]. *)
Definition einsum (ck : mat) (x : nat) : M nat :=
  rx <- read x ;;
  match fst rx with
  | [m; fin; n] =>
      if forallb (fun crow => Nat.eqb (length crow) fin) ck
      then new_array [m; length ck; n]
             (flat (flat (einsum_oi_min_mon n ck (unflat m fin (unflat (m * fin) n (snd rx))))))
      else raise nat ValueError
  | _ => raise nat ValueError
  end.

(** [L.__rmul__(x)] for the two-dimensional array [x].  On a sparse matrix
    it is the matrix product [x @ L], as the comment in the source says
    ([ValueError] unless [x] has as many columns as [L] has rows).  On an
    [ndarray] it is [np.multiply(x, L)], the element-wise product with
    broadcasting. *)
Definition rmul (L : laplacian) (x : nat) : M nat :=
  rx <- read x ;;
  match fst rx with
  | [r; n] =>
      match L with
      | SparseMatrix L =>
          if Nat.eqb n (length L)
          then new_array [r; ncols L] (flat (matmul (unflat r n (snd rx)) L))
          else raise nat ValueError
      | DenseArray L =>
          match broadcast2 Rmult r n (unflat r n (snd rx)) (length L) (ncols L) L with
          | Ok (r', c', y) => new_array [r'; c'] (flat y)
          | Raise e => raise nat e
          end
      end
  | _ => raise nat ValueError
  end.

(** ** The graph and the [Chebyshev] object *)

Record graph : Type := {
  G_N : nat;            (* number of nodes *)
  G_L : mat;            (* Laplacian, as its rows *)
  G_issparse : bool;    (* sparse.issparse(G.L); otherwise G.L is an ndarray *)
  G_lmax : R
}.

Record Chebyshev : Type := {
  self_G : graph;
  self_order : nat;
  _coefficients : option ndarray;   (* [None]: the attribute was never set *)
  self_Nf : nat
}.

(** The [filters] argument of the constructor: a [Filter] object (it has an
    attribute [Nf] and a bank [g] of kernels) or an array of coefficients. *)
Inductive filters_arg : Type :=
| FilterObj (Nf : nat) (g : list (R -> R))
| ArrayLike (a : ndarray).

(** [np.expand_dims(a, -1)]. *)
Definition expand_dims_last (a : ndarray) : ndarray :=
  {| nd_shape := nd_shape a ++ [1%nat]; nd_data := nd_data a |}.

(** [while a.ndim < 3: a = np.expand_dims(a, -1)]; three rounds are enough
    for the loop to leave by its test. *)
Fixpoint expand_loop (fuel : nat) (a : ndarray) : ndarray :=
  match fuel with
  | O => a
  | S fuel' => if Nat.ltb (ndim a) 3 then expand_loop fuel' (expand_dims_last a) else a
  end.

(** [_compute_coefficients] has the body [pass]: it leaves the object as it is. *)
Definition _compute_coefficients (self : Chebyshev) (filters : filters_arg) : Chebyshev :=
  self.

Definition __init__ (G : graph) (filters : filters_arg) (order : nat) : Chebyshev :=
  let self := {| self_G := G; self_order := order; _coefficients := None; self_Nf := O |} in
  let self := _compute_coefficients self filters in
  match filters with
  | FilterObj Nf _ =>
      (* [self.Nf = filters.Nf] succeeds, the [except] branch is not taken *)
      {| self_G := self_G self; self_order := self_order self;
         _coefficients := _coefficients self; self_Nf := Nf |}
  | ArrayLike a =>
      (* [filters.Nf] raises AttributeError: the [except] branch *)
      let coefficients := expand_loop 3 a in
      {| self_G := self_G self; self_order := self_order self;
         _coefficients := Some coefficients;
         self_Nf := nth 1 (nd_shape coefficients) O |}
  end.

Definition unpack3 (sh : list nat) : result (nat * nat * nat) :=
  match sh with
  | [a; b; c] => Ok (a, b, c)
  | _ => Raise ValueError            (* too many / not enough values to unpack *)
  end.

(** [except AttributeError: raise ValueError]. *)
Definition attr_to_value (A : Type) (r : result A) : result A :=
  match r with
  | Raise AttributeError => Raise ValueError
  | _ => r
  end.

(** *** [Chebyshev._evaluate] *)

(** [getattr(self, '_evaluate_' + method)]: the methods of that name the
    class defines. *)
Definition lookup_evaluate (method : string) : option (nat -> list vec -> vec -> result mat) :=
  if String.eqb method "direct" then Some (fun F c x => Ok (_evaluate_direct F c x))
  else if String.eqb method "recursive" then Some (fun _ c x => _evaluate_recursive c x)
  else if String.eqb method "clenshaw" then Some (fun _ c x => _evaluate_clenshaw c x)
  else None.

Definition default_method (method : option string) : string :=
  match method with
  | None => "recursive"%string
  | Some m => m
  end.

(** The result is the [(Fout * Fin, x.size)] array that the final
    [reshape((Fout, Fin) + x.shape).squeeze()] only re-labels; the warning
    logged for points outside [[0, lmax]] is not part of the value. *)
Definition _evaluate (self : Chebyshev) (x : vec) (method : option string) : result mat :=
  match x with
  | [] => Raise ValueError                  (* x.min() of an empty array *)
  | _ :: _ =>
      let x := map (fun t => 2 * t / G_lmax (self_G self) - 1) x in
      match _coefficients self with
      | None => Raise AttributeError
      | Some c =>
          match unpack3 (nd_shape c) with
          | Raise e => Raise e
          | Ok (K, Fout, Fin) =>
              let c := unflat K (Fout * Fin) (nd_data c) in
              let method := default_method method in
              match lookup_evaluate method with
              | None => Raise ValueError
              | Some f => attr_to_value (f (Fout * Fin)%nat c x)
              end
          end
      end
  end.

(** *** [Chebyshev._filter_recursive] *)

Definition get_coefficients (self : Chebyshev) : M ndarray :=
  match _coefficients self with
  | Some c => ret c
  | None => raise ndarray AttributeError
  end.

(** The local helpers [mult] and [dot] of [_filter_recursive]; [Mb], [Fin]
    and [N] are the variables [M], [Fin], [N] they close over. *)
Definition rec_mult (Mb Fin N : nat) (ck : mat) (x : nat) : M nat :=
  log OpMult ;;;
  set_shape x [Mb; Fin; N] ;;;
  einsum ck x.

Definition rec_dot (Mb Fin N : nat) (L : laplacian) (x : nat) : M nat :=
  log OpDot ;;;
  set_shape x [(Mb * Fin)%nat; N] ;;;
  rmul L x.

Fixpoint rec_loop (coef : nat -> result mat) (Mb Fin N : nat) (L : laplacian)
    (ks : list nat) (res x0 x1 : nat) : M unit :=
  match ks with
  | [] => ret tt
  | k :: ks' =>
      d <- rec_dot Mb Fin N L x1 ;;
      d2 <- scalar_mul 2 d ;;
      x2 <- binop Rminus d2 x0 ;;
      ck <- lift (coef k) ;;
      m <- rec_mult Mb Fin N ck x2 ;;
      iadd res m ;;;
      rec_loop coef Mb Fin N L ks' res x1 x2
  end.

(** [for k in range(2, K)] is empty unless [K > 2]; it is written inside the
    branch [K > 1], where [x1] is bound. *)
Definition _filter_recursive (self : Chebyshev) (L : laplacian) (s : nat) : M nat :=
  c <- get_coefficients self ;;
  kff <- lift (unpack3 (nd_shape c)) ;;
  let '(K, Fout, cFin) := kff in
  rs <- read s ;;
  mfn <- lift (unpack3 (fst rs)) ;;
  let '(Mb, Fin, N) := mfn in
  let coef := coef_at K Fout cFin (nd_data c) in
  x0 <- view s ;;
  c0 <- lift (coef 0%nat) ;;
  res <- rec_mult Mb Fin N c0 x0 ;;
  (if Nat.ltb 1 K
   then x1 <- rec_dot Mb Fin N L x0 ;;
        c1 <- lift (coef 1%nat) ;;
        m <- rec_mult Mb Fin N c1 x1 ;;
        iadd res m ;;;
        rec_loop coef Mb Fin N L (seq 2 (K - 2)) res x0 x1
   else ret tt) ;;;
  ret res.

(** *** [Chebyshev._filter_clenshaw] *)

Definition clen_mult (ck : mat) (s : nat) : M nat :=
  log OpMult ;;;
  einsum ck s.

Definition clen_dot (Mb Fout N : nat) (L : laplacian) (x : nat) : M nat :=
  log OpDot ;;;
  set_shape x [(Mb * Fout)%nat; N] ;;;
  y <- rmul L x ;;
  set_shape x [Mb; Fout; N] ;;;
  set_shape y [Mb; Fout; N] ;;;
  ret y.

(** [b2] is [None] while it is the Python integer [0]. *)
Fixpoint clen_loop (coef : nat -> result mat) (Mb Fout N : nat) (L : laplacian) (s : nat)
    (ks : list nat) (b1 : nat) (b2 : option nat) : M (nat * option nat) :=
  match ks with
  | [] => ret (b1, b2)
  | k :: ks' =>
      ck <- lift (coef k) ;;
      m <- clen_mult ck s ;;
      d <- clen_dot Mb Fout N L b1 ;;
      d2 <- scalar_mul 2 d ;;
      t <- binop Rplus m d2 ;;
      b <- sub_val t b2 ;;
      clen_loop coef Mb Fout N L s ks' b (Some b1)
  end.

Definition _filter_clenshaw (self : Chebyshev) (L : laplacian) (s : nat) : M nat :=
  c <- get_coefficients self ;;
  kff <- lift (unpack3 (nd_shape c)) ;;
  let '(K, Fout, cFin) := kff in
  rs <- read s ;;
  mfn <- lift (unpack3 (fst rs)) ;;
  let '(Mb, Fin, N) := mfn in
  let coef := coef_at K Fout cFin (nd_data c) in
  b1 <- (if Nat.leb 2 K
         then ck <- lift (coef (K - 1)%nat) ;; clen_mult ck s
         else new_array [Mb; Fout; N] (zeros (size_of [Mb; Fout; N]))) ;;
  bb <- clen_loop coef Mb Fout N L s (rev (seq 1 (K - 2))) b1 None ;;
  c0 <- lift (coef 0%nat) ;;
  m <- clen_mult c0 s ;;
  d <- clen_dot Mb Fout N L (fst bb) ;;
  t <- binop Rplus m d ;;
  sub_val t (snd bb).

(** *** [Chebyshev._filter] *)

Definition is_square (n : nat) (L : mat) : bool :=
  Nat.eqb (length L) n && forallb (fun r => Nat.eqb (length r) n) L.

(** [L = 2 * L / lmax - I]; [I] is the identity in the storage format of
    [L], and the difference is stored as [L] is.  Sparse matrices of
    different shapes are refused with [ValueError]; arrays are broadcast. *)
Definition rescale_laplacian (G : graph) : result laplacian :=
  let L := G_L G in
  let scaled := map (map (fun v => 2 * v / G_lmax G)) L in
  if G_issparse G
  then if is_square (G_N G) L
       then Ok (SparseMatrix (msub scaled (identity (G_N G))))
       else Raise ValueError
  else match broadcast2 Rminus (length L) (ncols L) scaled
               (G_N G) (G_N G) (identity (G_N G)) with
       | Ok (_, _, L') => Ok (DenseArray L')
       | Raise e => Raise e
       end.

(** [getattr(self, '_filter_' + method)]. *)
Definition lookup_filter (method : string)
  : option (Chebyshev -> laplacian -> nat -> M nat) :=
  if String.eqb method "recursive" then Some _filter_recursive
  else if String.eqb method "clenshaw" then Some _filter_clenshaw
  else None.

Definition _filter (self : Chebyshev) (s : nat) (method : option string) : M nat :=
  L <- lift (rescale_laplacian (self_G self)) ;;
  let method := default_method method in
  match lookup_filter method with
  | None => raise nat ValueError
  | Some f => fun h => let (r, h') := f self L s h in (attr_to_value r, h')
  end.

(** ** [operators.py]: [compute_cheby_coeff] and [cheby_op] *)

Definition rsum (l : list R) : R := fold_right Rplus 0 l.

(** [compute_cheby_coeff(f, G, m, N, i)] for the kernel [f = f.g[i]] of a
    graph whose [lmax] is set.  [range(0, int(lmax))] has
    [Z.to_nat (Int_part lmax)] elements; [/] is the true division of
    Python 3 and [np.arange(1, N)] is [1, ..., N-1]. *)
Definition compute_cheby_coeff (f : R -> R) (lmax : R) (m : nat) (N : option nat)
  : result (list R) :=
  let N := match N with
           | None => S m
           | Some O => S m                 (* [if not N] *)
           | Some n => n
           end in
  let a_arange := seq 0 (Z.to_nat (Int_part lmax)) in
  match nth_error a_arange 2, nth_error a_arange 1 with
  | Some r2, Some r1 =>
      let a1 := (INR r2 - INR r1) / 2 in
      let a2 := (INR r2 + INR r1) / 2 in
      Ok (map (fun o =>
                 rsum (map (fun j =>
                              f (a1 * cos (PI * (INR j - 0.5)) / INR N)
                              + a2 * cos (PI * (INR o - 1) * (INR j - 0.5) / INR N))
                           (seq 1 (N - 1)))
                 * 2 / INR N)
              (seq 0 (S m)))
  | _, _ => Raise IndexError
  end.

(** A two-dimensional numpy array, as its rows, with its element type: the
    signal of [cheby_op]. *)
Record typed_array : Type := { t_dtype : dtype; t_rows : mat }.

(** [np.float64(signal)] returns the array in double precision, but for an
    array of one element it returns a float64 scalar. *)
Inductive npvalue : Type :=
| NpScalar (v : R)
| NpArray (a : typed_array).

Definition np_float64 (a : typed_array) : npvalue :=
  match t_rows a with
  | [[v]] => NpScalar v
  | rows => NpArray {| t_dtype := float64; t_rows := rows |}
  end.

(** [G.L * signal] for a two-dimensional [signal]: the matrix product when
    [G.L] is a sparse matrix, [ValueError] when the dimensions do not match;
    the element-wise product with broadcasting when [G.L] is an [ndarray].
    The result comes with its shape. *)
Definition laplacian_times (G : graph) (x : mat) : result (nat * nat * mat) :=
  let L := G_L G in
  if G_issparse G
  then if Nat.eqb (ncols L) (length x)
       then Ok (length L, ncols x, map (fun row => lincomb (ncols x) row x) L)
       else Raise ValueError
  else broadcast2 Rmult (length L) (ncols L) L (length x) (ncols x) x.

(** The variables of [cheby_op] when its recurrence begins. *)
Record cheby_state : Type :=
  { twf_old : typed_array; twf_cur : typed_array; cheby_r : mat }.

(** [cheby_op(G, c, signal)] up to its loop [for k in range(maxM + 1)]; [c]
    is the list of the coefficient rows.  On a scalar [signal], the
    subtraction of a non-zero scalar from a sparse matrix raises
    [NotImplementedError], and [signal[1]] raises [IndexError]. *)
Definition cheby_op_start (G : graph) (c : list (list R)) (signal : typed_array)
  : result cheby_state :=
  match nth_error c 1 with
  | None => Raise IndexError                (* Nscales = len(c[1]) *)
  | Some c1 =>
      let Nscales := length c1 in
      let signal := if dtype_eqb (t_dtype signal) float32
                    then np_float64 signal else NpArray signal in
      let a_arange := seq 0 (Z.to_nat (Int_part (G_lmax G))) in
      match nth_error a_arange 2, nth_error a_arange 1 with
      | Some r2, Some r1 =>
          let a1 := (INR r2 - INR r1) / 2 in
          let a2 := (INR r2 + INR r1) / 2 in
          match signal with
          | NpScalar v =>
              if G_issparse G
              then if Req_EM_T (a2 * v) 0
                   then Raise IndexError           (* Nv = len(signal[1]) *)
                   else Raise NotImplementedError  (* G.L * signal - a2 * signal *)
              else Raise IndexError                (* Nv = len(signal[1]) *)
          | NpArray x =>
              match laplacian_times G (t_rows x) with
              | Raise e => Raise e
              | Ok (r, n, Lx) =>
                  match broadcast2 Rminus r n Lx (length (t_rows x)) (ncols (t_rows x))
                                   (mscale a2 (t_rows x)) with
                  | Raise e => Raise e
                  | Ok (_, _, dif) =>
                      match nth_error (t_rows x) 1 with
                      | None => Raise IndexError   (* Nv = len(signal[1]) *)
                      | Some row1 =>
                          Ok {| twf_old := x;
                                twf_cur := {| t_dtype := float64;
                                              t_rows := map (map (fun v => v / a1)) dif |};
                                cheby_r := mzeros (G_N G * Nscales) (length row1) |}
                      end
                  end
              end
          end
      | _, _ => Raise IndexError
      end
  end.

(** ** [operators.py]: [create_laplacian] *)

(** [np.diagflat(v)]: the square matrix with [v] on its diagonal. *)
Definition diagflat (v : vec) : mat :=
  map (fun i => map (fun j => if Nat.eqb i j then nth i v 0 else 0) (seq 0 (length v)))
      (seq 0 (length v)).

(** [sp.shape(G.W) == (1, 1)]. *)
Definition is_1x1 (W : mat) : bool :=
  match W with
  | [[_]] => true
  | _ => false
  end.

(** [create_laplacian(G)] for the weight matrix [W = G.W] and [G.lap_type].
    [sparse.lil_matrix(0)] is the [1 x 1] zero matrix and [G.W.sum(1)] the
    row sums.  The matrix expression of the branch 'normalized' rests on
    the matrix classes of numpy and is not modelled: its outcome is the
    argument [normalized].  A weight matrix that is not square cannot be
    subtracted from the diagonal one ([ValueError]). *)
Definition create_laplacian (W : mat) (lap_type : string) (normalized : result mat)
  : result mat :=
  if is_1x1 W then Ok [[0]]
  else if String.eqb lap_type "combinatorial" then
    if is_square (length W) W
    then Ok (msub (diagflat (map rsum W)) W)
    else Raise ValueError
  else if String.eqb lap_type "normalized" then normalized
  else if String.eqb lap_type "none" then Ok [[0]]
  else Raise AttributeError.

(** ** The mathematical objects the documentation speaks of *)

(** The quadrature of Chebyshev and Gauss: nodes [cos(pi (j - 1/2) / N)],
    [j = 1..N], taken back from [[-1, 1]] to [[0, lmax]] by the inverse of
    [x' = 2 x / lmax - 1]. *)
Definition cheb_node (N j : nat) : R := cos (PI * (INR j - 0.5) / INR N).
Definition unscale (lmax x' : R) : R := (x' + 1) * lmax / 2.

Definition quadrature_coeff (f : R -> R) (lmax : R) (N o : nat) : R :=
  2 / INR N *
  rsum (map (fun j => f (unscale lmax (cheb_node N j))
                      * cos (INR o * PI * (INR j - 0.5) / INR N))
            (seq 1 N)).

(** [L . x] for a column vector [x]. *)
Definition dotp (u v : vec) : R := rsum (zipWith Rmult u v).
Definition matvec (L : mat) (x : vec) : vec := map (fun row => dotp row x) L.

(** [T_k(L) . x]: [T_0(L) x = x], [T_1(L) x = L x],
    [T_k(L) x = 2 L T_(k-1)(L) x - T_(k-2)(L) x]. *)
Fixpoint cheb_diffuse (L : mat) (k : nat) (x : vec) : vec :=
  match k with
  | O => x
  | S m =>
      match m with
      | O => matvec L x
      | S p => vsub (vscale 2 (matvec L (cheb_diffuse L m x))) (cheb_diffuse L p x)
      end
  end.

(** Entry [i, j] of a matrix and entry [k, o, i] of a three-dimensional array. *)
Definition entry3 (c : list mat) (k o i : nat) : R := entry (nth k c []) o i.

Definition symmetric (L : mat) : Prop :=
  forall i j, entry L i j = entry L j i.

(** The filtered batch as the documentation writes it: entry [m, o, n] is
    [sum_k sum_i c[k,o,i] * (T_k(L') . s[m,i])[n]]. *)
Definition filtered (L' : mat) (K Fout Fin N : nat) (c : list mat) (s : list mat)
  : list mat :=
  map (fun sm =>
         map (fun o =>
                map (fun n =>
                       rsum (map (fun k =>
                                    rsum (map (fun i =>
                                                 entry3 c k o i
                                                 * nth n (cheb_diffuse L' k (nth i sm [])) 0)
                                              (seq 0 Fin)))
                                 (seq 0 K)))
                    (seq 0 N))
             (seq 0 Fout))
      s.

(** [L' = 2 L / lmax - I], entry by entry. *)
Definition rescaled (lmax : R) (N : nat) (L : mat) : mat :=
  map (fun i => map (fun j => 2 * entry L i j / lmax - (if Nat.eqb i j then 1 else 0))
                    (seq 0 N))
      (seq 0 N).

(** Shapes of nested lists. *)
Definition is_mat (r n : nat) (A : mat) : Prop :=
  length A = r /\ Forall (fun row => length row = n) A.
Definition is_tensor3 (a b n : nat) (T : list mat) : Prop :=
  length T = a /\ Forall (is_mat b n) T.

(** Nothing that existed in [h] differs in [h']: headers, contents, layout
    and element type. *)
Definition preserved (h h' : heap) : Prop :=
  (forall a, (a < next_obj h)%nat -> objs h' a = objs h a) /\
  (forall b, (b < next_buf h)%nat -> bufs h' b = bufs h b) /\
  (next_obj h <= next_obj h')%nat /\ (next_buf h <= next_buf h')%nat /\
  (forall b, (b < next_buf h)%nat ->
     buf_layout h' b = buf_layout h b /\ buf_dtype h' b = buf_dtype h b).

(** ** Auxiliary definitions of the proofs *)

Definition G_example : graph :=
  {| G_N := 1; G_L := [[2]]; G_issparse := true; G_lmax := 2 |}.

(** A path of three nodes, whose largest eigenvalue is 3, with a signal of
    one value per node in half and in single precision. *)
Definition G_path3 : graph :=
  {| G_N := 3; G_L := [[1; -1; 0]; [-1; 2; -1]; [0; -1; 1]];
     G_issparse := true; G_lmax := 3 |}.

Definition signal16 : typed_array := {| t_dtype := float16; t_rows := [[1]; [2]; [3]] |}.

Definition signal32 : typed_array := {| t_dtype := float32; t_rows := [[1]; [2]; [3]] |}.

(** [tab F x g]: the [(F, P)] array whose entry [f, p] is [g f x[p]]. *)
Definition tab (F : nat) (x : vec) (g : nat -> R -> R) : mat :=
  map (fun f => map (g f) x) (seq 0 F).

(** The column of filter [f]: its coefficients over the orders. *)
Definition col (c : list vec) (f : nat) : list R := map (fun ck => nth f ck 0) c.

Definition eval_series (F : nat) (c : list vec) (x : vec) : mat :=
  tab F x (fun f t => cheb_series (col c f) t).

(** The scalar step of the backward recurrence, and the pair [(b1, b2)] it
    reaches on a list of coefficients. *)
Definition sstep (t : R) (st : R * R) (a : R) : R * R :=
  (a + 2 * t * fst st - snd st, fst st).

Definition bpair (t : R) (l : list R) : R * R :=
  fold_right (fun a st => sstep t st a) (0, 0) l.

Definition self_example : Chebyshev :=
  __init__ G_example (ArrayLike {| nd_shape := [3]%nat; nd_data := [1; 2; 3] |}) 2.

(** [arr_at h a b sh d]: in the store [h], the object [a] is an array of
    shape [sh] over the buffer [b], which holds [d], whatever its layout and
    element type; [arr_in h a b sh d]: it is contiguous as well.  The
    definitions after them are the stores that the primitives leave. *)
Definition arr_at (h : heap) (a b : nat) (sh : list nat) (d : list R) : Prop :=
  objs h a = Some {| a_buf := b; a_shape := sh |} /\ bufs h b = Some d
  /\ (a < next_obj h)%nat /\ (b < next_buf h)%nat.

Definition arr_in (h : heap) (a b : nat) (sh : list nat) (d : list R) : Prop :=
  objs h a = Some {| a_buf := b; a_shape := sh |} /\ bufs h b = Some d
  /\ (a < next_obj h)%nat /\ (b < next_buf h)%nat
  /\ buf_layout h b = Contiguous.

Definition h_log (h : heap) (o : op) : heap :=
  {| objs := objs h; next_obj := next_obj h; bufs := bufs h;
     buf_layout := buf_layout h; buf_dtype := buf_dtype h; next_buf := next_buf h;
     trace := trace h ++ [o] |}.

Definition h_alloc (h : heap) (sh : list nat) (d : list R) : heap :=
  {| objs := upd (objs h) (next_obj h) {| a_buf := next_buf h; a_shape := sh |};
     next_obj := S (next_obj h);
     bufs := upd (bufs h) (next_buf h) d;
     buf_layout := updf (buf_layout h) (next_buf h) Contiguous;
     buf_dtype := updf (buf_dtype h) (next_buf h) float64;
     next_buf := S (next_buf h);
     trace := trace h |}.

Definition h_view (h : heap) (b : nat) (sh : list nat) : heap :=
  {| objs := upd (objs h) (next_obj h) {| a_buf := b; a_shape := sh |};
     next_obj := S (next_obj h);
     bufs := bufs h;
     buf_layout := buf_layout h; buf_dtype := buf_dtype h; next_buf := next_buf h;
     trace := trace h |}.

Definition h_reshape (h : heap) (a b : nat) (sh : list nat) : heap :=
  {| objs := upd (objs h) a {| a_buf := b; a_shape := sh |};
     next_obj := next_obj h;
     bufs := bufs h;
     buf_layout := buf_layout h; buf_dtype := buf_dtype h; next_buf := next_buf h;
     trace := trace h |}.

Definition h_write (h : heap) (b : nat) (d : list R) : heap :=
  {| objs := objs h; next_obj := next_obj h;
     bufs := upd (bufs h) b d;
     buf_layout := buf_layout h; buf_dtype := buf_dtype h; next_buf := next_buf h;
     trace := trace h |}.

(** A vector of length [N] given by its coordinates, and a tensor of shape
    [(length s, C, N)] given, for every signal [sig] of [s] and channel [o],
    by the coordinates of its row. *)
Definition vtab (N : nat) (f : nat -> R) : list R := map f (seq 0 N).

Definition T3 (N : nat) (s : list (list (list R))) (C : nat)
    (g : list (list R) -> nat -> nat -> R) : list (list (list R)) :=
  map (fun sig => map (fun o => vtab N (g sig o)) (seq 0 C)) s.

Definition data (T : list (list (list R))) : list R := flat (flat T).

(** Coordinates of [x @ L] and of the channel mixing. *)
Definition Aop (L : mat) (N : nat) (f : nat -> R) : nat -> R :=
  fun n => rsum (map (fun j => f j * entry L j n) (seq 0 N)).

Definition mix (ck : mat) (Fin : nat) (g : nat -> nat -> R) (o : nat) : nat -> R :=
  fun n => rsum (map (fun i => entry ck o i * g i n) (seq 0 Fin)).

(** [T_k] of the operator [x -> x @ L], on coordinates. *)
Fixpoint Tf (L : mat) (N : nat) (k : nat) (f : nat -> R) : nat -> R :=
  match k with
  | O => f
  | S m =>
      match m with
      | O => Aop L N f
      | S p => fun n => 2 * Aop L N (Tf L N m f) n - Tf L N p f n
      end
  end.

(** The term of order [k] and the partial sums that [_filter_recursive]
    accumulates, on coordinates. *)
Definition rterm (c3 : list mat) (L : mat) (N Fin : nat) (k : nat)
    (sig : mat) (o : nat) : nat -> R :=
  mix (nth k c3 []) Fin (fun i => Tf L N k (entry sig i)) o.

Definition racc (c3 : list mat) (L : mat) (N Fin : nat) (k : nat)
    (sig : mat) (o : nat) (n : nat) : R :=
  rsum (map (fun j => rterm c3 L N Fin j sig o n) (seq 0 k)).

(** The store after the helper [dot] of [_filter_clenshaw] ran on [x]. *)
Definition h_clen_dot (h : heap) (x b : nat) (Mb Fout N : nat) (d : list R) : heap :=
  h_reshape
    (h_reshape
       (h_alloc (h_reshape (h_log h OpDot) x b [(Mb * Fout)%nat; N])
          [(Mb * Fout)%nat; N] d)
       x b [Mb; Fout; N])
    (next_obj h) (next_buf h) [Mb; Fout; N].

(** The coordinates of [mult(c[k], s)] and the backward recurrence on them. *)
Definition U (c3 : list mat) (Fin : nat) (k : nat) (sig : mat) (o : nat) : nat -> R :=
  mix (nth k c3 []) Fin (entry sig) o.

Definition cstate : Type := ((mat -> nat -> nat -> R) * (mat -> nat -> nat -> R))%type.

Definition cstep (c3 : list mat) (L : mat) (N Fin : nat) (st : cstate) (k : nat) : cstate :=
  (fun sig o n => U c3 Fin k sig o n + 2 * Aop L N (fst st sig o) n - snd st sig o n,
   fst st).

Definition cinit (c3 : list mat) (Fin K : nat) : mat -> nat -> nat -> R :=
  if Nat.leb 2 K then U c3 Fin (K - 1) else fun _ _ _ => 0.

Definition clen_fun (c3 : list mat) (L : mat) (N Fin K : nat) : mat -> nat -> nat -> R :=
  let st := fold_left (cstep c3 L N Fin) (rev (seq 1 (K - 2)))
              (cinit c3 Fin K, fun _ _ _ => 0) in
  fun sig o n => U c3 Fin 0 sig o n + Aop L N (fst st sig o) n - snd st sig o n.

(** [b2] in the store: the integer [0], or an array of shape [(M, Fout, N)]. *)
Definition val_at (N : nat) (s : list mat) (Fout : nat) (h : heap) (b2 : option nat)
    (B2 : mat -> nat -> nat -> R) : Prop :=
  match b2 with
  | None => forall sig o n, B2 sig o n = 0
  | Some a => exists bb, arr_in h a bb [length s; Fout; N] (data (T3 N s Fout B2))
  end.

Fixpoint csum (c3 : list mat) (L : mat) (N Fin : nat) (m : nat) (ks : list nat)
    (sig : mat) (o n : nat) : R :=
  match ks with
  | [] => 0
  | k :: ks' => Tf L N (S m) (U c3 Fin k sig o) n + csum c3 L N Fin (S m) ks' sig o n
  end.

(** A one-node graph with a single coefficient and a single signal value,
    for the examples. *)
Definition self1 : Chebyshev :=
  {| self_G := G_example; self_order := 0;
     _coefficients := Some {| nd_shape := [1; 1; 1]%nat; nd_data := [3] |};
     self_Nf := 1 |}.

Definition heap1 : heap :=
  {| objs := upd (fun _ => None) 0 {| a_buf := 0; a_shape := [1; 1; 1]%nat |};
     next_obj := 1;
     bufs := upd (fun _ => None) 0 [5];
     buf_layout := fun _ => Contiguous;
     buf_dtype := fun _ => float64;
     next_buf := 1;
     trace := [] |}.

(** The Laplacian that [_filter] hands to the algorithms. *)
Definition rescaled_L (self : Chebyshev) (N : nat) : mat :=
  rescaled (G_lmax (self_G self)) N (G_L (self_G self)).

(** [c0 - c1 + c2 - ...], the value of a Chebyshev series at [-1]. *)
Definition alt_sum (l : list R) : R := fold_right (fun a acc => a - acc) 0 l.

(** Counting the calls of one helper in the log. *)
Definition op_eqb (a b : op) : bool :=
  match a, b with
  | OpMult, OpMult | OpDot, OpDot => true
  | _, _ => false
  end.

Definition count_op (o : op) (t : list op) : nat := length (filter (op_eqb o) t).

(** [a * s1 + b * s2] for two batches of signals of the same shape. *)
Definition axpby (a b : R) (u v : R) : R := a * u + b * v.

Definition batch_axpby (a b : R) (s1 s2 : list mat) : list mat :=
  zipWith (zipWith (zipWith (axpby a b))) s1 s2.

(** A store with three batches of one signal, the third being
    [2 * s1 + 3 * s2], and a two-node graph with its combinatorial
    Laplacian, for the examples. *)
Definition heap3 : heap :=
  {| objs := fun a => match a with
                      | 0%nat => Some {| a_buf := 0; a_shape := [1; 2; 2]%nat |}
                      | 1%nat => Some {| a_buf := 1; a_shape := [1; 2; 2]%nat |}
                      | 2%nat => Some {| a_buf := 2; a_shape := [1; 2; 2]%nat |}
                      | _ => None
                      end;
     next_obj := 3;
     bufs := fun b => match b with
                      | 0%nat => Some [1; 2; 3; 4]
                      | 1%nat => Some [5; 6; 7; 8]
                      | 2%nat => Some (data (batch_axpby 2 3 [[[1; 2]; [3; 4]]]
                                                         [[[5; 6]; [7; 8]]]))
                      | _ => None
                      end;
     buf_layout := fun _ => Contiguous;
     buf_dtype := fun _ => float64;
     next_buf := 3;
     trace := [] |}.

Definition G_pair : graph :=
  {| G_N := 2; G_L := [[1; -1]; [-1; 1]]; G_issparse := true; G_lmax := 2 |}.

(** ** Example objects *)

(** [returned m h]: what the caller of [m] gets in the store [h]: the shape
    and the values of the array that is returned, or the exception. *)
Definition returned (m : M nat) (h : heap) : result (list nat * list R) :=
  let (r, h') := m h in
  match r with
  | Ok a => fst (read a h')
  | Raise e => Raise e
  end.

(** A store holding one array, the object [0] over the buffer [0]. *)
Definition heap_of (l : layout) (dt : dtype) (sh : list nat) (d : list R) : heap :=
  {| objs := upd (fun _ => None) 0 {| a_buf := 0; a_shape := sh |};
     next_obj := 1;
     bufs := upd (fun _ => None) 0 d;
     buf_layout := fun _ => l;
     buf_dtype := fun _ => dt;
     next_buf := 1;
     trace := [] |}.

(** A [Chebyshev] object holding the coefficients of shape [sh]. *)
Definition self_of (G : graph) (sh : list nat) (d : list R) : Chebyshev :=
  {| self_G := G; self_order := Nat.pred (hd 0%nat sh);
     _coefficients := Some {| nd_shape := sh; nd_data := d |};
     self_Nf := nth 1 sh 0%nat |}.

(** The two-node path with a dense Laplacian, and a two-node directed graph,
    whose Laplacian is not symmetric. *)
Definition G_dense : graph :=
  {| G_N := 2; G_L := [[1; -1]; [-1; 1]]; G_issparse := false; G_lmax := 2 |}.

Definition G_directed : graph :=
  {| G_N := 2; G_L := [[1; 2]; [0; 1]]; G_issparse := true; G_lmax := 2 |}.

(** Coefficients of shape [(3, 2, 2)] and a batch of two signals with two
    features on two nodes. *)
Definition c_322 : list mat :=
  [[[1; 2]; [3; 4]]; [[5; 6]; [7; 8]]; [[9; 10]; [11; 12]]].

Definition s_222 : list mat := [[[1; 2]; [3; 4]]; [[5; 6]; [7; 8]]].

Definition self_322 : Chebyshev := self_of G_pair [3; 2; 2]%nat (data c_322).

Definition heap_222 : heap := heap_of Contiguous float64 [2; 2; 2]%nat (data s_222).

(** ** The frame of a call *)

(** [owned h0 h a]: the array [a], if it is in the store [h], lies over a
    buffer made after [h0]; [grown h0 h h']: going from [h] to [h'] kept what
    [h0] held and what was owned. *)
Definition owned (h0 h : heap) (a : nat) : Prop :=
  forall o, objs h a = Some o -> (next_buf h0 <= a_buf o)%nat.

Definition grown (h0 h h' : heap) : Prop :=
  preserved h0 h' /\ forall a, owned h0 h a -> owned h0 h' a.

Definition newobj (h0 h' : heap) (v : nat) : Prop :=
  (next_obj h0 <= v)%nat /\ owned h0 h' v.

(** An operation that computes a new array from arrays it reads either
    fails, leaving the store as it is, or allocates its result. *)
Definition allocates (m : M nat) : Prop :=
  forall h, (exists e, m h = (Raise e, h))
            \/ (exists sh d, m h = (Ok (next_obj h), h_alloc h sh d)).

(** * Properties *)

Unset Implicit Arguments.

(** ** The constructor: stored coefficient shapes *)

Lemma expand_loop_shape (fuel : nat) (a : ndarray) :
  (3 - ndim a <= fuel)%nat ->
  nd_shape (expand_loop fuel a) = nd_shape a ++ repeat 1%nat (3 - ndim a)
  /\ nd_data (expand_loop fuel a) = nd_data a.
Proof.
  revert a. induction fuel as [|fuel IH]; intros a Hf.
  - assert (E : (3 - ndim a = 0)%nat) by lia.
    rewrite E. simpl. now rewrite app_nil_r.
  - cbn [expand_loop]. destruct (Nat.ltb_spec (ndim a) 3) as [Hlt|Hge].
    + assert (Hn : ndim (expand_dims_last a) = S (ndim a)).
      { unfold ndim, expand_dims_last. cbn [nd_shape]. rewrite length_app. simpl. lia. }
      destruct (IH (expand_dims_last a)) as [Hs Hd]; [lia|].
      rewrite Hs, Hd, Hn. split; [|reflexivity].
      cbn [nd_shape expand_dims_last]. rewrite <- app_assoc. f_equal.
      assert (E : (3 - ndim a = S (3 - S (ndim a)))%nat) by lia.
      rewrite E. reflexivity.
    + assert (E : (3 - ndim a = 0)%nat) by lia.
      rewrite E. simpl. now rewrite app_nil_r.
Qed.

(** C9, as stated, fails: a four-dimensional coefficient array is stored
    with its four dimensions. *)
Lemma C9_four_dims_kept :
  option_map ndim
    (_coefficients (__init__ G_example
                      (ArrayLike {| nd_shape := [2; 1; 1; 1]%nat; nd_data := [1; 2] |}) 30))
  = Some 4%nat
  /\ option_map ndim
       (_coefficients (__init__ G_example
                         (ArrayLike {| nd_shape := [2; 1; 1; 1]%nat; nd_data := [1; 2] |}) 30))
     <> Some 3%nat.
Proof. split; [reflexivity | discriminate]. Qed.

(** C9 (amended): a coefficient array of at most three dimensions is stored
    with exactly three, the missing trailing axes being singletons and the
    data untouched; [Nf] is the second dimension. *)
Theorem C9_init_normalizes_shape (G : graph) (a : ndarray) (order : nat) :
  (ndim a <= 3)%nat ->
  exists c, _coefficients (__init__ G (ArrayLike a) order) = Some c
            /\ ndim c = 3%nat
            /\ nd_shape c = nd_shape a ++ repeat 1%nat (3 - ndim a)
            /\ nd_data c = nd_data a
            /\ self_Nf (__init__ G (ArrayLike a) order) = nth 1 (nd_shape c) O.
Proof.
  intros Hle. exists (expand_loop 3 a).
  unfold __init__, _compute_coefficients. cbn [_coefficients self_Nf].
  destruct (expand_loop_shape 3 a) as [Hs Hd]; [lia|].
  repeat split; auto.
  unfold ndim in *. rewrite Hs, length_app, repeat_length. lia.
Qed.

Lemma C9_init_normalizes_shape_witness :
  exists c, _coefficients (__init__ G_example
                             (ArrayLike {| nd_shape := [3]%nat; nd_data := [1; 2; 3] |}) 2)
            = Some c
            /\ ndim c = 3%nat
            /\ nd_shape c = [3]%nat ++ repeat 1%nat (3 - 1)
            /\ nd_data c = [1; 2; 3]
            /\ self_Nf (__init__ G_example
                          (ArrayLike {| nd_shape := [3]%nat; nd_data := [1; 2; 3] |}) 2)
               = nth 1 (nd_shape c) O.
Proof.
  apply (@C9_init_normalizes_shape G_example
           {| nd_shape := [3]%nat; nd_data := [1; 2; 3] |} 2%nat).
  unfold ndim. simpl. lia.
Defined.

(** ** The constructor on a [Filter] object *)

(** C7: the coefficients of a [Filter] object are never computed.  The
    constructor leaves [_coefficients] unset, and every later evaluation
    stops with [AttributeError] when it reads the attribute. *)
Theorem C7_filter_object_has_no_coefficients
    (G : graph) (Nf : nat) (g : list (R -> R)) (order : nat) :
  _coefficients (__init__ G (FilterObj Nf g) order) = None
  /\ forall (t : R) (x : vec) (method : option string),
       _evaluate (__init__ G (FilterObj Nf g) order) (t :: x) method = Raise AttributeError.
Proof. split; reflexivity. Qed.

(** ** [range(0, int(G.lmax))] *)

Lemma Int_part_3 : Int_part 3 = 3%Z.
Proof. symmetry. apply Int_part_spec. lra. Qed.

Lemma Int_part_small (lmax : R) : lmax < 3 -> (Z.to_nat (Int_part lmax) < 3)%nat.
Proof.
  intros H. destruct (base_Int_part lmax) as [Hle _].
  assert (Hz : (Int_part lmax < 3)%Z) by (apply lt_IZR; lra). lia.
Qed.

Lemma Int_part_large (lmax : R) : 3 <= lmax -> (3 <= Z.to_nat (Int_part lmax))%nat.
Proof.
  intros H. destruct (base_Int_part lmax) as [_ Hgt].
  assert (Hz : (2 < Int_part lmax)%Z) by (apply lt_IZR; lra). lia.
Qed.

Lemma arange_indices (lmax : R) :
  (3 <= Z.to_nat (Int_part lmax))%nat ->
  nth_error (seq 0 (Z.to_nat (Int_part lmax))) 2 = Some 2%nat
  /\ nth_error (seq 0 (Z.to_nat (Int_part lmax))) 1 = Some 1%nat.
Proof.
  intros H. destruct (Z.to_nat (Int_part lmax)) as [|[|[|n]]]; try lia.
  split; reflexivity.
Qed.

(** ** [compute_cheby_coeff] against the quadrature formula *)

(** C2: for the constant kernel [1], [lmax = 3] and order [0] the formula
    gives the coefficient [2], and the code returns [0]: [np.arange(1, N)]
    stops at [N - 1], so with [N = 1] nothing is summed. *)
Theorem C2_coeff_differs_from_quadrature :
  compute_cheby_coeff (fun _ => 1) 3 0 None = Ok [0]
  /\ quadrature_coeff (fun _ => 1) 3 1 0 = 2.
Proof.
  split.
  - unfold compute_cheby_coeff. rewrite Int_part_3. simpl.
    f_equal. f_equal. lra.
  - unfold quadrature_coeff, cheb_node, unscale. simpl.
    replace (0 * PI * (1 - 0.5) / 1) with 0 by lra.
    rewrite cos_0. lra.
Qed.

(** With [lmax = 2] the code does not return at all: [range(0, 2)] has no
    element of index [2]. *)
Lemma compute_cheby_coeff_lmax_2 (f : R -> R) (m : nat) (N : option nat) :
  compute_cheby_coeff f 2 m N = Raise IndexError.
Proof.
  unfold compute_cheby_coeff.
  replace (Int_part 2) with 2%Z by (apply Int_part_spec; lra).
  reflexivity.
Qed.

(** ** Lists as tables *)

Lemma zipWith_map {A B C D : Type} (f : B -> C -> D) (g : A -> B) (h : A -> C) (l : list A) :
  zipWith f (map g l) (map h l) = map (fun a => f (g a) (h a)) l.
Proof. induction l as [|a l IH]; simpl; [reflexivity | now rewrite IH]. Qed.

Lemma map_nth_seq {A : Type} (d : A) (l : list A) :
  map (fun i => nth i l d) (seq 0 (length l)) = l.
Proof.
  induction l as [|a l IH]; simpl; [reflexivity|].
  f_equal. rewrite <- seq_shift, map_map. exact IH.
Qed.

Lemma map_as_table {A B : Type} (d : A) (G : A -> B) (l : list A) :
  map G l = map (fun i => G (nth i l d)) (seq 0 (length l)).
Proof.
  rewrite <- (map_nth_seq d l) at 1. now rewrite map_map.
Qed.

Lemma repeat_as_map {A B : Type} (a : A) (l : list B) :
  repeat a (length l) = map (fun _ => a) l.
Proof. induction l; simpl; [reflexivity | now f_equal]. Qed.

Lemma repeat_as_seq {A : Type} (a : A) (n : nat) :
  repeat a n = map (fun _ => a) (seq 0 n).
Proof. rewrite <- (repeat_as_map a (seq 0 n)), length_seq. reflexivity. Qed.

Lemma tab_ext_in (F : nat) (x : vec) (g h : nat -> R -> R) :
  (forall f t, In t x -> g f t = h f t) -> tab F x g = tab F x h.
Proof.
  intros H. unfold tab. apply map_ext. intros f. apply map_ext_in. intros t Ht. now apply H.
Qed.

Lemma mzeros_tab (F : nat) (x : vec) :
  mzeros F (length x) = tab F x (fun _ _ => 0).
Proof.
  unfold mzeros, zeros, tab. rewrite repeat_as_seq. apply map_ext. intros _.
  apply repeat_as_map.
Qed.

Lemma outer_tab (F : nat) (x : vec) (ck : vec) (h : R -> R) :
  length ck = F ->
  outer ck (map h x) = tab F x (fun f t => nth f ck 0 * h t).
Proof.
  intros <-. unfold outer, tab. rewrite (map_as_table 0 _ ck).
  apply map_ext. intros f. unfold vscale. now rewrite map_map.
Qed.

Lemma madd_tab (F : nat) (x : vec) (g h : nat -> R -> R) :
  madd (tab F x g) (tab F x h) = tab F x (fun f t => g f t + h f t).
Proof.
  unfold madd, tab. rewrite zipWith_map. apply map_ext. intros f.
  unfold vadd. apply zipWith_map.
Qed.

Lemma msub_tab (F : nat) (x : vec) (g h : nat -> R -> R) :
  msub (tab F x g) (tab F x h) = tab F x (fun f t => g f t - h f t).
Proof.
  unfold msub, tab. rewrite zipWith_map. apply map_ext. intros f.
  unfold vsub. apply zipWith_map.
Qed.

Lemma rowmul_tab (F : nat) (x : vec) (u : R -> R) (g : nat -> R -> R) :
  rowmul (map u x) (tab F x g) = tab F x (fun f t => u t * g f t).
Proof.
  unfold rowmul, tab. rewrite map_map. apply map_ext. intros f.
  unfold vmul. apply zipWith_map.
Qed.

Lemma coladd_tab (F : nat) (x : vec) (ck : vec) (g : nat -> R -> R) :
  length ck = F ->
  coladd ck (tab F x g) = tab F x (fun f t => nth f ck 0 + g f t).
Proof.
  intros <-. unfold coladd, tab.
  rewrite <- (map_nth_seq 0 ck) at 1. rewrite zipWith_map.
  apply map_ext. intros f. now rewrite map_map.
Qed.

Lemma ones_as_map (x : vec) : ones (length x) = map (fun _ => 1) x.
Proof. apply repeat_as_map. Qed.

(** ** The three evaluation algorithms compute the Chebyshev series *)

Lemma cos_cheb (x : R) (k : nat) :
  -1 <= x <= 1 -> cos (INR k * acos x) = cheb k x.
Proof.
  intros Hx.
  assert (H : cos (INR k * acos x) = cheb k x
              /\ cos (INR (S k) * acos x) = cheb (S k) x).
  { induction k as [|k [IH0 IH1]].
    - split.
      + simpl. rewrite Rmult_0_l. apply cos_0.
      + simpl. rewrite Rmult_1_l. now apply cos_acos.
    - split; [exact IH1|].
      change (cheb (S (S k)) x) with (2 * x * cheb (S k) x - cheb k x).
      rewrite <- IH0, <- IH1.
      rewrite <- (cos_acos x Hx) at 2.
      replace (INR (S (S k)) * acos x) with (INR (S k) * acos x + acos x)
        by (rewrite !S_INR; ring).
      replace (INR k * acos x) with (INR (S k) * acos x - acos x)
        by (rewrite !S_INR; ring).
      rewrite cos_plus, cos_minus. ring. }
  exact (proj1 H).
Qed.

Lemma direct_loop (F : nat) (x : vec) (cs : list vec) :
  Forall (fun t => -1 <= t <= 1) x ->
  Forall (fun ck => length ck = F) cs ->
  forall (k : nat) (g : nat -> R -> R),
    fst (fold_left
           (fun (st : mat * nat) ck =>
              let (result, k) := st in
              (madd result (outer ck (map (fun t => cos (INR k * t)) (map acos x))), S k))
           cs (tab F x g, k))
    = tab F x (fun f t => g f t + series_from k (col cs f) t).
Proof.
  intros Hx Hc. induction Hc as [|ck cs Hck Hcs IH]; intros k g.
  - cbn [fold_left fst]. apply tab_ext_in. intros. unfold col; cbn [map series_from]. ring.
  - cbn [fold_left]. rewrite map_map, (outer_tab F x ck _ Hck), madd_tab, IH.
    apply tab_ext_in. intros f t Ht. unfold col; cbn [map series_from].
    rewrite cos_cheb; [ring|]. rewrite Forall_forall in Hx. now apply Hx.
Qed.

Lemma rec_step_cheb (x : vec) (n : nat) :
  vsub (vmul (vscale 2 x) (map (cheb (S n)) x)) (map (cheb n) x) = map (cheb (S (S n))) x.
Proof.
  unfold vsub, vmul, vscale. rewrite zipWith_map, zipWith_map. reflexivity.
Qed.

Lemma recursive_loop (F : nat) (x : vec) (cs : list vec) :
  Forall (fun ck => length ck = F) cs ->
  forall (n : nat) (g : nat -> R -> R),
    fst (fst (fold_left (rec_step x) cs (tab F x g, map (cheb n) x, map (cheb (S n)) x)))
    = tab F x (fun f t => g f t + series_from (S (S n)) (col cs f) t).
Proof.
  intros Hc. induction Hc as [|ck cs Hck Hcs IH]; intros n g.
  - cbn [fold_left fst]. apply tab_ext_in. intros. unfold col; cbn [map series_from]. ring.
  - cbn [fold_left rec_step]. rewrite rec_step_cheb, (outer_tab F x ck _ Hck), madd_tab, IH.
    apply tab_ext_in. intros f t _. unfold col; cbn [map series_from]. ring.
Qed.

Lemma zipWith_map_r {A B C : Type} (f : A -> B -> C) (h : A -> B) (l : list A) :
  zipWith f l (map h l) = map (fun a => f a (h a)) l.
Proof. induction l as [|a l IH]; simpl; [reflexivity | now rewrite IH]. Qed.

Lemma rowmul_tab_id (F : nat) (x : vec) (g : nat -> R -> R) :
  rowmul x (tab F x g) = tab F x (fun f t => t * g f t).
Proof.
  unfold rowmul, tab. rewrite map_map. apply map_ext. intros f.
  unfold vmul. apply zipWith_map_r.
Qed.

Lemma recursive_from (F : nat) (x : vec) (cs : list vec) (res : mat) (x0 x1 : vec)
    (n : nat) (g : nat -> R -> R) :
  Forall (fun ck => length ck = F) cs ->
  res = tab F x g -> x0 = map (cheb n) x -> x1 = map (cheb (S n)) x ->
  fst (fst (fold_left (rec_step x) cs (res, x0, x1)))
  = tab F x (fun f t => g f t + series_from (S (S n)) (col cs f) t).
Proof. intros Hc -> -> ->. now apply recursive_loop. Qed.

Lemma bpair_series (t : R) (l : list R) :
  forall m, series_from (S m) l t
            = fst (bpair t l) * cheb (S m) t - snd (bpair t l) * cheb m t.
Proof.
  induction l as [|a l IH]; intros m.
  - simpl. ring.
  - cbn [series_from]. rewrite (IH (S m)).
    change (cheb (S (S m)) t) with (2 * t * cheb (S m) t - cheb m t).
    unfold bpair. cbn [fold_right]. fold (bpair t l). unfold sstep at 1 2. cbn [fst snd]. ring.
Qed.

Lemma clenshaw_loop (F : nat) (x : vec) (ks : list vec) :
  Forall (fun ck => length ck = F) ks ->
  forall (B1 B2 : nat -> R -> R),
    fold_left (clen_step x) ks (tab F x B1, tab F x B2)
    = (tab F x (fun f t => fst (fold_left (sstep t) (col ks f) (B1 f t, B2 f t))),
       tab F x (fun f t => snd (fold_left (sstep t) (col ks f) (B1 f t, B2 f t)))).
Proof.
  intros Hc. induction Hc as [|ck ks Hck Hks IH]; intros B1 B2.
  - reflexivity.
  - cbn [fold_left clen_step]. unfold vscale.
    rewrite rowmul_tab, (coladd_tab F x ck _ Hck), msub_tab, IH.
    reflexivity.
Qed.

Lemma fold_left_rev {A B : Type} (g : B -> A -> B) (l : list A) (i : B) :
  fold_left g (rev l) i = fold_right (fun a st => g st a) i l.
Proof.
  rewrite <- (rev_involutive l) at 2.
  now rewrite (fold_left_rev_right (fun a st => g st a) (rev l) i).
Qed.

Lemma clenshaw_scalar (t c0 : R) (l : list R) (a : R) :
  let st := fold_left (sstep t) (rev l) (a * 1, 0) in
  c0 + t * fst st - snd st = cheb_series (c0 :: l ++ [a]) t.
Proof.
  intros st. unfold cheb_series. cbn [series_from].
  rewrite (bpair_series t (l ++ [a]) 0).
  assert (E : st = bpair t (l ++ [a])).
  { unfold st, bpair. rewrite fold_left_rev, fold_right_app. f_equal.
    cbn [fold_right]. unfold sstep. cbn [fst snd]. apply f_equal2; [ring | reflexivity]. }
  rewrite E. simpl. ring.
Qed.

Lemma col_app (c1 c2 : list vec) (f : nat) : col (c1 ++ c2) f = col c1 f ++ col c2 f.
Proof. apply map_app. Qed.

Lemma col_rev (c : list vec) (f : nat) : col (rev c) f = rev (col c f).
Proof. apply map_rev. Qed.

Section Kernels.
Variables (F : nat) (x : vec) (c0 : vec) (cs : list vec).
Hypothesis Hc0 : length c0 = F.
Hypothesis Hcs : Forall (fun ck => length ck = F) cs.

Lemma evaluate_direct_series :
  Forall (fun t => -1 <= t <= 1) x ->
  _evaluate_direct F (c0 :: cs) x = eval_series F (c0 :: cs) x.
Proof.
  intros Hx. unfold _evaluate_direct. rewrite mzeros_tab.
  rewrite (direct_loop F x (c0 :: cs) Hx (Forall_cons _ Hc0 Hcs)).
  apply tab_ext_in. intros. unfold cheb_series. ring.
Qed.

Lemma evaluate_recursive_series :
  _evaluate_recursive (c0 :: cs) x = Ok (eval_series F (c0 :: cs) x).
Proof.
  unfold _evaluate_recursive, eval_series.
  rewrite ones_as_map, (outer_tab F x c0 _ Hc0).
  destruct cs as [|c1 cs'].
  - f_equal. apply tab_ext_in. intros. unfold cheb_series, col. simpl. ring.
  - pose proof (Forall_inv Hcs) as Hc1. pose proof (Forall_inv_tail Hcs) as Hcs'.
    cbv beta in Hc1. f_equal.
    rewrite (recursive_from F x cs' _ (map (fun _ => 1) x) x 0
               (fun f t => nth f c0 0 * 1 + nth f c1 0 * t) Hcs').
    + apply tab_ext_in. intros. unfold cheb_series, col. simpl. ring.
    + replace (outer c1 x) with (outer c1 (map (fun t => t) x)) by (now rewrite map_id).
      rewrite (outer_tab F x c1 _ Hc1). apply madd_tab.
    + reflexivity.
    + symmetry. apply map_id.
Qed.

End Kernels.

Lemma evaluate_clenshaw_unfold (x : vec) (c0 : vec) (cs : list vec) :
  cs <> [] ->
  _evaluate_clenshaw (c0 :: cs) x
  = Ok (let (b1', b2') :=
          fold_left (clen_step x) (rev (removelast cs))
            (outer (last cs []) (ones (length x)), mzeros (length c0) (length x)) in
        msub (coladd c0 (rowmul x b1')) b2').
Proof.
  intros Hne. destruct cs as [|c1 cs']; [now elim Hne|].
  unfold _evaluate_clenshaw.
  destruct (fold_left (clen_step x) (rev (removelast (c1 :: cs'))) _) as [b1' b2'].
  reflexivity.
Qed.

Lemma evaluate_clenshaw_series (F : nat) (x : vec) (c0 : vec) (cs : list vec) :
  length c0 = F ->
  Forall (fun ck => length ck = F) cs ->
  _evaluate_clenshaw (c0 :: cs) x = Ok (eval_series F (c0 :: cs) x).
Proof.
  intros Hc0 Hcs. destruct cs as [|c1 cs'].
  - unfold _evaluate_clenshaw, eval_series. cbn [removelast rev fold_left].
    rewrite Hc0, mzeros_tab, rowmul_tab_id, (coladd_tab F x c0 _ Hc0), msub_tab.
    f_equal. apply tab_ext_in. intros. unfold cheb_series, col. simpl. ring.
  - rewrite evaluate_clenshaw_unfold by discriminate.
    destruct (exists_last (l := c1 :: cs')) as [l' [a E]]; [discriminate|].
    rewrite E in *. rewrite removelast_last, last_last.
    apply Forall_app in Hcs. destruct Hcs as [Hl' Ha].
    pose proof (Forall_inv Ha) as Hla. cbv beta in Hla.
    rewrite Hc0, mzeros_tab, ones_as_map, (outer_tab F x a _ Hla).
    rewrite (clenshaw_loop F x (rev l') (Forall_rev Hl')).
    rewrite rowmul_tab_id, (coladd_tab F x c0 _ Hc0), msub_tab.
    f_equal. unfold eval_series. apply tab_ext_in. intros f t _.
    rewrite col_rev. change (col (c0 :: l' ++ [a]) f) with (nth f c0 0 :: col (l' ++ [a]) f).
    rewrite col_app. apply clenshaw_scalar.
Qed.

Lemma unflat_is_mat {A : Type} (r n : nat) (d : list A) :
  length d = (r * n)%nat ->
  length (unflat r n d) = r /\ Forall (fun row => length row = n) (unflat r n d).
Proof.
  revert d. induction r as [|r IH]; intros d Hd.
  - split; [reflexivity | constructor].
  - cbn [unflat]. destruct (IH (skipn n d)) as [Hl Hf].
    + rewrite length_skipn. lia.
    + split; [simpl; now rewrite Hl|].
      constructor; [|exact Hf]. rewrite length_firstn. lia.
Qed.

(** C3: on points whose rescaled values lie in [[-1, 1]], the three
    evaluation methods return the same array, the Chebyshev series of every
    filter at every point; the default method does too. *)
Theorem C3_evaluate_methods_agree
    (self : Chebyshev) (c : ndarray) (K Fout Fin : nat) (x : vec) :
  _coefficients self = Some c ->
  nd_shape c = [S K; Fout; Fin] ->
  length (nd_data c) = (S K * (Fout * Fin))%nat ->
  x <> [] ->
  Forall (fun t => -1 <= 2 * t / G_lmax (self_G self) - 1 <= 1) x ->
  exists y,
    _evaluate self x (Some "direct"%string) = Ok y
    /\ _evaluate self x (Some "recursive"%string) = Ok y
    /\ _evaluate self x (Some "clenshaw"%string) = Ok y
    /\ _evaluate self x None = Ok y
    /\ y = eval_series (Fout * Fin) (unflat (S K) (Fout * Fin) (nd_data c))
             (map (fun t => 2 * t / G_lmax (self_G self) - 1) x).
Proof.
  intros Hc Hs Hd Hx Hdom.
  destruct (unflat_is_mat (S K) (Fout * Fin) (nd_data c) Hd) as [_ Hrows].
  assert (Hdom' : Forall (fun t => -1 <= t <= 1)
                    (map (fun t => 2 * t / G_lmax (self_G self) - 1) x)).
  { apply Forall_map. exact Hdom. }
  exists (eval_series (Fout * Fin) (unflat (S K) (Fout * Fin) (nd_data c))
            (map (fun t => 2 * t / G_lmax (self_G self) - 1) x)).
  unfold _evaluate. destruct x as [|t x]; [now elim Hx|].
  rewrite Hc, Hs. cbn [unpack3 default_method].
  set (x' := map (fun t => 2 * t / G_lmax (self_G self) - 1) (t :: x)) in *.
  cbn [unflat] in *.
  pose proof (Forall_inv Hrows) as H0. pose proof (Forall_inv_tail Hrows) as Hcs.
  cbv beta in H0.
  change (lookup_evaluate "direct") with
    (Some (fun F c x => Ok (_evaluate_direct F c x))).
  change (lookup_evaluate "recursive") with
    (Some (fun (_ : nat) c x => _evaluate_recursive c x)).
  change (lookup_evaluate "clenshaw") with
    (Some (fun (_ : nat) c x => _evaluate_clenshaw c x)).
  cbv beta iota.
  rewrite (evaluate_direct_series _ x' _ _ H0 Hcs Hdom').
  rewrite (evaluate_recursive_series _ x' _ _ H0 Hcs).
  rewrite (evaluate_clenshaw_series _ x' _ _ H0 Hcs).
  repeat split; reflexivity.
Qed.

Lemma C3_evaluate_methods_agree_witness :
  exists y,
    _evaluate self_example [1] (Some "direct"%string) = Ok y
    /\ _evaluate self_example [1] (Some "recursive"%string) = Ok y
    /\ _evaluate self_example [1] (Some "clenshaw"%string) = Ok y
    /\ _evaluate self_example [1] None = Ok y
    /\ y = eval_series (1 * 1) (unflat 3 (1 * 1) [1; 2; 3])
             (map (fun t => 2 * t / G_lmax (self_G self_example) - 1) [1]).
Proof.
  apply (C3_evaluate_methods_agree self_example
           {| nd_shape := [3; 1; 1]%nat; nd_data := [1; 2; 3] |} 2 1 1 [1]).
  - reflexivity.
  - reflexivity.
  - reflexivity.
  - discriminate.
  - constructor; [|constructor]. simpl. lra.
Defined.

(** ** The store after each primitive *)

Lemma upd_same {A : Type} (f : nat -> option A) (i : nat) (v : A) : upd f i v i = Some v.
Proof. unfold upd. now rewrite Nat.eqb_refl. Qed.

Lemma upd_other {A : Type} (f : nat -> option A) (i j : nat) (v : A) :
  j <> i -> upd f i v j = f j.
Proof. intros H. unfold upd. destruct (Nat.eqb_spec j i); [contradiction | reflexivity]. Qed.

Lemma updf_same {A : Type} (f : nat -> A) (i : nat) (v : A) : updf f i v i = v.
Proof. unfold updf. now rewrite Nat.eqb_refl. Qed.

Lemma updf_other {A : Type} (f : nat -> A) (i j : nat) (v : A) :
  j <> i -> updf f i v j = f j.
Proof. intros H. unfold updf. destruct (Nat.eqb_spec j i); [contradiction | reflexivity]. Qed.

Ltac arr_solve :=
  unfold arr_in, arr_at in *;
  cbn [objs bufs buf_layout buf_dtype next_obj next_buf
       h_log h_alloc h_view h_reshape h_write] in *;
  repeat match goal with
         | H : _ /\ _ |- _ => destruct H
         end;
  repeat split;
  repeat first [ rewrite upd_same | rewrite upd_other by lia
               | rewrite updf_same | rewrite updf_other by lia ];
  try assumption; try reflexivity; try lia.

Lemma arr_in_at h a b sh d : arr_in h a b sh d -> arr_at h a b sh d.
Proof. intros H. arr_solve. Qed.

Lemma arr_at_log h o a b sh d : arr_at h a b sh d -> arr_at (h_log h o) a b sh d.
Proof. intros H. arr_solve. Qed.

Lemma arr_at_alloc_old h sh d a b sh' d' :
  arr_at h a b sh' d' -> arr_at (h_alloc h sh d) a b sh' d'.
Proof. intros H. arr_solve. Qed.

Lemma arr_at_view_old h b0 sh0 a b sh d :
  arr_at h a b sh d -> arr_at (h_view h b0 sh0) a b sh d.
Proof. intros H. arr_solve. Qed.

Lemma arr_at_reshape_other h a0 b0 sh0 a b sh d :
  arr_at h a b sh d -> a <> a0 -> arr_at (h_reshape h a0 b0 sh0) a b sh d.
Proof. intros H Hne. arr_solve. Qed.

Lemma arr_at_write_other h b0 d0 a b sh d :
  arr_at h a b sh d -> b <> b0 -> arr_at (h_write h b0 d0) a b sh d.
Proof. intros H Hne. arr_solve. Qed.

Lemma arr_in_log h o a b sh d : arr_in h a b sh d -> arr_in (h_log h o) a b sh d.
Proof. intros H. arr_solve. Qed.

Lemma arr_in_alloc_new h sh d : arr_in (h_alloc h sh d) (next_obj h) (next_buf h) sh d.
Proof. arr_solve. Qed.

Lemma arr_in_alloc_old h sh d a b sh' d' :
  arr_in h a b sh' d' -> arr_in (h_alloc h sh d) a b sh' d'.
Proof. intros H. arr_solve. Qed.

Lemma arr_in_view_new h a b sh d :
  arr_in h a b sh d -> arr_in (h_view h b sh) (next_obj h) b sh d.
Proof. intros H. arr_solve. Qed.

Lemma arr_in_view_old h b0 sh0 a b sh d :
  arr_in h a b sh d -> arr_in (h_view h b0 sh0) a b sh d.
Proof. intros H. arr_solve. Qed.

Lemma arr_in_reshape_same h a b sh sh' d :
  arr_in h a b sh d -> arr_in (h_reshape h a b sh') a b sh' d.
Proof. intros H. arr_solve. Qed.

Lemma arr_in_reshape_other h a0 b0 sh0 a b sh d :
  arr_in h a b sh d -> a <> a0 -> arr_in (h_reshape h a0 b0 sh0) a b sh d.
Proof. intros H Hne. arr_solve. Qed.

Lemma arr_in_write_same h a b sh d d' :
  arr_in h a b sh d -> arr_in (h_write h b d') a b sh d'.
Proof. intros H. arr_solve. Qed.

Lemma arr_in_write_other h b0 d0 a b sh d :
  arr_in h a b sh d -> b <> b0 -> arr_in (h_write h b0 d0) a b sh d.
Proof. intros H Hne. arr_solve. Qed.

Lemma arr_in_bounds h a b sh d :
  arr_in h a b sh d -> (a < next_obj h)%nat /\ (b < next_buf h)%nat.
Proof. intros (_ & _ & H1 & H2 & _). now split. Qed.

(** What [preserved] needs of each primitive. *)
Lemma preserved_refl h : preserved h h.
Proof. repeat split; auto. Qed.

Ltac pres_solve :=
  repeat split;
  cbn [objs bufs buf_layout buf_dtype next_obj next_buf
       h_log h_alloc h_view h_reshape h_write];
  intros;
  repeat first [ rewrite upd_other by lia | rewrite updf_other by lia ];
  auto;
  match goal with
  | H : forall b, (b < _)%nat -> buf_layout _ b = _ /\ _ |- _ => now apply H
  | _ => idtac
  end.

Lemma preserved_log h0 h o : preserved h0 h -> preserved h0 (h_log h o).
Proof. intros (H1 & H2 & H3 & H4 & H5). pres_solve. Qed.

Lemma preserved_alloc h0 h sh d : preserved h0 h -> preserved h0 (h_alloc h sh d).
Proof. intros (H1 & H2 & H3 & H4 & H5). pres_solve. Qed.

Lemma preserved_view h0 h b sh : preserved h0 h -> preserved h0 (h_view h b sh).
Proof. intros (H1 & H2 & H3 & H4 & H5). pres_solve. Qed.

Lemma preserved_reshape h0 h a b sh :
  preserved h0 h -> (next_obj h0 <= a)%nat -> preserved h0 (h_reshape h a b sh).
Proof. intros (H1 & H2 & H3 & H4 & H5) Ha. pres_solve. Qed.

Lemma preserved_write h0 h b d :
  preserved h0 h -> (next_buf h0 <= b)%nat -> preserved h0 (h_write h b d).
Proof. intros (H1 & H2 & H3 & H4 & H5) Hb. pres_solve. Qed.

(** The primitives, run on a store that holds their operands. *)
Lemma read_at h a b sh d : arr_at h a b sh d -> read a h = (Ok (sh, d), h).
Proof. intros (Ho & Hb & _). unfold read. rewrite Ho. cbn [a_buf a_shape]. now rewrite Hb. Qed.

Lemma read_run h a b sh d : arr_in h a b sh d -> read a h = (Ok (sh, d), h).
Proof. intros H. apply (read_at h a b). now apply arr_in_at. Qed.

Lemma log_run h o : log o h = (Ok tt, h_log h o).
Proof. reflexivity. Qed.

Lemma new_array_run h sh d : new_array sh d h = (Ok (next_obj h), h_alloc h sh d).
Proof. reflexivity. Qed.

Lemma view_at h a b sh d :
  arr_at h a b sh d -> view a h = (Ok (next_obj h), h_view h b sh).
Proof. intros (Ho & _). unfold view. now rewrite Ho. Qed.

Lemma view_run h a b sh d :
  arr_in h a b sh d -> view a h = (Ok (next_obj h), h_view h b sh).
Proof. intros H. apply (view_at h a b sh d). now apply arr_in_at. Qed.

Lemma set_shape_run h a b sh d sh' :
  arr_in h a b sh d -> size_of sh' = length d ->
  set_shape a sh' h = (Ok tt, h_reshape h a b sh').
Proof.
  intros (Ho & Hb & _ & _ & Hl) Hs. unfold set_shape. rewrite Ho. cbn [a_buf a_shape].
  rewrite Hb, Hl, Hs, Nat.eqb_refl. reflexivity.
Qed.

Lemma shape_eqb_refl sh : shape_eqb sh sh = true.
Proof. unfold shape_eqb. destruct (list_eq_dec Nat.eq_dec sh sh); [reflexivity | contradiction]. Qed.

Lemma iadd_run h a b sh da a' b' db :
  arr_in h a b sh da -> arr_in h a' b' sh db ->
  iadd a a' h = (Ok tt, h_write h b (vadd da db)).
Proof.
  intros Ha Hb. unfold iadd. rewrite (read_run _ _ _ _ _ Ha), (read_run _ _ _ _ _ Hb).
  destruct Ha as (Ho & _). rewrite Ho, shape_eqb_refl. reflexivity.
Qed.

Lemma binop_run f h a b sh da a' b' db :
  arr_in h a b sh da -> arr_in h a' b' sh db ->
  binop f a a' h = (Ok (next_obj h), h_alloc h sh (zipWith f da db)).
Proof.
  intros Ha Hb. unfold binop, bind.
  rewrite (read_run _ _ _ _ _ Ha), (read_run _ _ _ _ _ Hb).
  cbn [fst snd]. rewrite shape_eqb_refl. reflexivity.
Qed.

Lemma scalar_mul_run k h a b sh d :
  arr_in h a b sh d ->
  scalar_mul k a h = (Ok (next_obj h), h_alloc h sh (vscale k d)).
Proof.
  intros Ha. unfold scalar_mul, bind. rewrite (read_run _ _ _ _ _ Ha). reflexivity.
Qed.

Lemma sub_val_none_run h a b sh d :
  arr_in h a b sh d ->
  sub_val a None h = (Ok (next_obj h), h_alloc h sh (map (fun v => v - 0) d)).
Proof.
  intros Ha. unfold sub_val, bind. rewrite (read_run _ _ _ _ _ Ha). reflexivity.
Qed.

(** ** Buffers as tables of coordinate functions *)

Lemma vtab_length N f : length (vtab N f) = N.
Proof. unfold vtab. now rewrite length_map, length_seq. Qed.

Lemma vtab_ext N f g : (forall n, (n < N)%nat -> f n = g n) -> vtab N f = vtab N g.
Proof.
  intros H. unfold vtab. apply map_ext_in. intros n Hn. apply in_seq in Hn. apply H. lia.
Qed.

Lemma vec_as_vtab N (v : list R) : length v = N -> v = vtab N (fun n => nth n v 0).
Proof. intros <-. unfold vtab. symmetry. apply map_nth_seq. Qed.

Lemma T3_ext N s C g h :
  (forall sig o n, In sig s -> (o < C)%nat -> (n < N)%nat -> g sig o n = h sig o n) ->
  T3 N s C g = T3 N s C h.
Proof.
  intros H. unfold T3. apply map_ext_in. intros sig Hs. apply map_ext_in. intros o Ho.
  apply in_seq in Ho. apply vtab_ext. intros n Hn. apply H; auto. lia.
Qed.

Lemma concat_length_uniform {A : Type} (n : nat) (rows : list (list A)) :
  Forall (fun r => length r = n) rows -> length (concat rows) = (length rows * n)%nat.
Proof.
  induction 1 as [|r rows Hr _ IH]; simpl; [reflexivity|].
  rewrite length_app, IH, Hr. reflexivity.
Qed.

Lemma unflat_flat {A : Type} (n : nat) (rows : list (list A)) :
  Forall (fun r => length r = n) rows -> unflat (length rows) n (flat rows) = rows.
Proof.
  induction 1 as [|r rows Hr _ IH]; [reflexivity|].
  cbn [length unflat flat concat]. f_equal.
  - rewrite firstn_app. replace (n - length r)%nat with O by lia.
    replace (firstn n r) with r by (rewrite <- Hr; symmetry; apply firstn_all).
    cbn. apply app_nil_r.
  - rewrite skipn_app. replace (n - length r)%nat with O by lia.
    replace (skipn n r) with (@nil A) by (rewrite <- Hr; symmetry; apply skipn_all).
    cbn. exact IH.
Qed.

Lemma T3_rows N s C g : Forall (fun sig => length sig = C) (T3 N s C g).
Proof.
  unfold T3. apply Forall_map. apply Forall_forall. intros sig _.
  now rewrite length_map, length_seq.
Qed.

Lemma T3_length N s C g : length (T3 N s C g) = length s.
Proof. unfold T3. apply length_map. Qed.

Lemma T3_flat_rows N s C g : Forall (fun v => length v = N) (flat (T3 N s C g)).
Proof.
  unfold flat, T3. apply Forall_concat. apply Forall_map. apply Forall_forall. intros sig _.
  apply Forall_map. apply Forall_forall. intros o _. apply vtab_length.
Qed.

Lemma T3_flat_length N s C g : length (flat (T3 N s C g)) = (length s * C)%nat.
Proof.
  unfold flat. rewrite (concat_length_uniform C) by apply T3_rows. now rewrite T3_length.
Qed.

Lemma data_length N s C g : length (data (T3 N s C g)) = (length s * C * N)%nat.
Proof.
  unfold data, flat. rewrite (concat_length_uniform N) by apply T3_flat_rows.
  fold (flat (T3 N s C g)). now rewrite T3_flat_length.
Qed.

Lemma unflat_data N s C g :
  unflat (length s * C) N (data (T3 N s C g)) = flat (T3 N s C g).
Proof.
  unfold data. rewrite <- T3_flat_length with (N := N) (g := g).
  apply unflat_flat. apply T3_flat_rows.
Qed.

Lemma unflat_T3 N s C g :
  unflat (length s) C (flat (T3 N s C g)) = T3 N s C g.
Proof.
  rewrite <- T3_length with (N := N) (C := C) (g := g) at 1.
  apply unflat_flat. apply T3_rows.
Qed.

Lemma map_data N s C g (u : R -> R) :
  map u (data (T3 N s C g)) = data (T3 N s C (fun sig o n => u (g sig o n))).
Proof.
  unfold data, flat. rewrite !concat_map. do 2 f_equal.
  unfold T3. rewrite map_map. apply map_ext. intros sig.
  rewrite map_map. apply map_ext. intros o. unfold vtab. now rewrite map_map.
Qed.

Lemma zipWith_app {A B C : Type} (f : A -> B -> C) (a l : list A) (b l' : list B) :
  length a = length b ->
  zipWith f (a ++ l) (b ++ l') = zipWith f a b ++ zipWith f l l'.
Proof.
  revert b. induction a as [|x a IH]; intros [|y b] H; simpl in *; try discriminate; auto.
  f_equal. apply IH. lia.
Qed.

Lemma zipWith_concat_map {X A B C : Type} (f : A -> B -> C)
    (F : X -> list A) (G : X -> list B) (l : list X) :
  (forall x, length (F x) = length (G x)) ->
  zipWith f (concat (map F l)) (concat (map G l))
  = concat (map (fun x => zipWith f (F x) (G x)) l).
Proof.
  intros H. induction l as [|x l IH]; [reflexivity|].
  cbn [map concat]. rewrite zipWith_app by apply H. now rewrite IH.
Qed.

Lemma concat_concat_map {A : Type} (l : list (list (list A))) :
  concat (concat l) = concat (map (@concat A) l).
Proof.
  induction l as [|x l IH]; [reflexivity|].
  cbn [concat map]. now rewrite concat_app, IH.
Qed.

Lemma data_unfold N s C g :
  data (T3 N s C g)
  = concat (map (fun sig => concat (map (fun o => vtab N (g sig o)) (seq 0 C))) s).
Proof.
  unfold data, flat, T3. now rewrite concat_concat_map, map_map.
Qed.

Lemma zipWith_data N s C g h (f : R -> R -> R) :
  zipWith f (data (T3 N s C g)) (data (T3 N s C h))
  = data (T3 N s C (fun sig o n => f (g sig o n) (h sig o n))).
Proof.
  rewrite !data_unfold. rewrite zipWith_concat_map.
  - f_equal. apply map_ext. intros sig. rewrite zipWith_concat_map.
    + f_equal. apply map_ext. intros o. unfold vtab. apply zipWith_map.
    + intros o. now rewrite !vtab_length.
  - intros sig. rewrite !(concat_length_uniform N).
    + now rewrite !length_map.
    + apply Forall_map, Forall_forall. intros o _. apply vtab_length.
    + apply Forall_map, Forall_forall. intros o _. apply vtab_length.
Qed.

Lemma zeros_vtab N : zeros N = vtab N (fun _ => 0).
Proof. unfold zeros, vtab. apply repeat_as_seq. Qed.

Lemma lincomb_vtab {X : Type} N (alpha : X -> R) (G : X -> nat -> R) (l : list X) :
  lincomb N (map alpha l) (map (fun i => vtab N (G i)) l)
  = vtab N (fun n => rsum (map (fun i => alpha i * G i n) l)).
Proof.
  unfold lincomb. rewrite zipWith_map.
  induction l as [|i l IH]; cbn [map fold_right rsum].
  - apply zeros_vtab.
  - rewrite IH. unfold vscale, vadd, vtab. rewrite map_map. apply zipWith_map.
Qed.

Lemma nth_row_length (r n : nat) (A : mat) (i : nat) :
  is_mat r n A -> (i < r)%nat -> length (nth i A []) = n.
Proof.
  intros [Hl Hf] Hi. rewrite Forall_forall in Hf. apply Hf. apply nth_In. lia.
Qed.

Lemma mat_as_rows (r n : nat) (A : mat) :
  is_mat r n A -> A = map (fun i => vtab n (entry A i)) (seq 0 r).
Proof.
  intros H. pose proof H as [Hl _].
  rewrite <- (map_nth_seq [] A) at 1. rewrite Hl.
  apply map_ext_in. intros i Hi. apply in_seq in Hi.
  apply vec_as_vtab. apply (nth_row_length r n); [exact H | lia].
Qed.

Lemma ncols_square (N : nat) (L : mat) : is_mat N N L -> ncols L = N.
Proof.
  intros [Hl Hf]. destruct L as [|r L]; [exact Hl|].
  simpl. now inversion Hf.
Qed.

Lemma vecmat_vtab (L : mat) (N : nat) (f : nat -> R) :
  is_mat N N L -> lincomb (ncols L) (vtab N f) L = vtab N (Aop L N f).
Proof.
  intros H. rewrite (ncols_square N L H).
  transitivity (lincomb N (map f (seq 0 N)) (map (fun j => vtab N (entry L j)) (seq 0 N))).
  - unfold vtab at 1. f_equal. apply (mat_as_rows N N L H).
  - apply lincomb_vtab.
Qed.

Lemma matmul_T3 (L : mat) N s C g :
  is_mat N N L ->
  matmul (flat (T3 N s C g)) L = flat (T3 N s C (fun sig o => Aop L N (g sig o))).
Proof.
  intros H. unfold matmul, flat, T3. rewrite concat_map, !map_map. f_equal.
  apply map_ext. intros sig. rewrite map_map. apply map_ext. intros o.
  now apply vecmat_vtab.
Qed.

Lemma einsum_T3 (ck : mat) (Fout Fin : nat) N s g :
  is_mat Fout Fin ck ->
  einsum_oi_min_mon N ck (T3 N s Fin g)
  = T3 N s Fout (fun sig o => mix ck Fin (g sig) o).
Proof.
  intros H. pose proof H as [Hl _]. unfold einsum_oi_min_mon, T3. rewrite map_map.
  apply map_ext. intros sig.
  rewrite (map_as_table [] _ ck), Hl. apply map_ext_in. intros o Ho. apply in_seq in Ho.
  transitivity (lincomb N (map (entry ck o) (seq 0 Fin))
                  (map (fun i => vtab N (g sig i)) (seq 0 Fin))).
  - f_equal. apply (vec_as_vtab Fin). apply (nth_row_length Fout Fin); [exact H | lia].
  - apply lincomb_vtab.
Qed.

Lemma tensor_as_T3 (Mb Fin N : nat) (s : list mat) :
  is_tensor3 Mb Fin N s -> s = T3 N s Fin (fun sig i => entry sig i).
Proof.
  intros [_ Hf]. unfold T3. rewrite <- (map_id s) at 1.
  apply map_ext_in. intros sig Hs. rewrite Forall_forall in Hf.
  apply (mat_as_rows Fin N sig). now apply Hf.
Qed.

(** ** The helpers [mult] and [dot], run on buffers given as tables *)

Lemma is_mat_forallb (Fout Fin : nat) (ck : mat) :
  is_mat Fout Fin ck -> forallb (fun crow => Nat.eqb (length crow) Fin) ck = true.
Proof.
  intros [_ Hf]. apply forallb_forall. intros r Hr. rewrite Forall_forall in Hf.
  apply Nat.eqb_eq. now apply Hf.
Qed.

Lemma einsum_run h x b N s Fin g (ck : mat) (Fout : nat) :
  arr_in h x b [length s; Fin; N] (data (T3 N s Fin g)) ->
  is_mat Fout Fin ck ->
  einsum ck x h
  = (Ok (next_obj h),
     h_alloc h [length s; Fout; N] (data (T3 N s Fout (fun sig o => mix ck Fin (g sig) o)))).
Proof.
  intros Hx Hck. unfold einsum, bind. rewrite (read_run _ _ _ _ _ Hx). cbn [fst snd].
  rewrite (is_mat_forallb Fout Fin ck Hck), new_array_run.
  rewrite unflat_data, unflat_T3, (einsum_T3 ck Fout Fin N s g Hck).
  destruct Hck as [-> _]. reflexivity.
Qed.

Lemma size_of_3 (a b c : nat) : size_of [a; b; c] = (a * b * c)%nat.
Proof. unfold size_of. cbn [fold_right]. lia. Qed.

Lemma size_of_2 (a b : nat) : size_of [a; b] = (a * b)%nat.
Proof. unfold size_of. cbn [fold_right]. lia. Qed.

Lemma rec_mult_run h x b sh N s Fin g (ck : mat) (Fout : nat) :
  arr_in h x b sh (data (T3 N s Fin g)) ->
  is_mat Fout Fin ck ->
  rec_mult (length s) Fin N ck x h
  = (Ok (next_obj h),
     h_alloc (h_reshape (h_log h OpMult) x b [length s; Fin; N])
       [length s; Fout; N] (data (T3 N s Fout (fun sig o => mix ck Fin (g sig) o)))).
Proof.
  intros Hx Hck. unfold rec_mult, bind. rewrite log_run.
  rewrite (set_shape_run _ x b sh (data (T3 N s Fin g))).
  - rewrite (einsum_run _ x b N s Fin g ck Fout); [reflexivity | | exact Hck].
    apply arr_in_reshape_same with (sh := sh). now apply arr_in_log.
  - now apply arr_in_log.
  - now rewrite size_of_3, data_length.
Qed.

Lemma rmul_run h x b N s C g (L : mat) :
  arr_in h x b [(length s * C)%nat; N] (data (T3 N s C g)) ->
  is_mat N N L ->
  rmul (SparseMatrix L) x h
  = (Ok (next_obj h),
     h_alloc h [(length s * C)%nat; N] (data (T3 N s C (fun sig o => Aop L N (g sig o))))).
Proof.
  intros Hx HL. unfold rmul, bind. rewrite (read_run _ _ _ _ _ Hx). cbn [fst snd].
  pose proof HL as [Hl _]. rewrite Hl, Nat.eqb_refl, new_array_run.
  rewrite unflat_data, (matmul_T3 L N s C g HL), (ncols_square N L HL). reflexivity.
Qed.

Lemma rec_dot_run h x b sh N s Fin g (L : mat) :
  arr_in h x b sh (data (T3 N s Fin g)) ->
  is_mat N N L ->
  rec_dot (length s) Fin N (SparseMatrix L) x h
  = (Ok (next_obj h),
     h_alloc (h_reshape (h_log h OpDot) x b [(length s * Fin)%nat; N])
       [(length s * Fin)%nat; N] (data (T3 N s Fin (fun sig i => Aop L N (g sig i))))).
Proof.
  intros Hx HL. unfold rec_dot, bind. rewrite log_run.
  rewrite (set_shape_run _ x b sh (data (T3 N s Fin g))).
  - rewrite (rmul_run _ x b N s Fin g L); [reflexivity | | exact HL].
    apply arr_in_reshape_same with (sh := sh). now apply arr_in_log.
  - now apply arr_in_log.
  - now rewrite size_of_2, data_length.
Qed.

Lemma clen_mult_run h x b N s Fin g (ck : mat) (Fout : nat) :
  arr_in h x b [length s; Fin; N] (data (T3 N s Fin g)) ->
  is_mat Fout Fin ck ->
  clen_mult ck x h
  = (Ok (next_obj h),
     h_alloc (h_log h OpMult) [length s; Fout; N]
       (data (T3 N s Fout (fun sig o => mix ck Fin (g sig) o)))).
Proof.
  intros Hx Hck. unfold clen_mult, bind. rewrite log_run.
  rewrite (einsum_run _ x b N s Fin g ck Fout); [reflexivity | | exact Hck].
  now apply arr_in_log.
Qed.

Lemma clen_dot_run h x b sh N s Fout g (L : mat) :
  arr_in h x b sh (data (T3 N s Fout g)) ->
  is_mat N N L ->
  clen_dot (length s) Fout N (SparseMatrix L) x h
  = (Ok (next_obj h),
     h_reshape
       (h_reshape
          (h_alloc (h_reshape (h_log h OpDot) x b [(length s * Fout)%nat; N])
             [(length s * Fout)%nat; N]
             (data (T3 N s Fout (fun sig o => Aop L N (g sig o)))))
          x b [length s; Fout; N])
       (next_obj h) (next_buf h) [length s; Fout; N]).
Proof.
  intros Hx HL. unfold clen_dot, bind. rewrite log_run.
  pose proof (arr_in_bounds _ _ _ _ _ Hx) as [Hxa Hxb].
  assert (H1 : arr_in (h_reshape (h_log h OpDot) x b [(length s * Fout)%nat; N])
                 x b [(length s * Fout)%nat; N] (data (T3 N s Fout g))).
  { apply arr_in_reshape_same with (sh := sh). now apply arr_in_log. }
  rewrite (set_shape_run _ x b sh (data (T3 N s Fout g)));
    [| now apply arr_in_log | now rewrite size_of_2, data_length].
  rewrite (rmul_run _ x b N s Fout g L H1 HL).
  cbn [next_obj h_reshape h_log].
  set (h2 := h_alloc _ _ _).
  assert (H2 : arr_in h2 x b [(length s * Fout)%nat; N] (data (T3 N s Fout g))).
  { unfold h2. now apply arr_in_alloc_old. }
  rewrite (set_shape_run h2 x b _ _ [length s; Fout; N] H2);
    [| now rewrite size_of_3, data_length].
  set (h3 := h_reshape h2 x b _).
  assert (H3 : arr_in h3 (next_obj h) (next_buf h) [(length s * Fout)%nat; N]
                 (data (T3 N s Fout (fun sig o => Aop L N (g sig o))))).
  { unfold h3, h2. clear H1 H2. arr_solve. }
  rewrite (set_shape_run h3 _ _ _ _ [length s; Fout; N] H3);
    [| now rewrite size_of_3, data_length].
  reflexivity.
Qed.

(** ** Coordinates of the diffused signals *)

Lemma rsum_app (l1 l2 : list R) : rsum (l1 ++ l2) = rsum l1 + rsum l2.
Proof.
  induction l1 as [|a l1 IH]; simpl; [ring | rewrite IH; ring].
Qed.

Lemma rsum_seq_S (t : nat -> R) (k : nat) :
  rsum (map t (seq 0 (S k))) = rsum (map t (seq 0 k)) + t k.
Proof.
  rewrite seq_S, map_app, rsum_app. simpl. ring.
Qed.

Lemma coef_at_data (K Fout Fin : nat) (c3 : list mat) (k : nat) :
  is_tensor3 K Fout Fin c3 -> (k < K)%nat ->
  coef_at K Fout Fin (data c3) k = Ok (nth k c3 []).
Proof.
  intros [Hl Hf] Hk. unfold coef_at, data, flat.
  rewrite concat_concat_map.
  assert (Hrows : Forall (fun r => length r = (Fout * Fin)%nat) (map (@concat R) c3)).
  { apply Forall_map. eapply Forall_impl; [|exact Hf]. intros ck [Hck Hr].
    rewrite (concat_length_uniform Fin _ Hr). now rewrite Hck. }
  pose proof (unflat_flat (Fout * Fin) (map (@concat R) c3) Hrows) as E.
  rewrite length_map, Hl in E. unfold flat in E. rewrite E.
  rewrite nth_error_map.
  rewrite (nth_error_nth' c3 []) by lia. cbn [option_map].
  f_equal. rewrite Forall_forall in Hf.
  destruct (Hf (nth k c3 [])) as [Hck Hr]; [apply nth_In; lia|].
  rewrite <- Hck. apply (unflat_flat Fin). exact Hr.
Qed.

Lemma is_tensor3_nth (K Fout Fin : nat) (c3 : list mat) (k : nat) :
  is_tensor3 K Fout Fin c3 -> (k < K)%nat -> is_mat Fout Fin (nth k c3 []).
Proof.
  intros [Hl Hf] Hk. rewrite Forall_forall in Hf. apply Hf. apply nth_In. lia.
Qed.

Section RecursiveRun.
Variables (K Fout Fin N : nat) (c3 : list mat) (L : mat) (s : list mat) (h0 : heap).
Hypothesis Hc3 : is_tensor3 K Fout Fin c3.
Hypothesis HL : is_mat N N L.

Lemma rec_loop_run :
  forall len j h res bres x0 b0 x1 b1 sh1,
    (S (S j) + len = K)%nat ->
    arr_in h res bres [length s; Fout; N] (data (T3 N s Fout (racc c3 L N Fin (S (S j))))) ->
    arr_in h x0 b0 [(length s * Fin)%nat; N]
      (data (T3 N s Fin (fun sig i => Tf L N j (entry sig i)))) ->
    arr_in h x1 b1 sh1 (data (T3 N s Fin (fun sig i => Tf L N (S j) (entry sig i)))) ->
    bres <> b0 -> bres <> b1 -> res <> x0 -> res <> x1 -> x0 <> x1 ->
    (next_obj h0 <= res)%nat -> (next_obj h0 <= x1)%nat -> (next_buf h0 <= bres)%nat ->
    preserved h0 h ->
    exists h',
      rec_loop (coef_at K Fout Fin (data c3)) (length s) Fin N (SparseMatrix L)
        (seq (S (S j)) len) res x0 x1 h = (Ok tt, h')
      /\ arr_in h' res bres [length s; Fout; N] (data (T3 N s Fout (racc c3 L N Fin K)))
      /\ preserved h0 h'
      /\ trace h' = trace h ++ concat (repeat [OpDot; OpMult] len).
Proof.
  induction len as [|len IH];
    intros j h res bres x0 b0 x1 b1 sh1 HK Hres Hx0 Hx1 Nb0 Nb1 Nr0 Nr1 N01 Gr G1 Gb Hp.
  - exists h. replace K with (S (S j)) by lia. cbn [seq rec_loop repeat concat].
    rewrite app_nil_r. auto.
  - cbn [seq rec_loop]. unfold bind.
    rewrite (rec_dot_run h x1 b1 sh1 N s Fin _ L Hx1 HL). cbv beta iota.
    set (h1 := h_alloc _ _ _).
    assert (Hd : arr_in h1 (next_obj h) (next_buf h) [(length s * Fin)%nat; N]
                   (data (T3 N s Fin (fun sig i => Aop L N (Tf L N (S j) (entry sig i)))))).
    { unfold h1. clear IH. arr_solve. }
    rewrite (scalar_mul_run 2 h1 _ _ _ _ Hd). cbv beta iota.
    unfold vscale. rewrite map_data.
    set (h2 := h_alloc h1 _ _).
    assert (Hd2 : arr_in h2 (next_obj h1) (next_buf h1) [(length s * Fin)%nat; N]
                    (data (T3 N s Fin
                             (fun sig i n => 2 * Aop L N (Tf L N (S j) (entry sig i)) n)))).
    { unfold h2. apply arr_in_alloc_new. }
    assert (Hx0' : arr_in h2 x0 b0 [(length s * Fin)%nat; N]
                     (data (T3 N s Fin (fun sig i => Tf L N j (entry sig i))))).
    { unfold h2, h1. clear IH Hd Hd2. arr_solve. }
    rewrite (binop_run Rminus h2 _ _ _ _ _ _ _ Hd2 Hx0'). cbv beta iota.
    rewrite zipWith_data.
    set (h3 := h_alloc h2 _ _).
    assert (Hk : (S (S j) < K)%nat) by lia.
    unfold lift at 1. rewrite (coef_at_data K Fout Fin c3 (S (S j)) Hc3 Hk).
    assert (Hx2 : arr_in h3 (next_obj h2) (next_buf h2) [(length s * Fin)%nat; N]
                    (data (T3 N s Fin (fun sig i => Tf L N (S (S j)) (entry sig i))))).
    { unfold h3. apply arr_in_alloc_new. }
    rewrite (rec_mult_run h3 _ _ _ N s Fin _ _ Fout Hx2
               (is_tensor3_nth K Fout Fin c3 (S (S j)) Hc3 Hk)).
    cbv beta iota.
    set (h4 := h_alloc _ _ _).
    assert (Hm : arr_in h4 (next_obj h3) (next_buf h3) [length s; Fout; N]
                   (data (T3 N s Fout (rterm c3 L N Fin (S (S j)))))).
    { unfold h4. clear IH. arr_solve. }
    assert (Hres' : arr_in h4 res bres [length s; Fout; N]
                      (data (T3 N s Fout (racc c3 L N Fin (S (S j)))))).
    { unfold h4, h3, h2, h1. clear IH Hd Hd2 Hx0' Hx2 Hm. arr_solve. }
    rewrite (iadd_run h4 _ _ _ _ _ _ _ Hres' Hm). cbv beta iota.
    unfold vadd. rewrite zipWith_data.
    set (h5 := h_write h4 _ _).
    destruct (IH (S j) h5 res bres x1 b1 (next_obj h2) (next_buf h2) [length s; Fin; N])
      as (h' & Hrun & Hfin & Hp' & Htr).
    + lia.
    + unfold h5. replace (data (T3 N s Fout (racc c3 L N Fin (S (S (S j))))))
        with (data (T3 N s Fout
                      (fun sig o n => racc c3 L N Fin (S (S j)) sig o n
                                      + rterm c3 L N Fin (S (S j)) sig o n))).
      * eapply arr_in_write_same. exact Hres'.
      * f_equal. apply T3_ext. intros. unfold racc. symmetry.
        apply (rsum_seq_S (fun j0 => rterm c3 L N Fin j0 sig o n)).

    + unfold h5, h4, h3, h2, h1. clear IH Hd Hd2 Hx0' Hx2 Hm Hres'. arr_solve.
    + unfold h5, h4, h3, h2, h1. clear IH Hd Hd2 Hx0' Hx2 Hm Hres'. arr_solve.
    + pose proof (arr_in_bounds _ _ _ _ _ Hx1). lia.
    + pose proof (arr_in_bounds _ _ _ _ _ Hx1).
      pose proof (arr_in_bounds _ _ _ _ _ Hres).
      unfold h2, h1. cbn [next_buf h_alloc h_reshape h_log]. lia.
    + exact Nr1.
    + pose proof (arr_in_bounds _ _ _ _ _ Hres).
      unfold h2, h1. cbn [next_obj h_alloc h_reshape h_log]. lia.
    + pose proof (arr_in_bounds _ _ _ _ _ Hx1).
      unfold h2, h1. cbn [next_obj h_alloc h_reshape h_log]. lia.
    + exact Gr.
    + destruct Hp as (_ & _ & Hp3 & _).
      unfold h2, h1. cbn [next_obj h_alloc h_reshape h_log]. lia.
    + exact Gb.
    + unfold h5, h4, h3, h2, h1.
      apply preserved_write; [|exact Gb].
      apply preserved_alloc. apply preserved_reshape.
      * apply preserved_log. do 3 apply preserved_alloc.
        apply preserved_reshape; [|exact G1]. now apply preserved_log.
      * destruct Hp as (_ & _ & Hp3 & _). cbn [next_obj h_alloc h_reshape h_log]. lia.
    + exists h'. split; [exact Hrun|]. split; [exact Hfin|]. split; [exact Hp'|].
      rewrite Htr. unfold h5, h4, h3, h2, h1.
      cbn [trace h_write h_alloc h_reshape h_log repeat concat].
      rewrite <- !app_assoc. reflexivity.
Qed.

Lemma racc_1 sig o n : racc c3 L N Fin 1 sig o n = mix (nth 0 c3 []) Fin (entry sig) o n.
Proof.
  unfold racc, rterm, mix. cbn [seq map Tf]. unfold rsum at 1. cbn [fold_right]. ring.
Qed.

Lemma filter_recursive_run_fresh (self : Chebyshev) (c : ndarray) (sobj bs : nat) :
  _coefficients self = Some c ->
  nd_shape c = [K; Fout; Fin] ->
  nd_data c = data c3 ->
  (1 <= K)%nat ->
  is_tensor3 (length s) Fin N s ->
  arr_in h0 sobj bs [length s; Fin; N] (data s) ->
  exists r br h',
    _filter_recursive self (SparseMatrix L) sobj h0 = (Ok r, h')
    /\ arr_in h' r br [length s; Fout; N] (data (T3 N s Fout (racc c3 L N Fin K)))
    /\ preserved h0 h'
    /\ trace h' = trace h0 ++ OpMult :: concat (repeat [OpDot; OpMult] (K - 1))
    /\ (next_obj h0 <= r)%nat /\ (next_buf h0 <= br)%nat.
Proof.
  intros Hc Hsh Hdat HK Hs Hsobj.
  rewrite (tensor_as_T3 (length s) Fin N s Hs) in Hsobj. rewrite T3_length in Hsobj.
  unfold _filter_recursive, get_coefficients. rewrite Hc. unfold bind, ret, lift.
  rewrite Hsh, Hdat. cbn [unpack3].
  rewrite (read_run _ _ _ _ _ Hsobj). cbn [fst unpack3].
  rewrite (view_run _ _ _ _ _ Hsobj).
  set (h1 := h_view h0 _ _).
  assert (H0K : (0 < K)%nat) by lia.
  rewrite (coef_at_data K Fout Fin c3 0 Hc3 H0K).
  assert (Hx0 : arr_in h1 (next_obj h0) bs [length s; Fin; N]
                  (data (T3 N s Fin (fun sig i => entry sig i)))).
  { unfold h1. apply (arr_in_view_new h0 sobj). exact Hsobj. }
  rewrite (rec_mult_run h1 _ _ _ N s Fin _ _ Fout Hx0 (is_tensor3_nth K Fout Fin c3 0 Hc3 H0K)).
  set (h2 := h_alloc _ _ _).
  assert (Hres : arr_in h2 (next_obj h1) (next_buf h1) [length s; Fout; N]
                   (data (T3 N s Fout (racc c3 L N Fin 1)))).
  { replace (data (T3 N s Fout (racc c3 L N Fin 1)))
      with (data (T3 N s Fout (fun sig o => mix (nth 0 c3 []) Fin (entry sig) o))).
    - unfold h2. clear Hx0. arr_solve.
    - f_equal. apply T3_ext. intros. now rewrite racc_1. }
  assert (Hp2 : preserved h0 h2).
  { unfold h2, h1. apply preserved_alloc. apply preserved_reshape.
    - apply preserved_log, preserved_view, preserved_refl.
    - cbn [next_obj h_log h_view]. lia. }
  destruct (Nat.ltb_spec 1 K) as [H1K|H1K].
  - (* K > 1 *)
    assert (Hx0' : arr_in h2 (next_obj h0) bs [length s; Fin; N]
                     (data (T3 N s Fin (fun sig i => Tf L N 0 (entry sig i))))).
    { unfold h2, h1. clear Hx0 Hres Hp2. arr_solve. }
    rewrite (rec_dot_run h2 _ _ _ N s Fin _ L Hx0' HL).
    set (h3 := h_alloc _ _ _).
    rewrite (coef_at_data K Fout Fin c3 1 Hc3 H1K).
    assert (Hx1 : arr_in h3 (next_obj h2) (next_buf h2) [(length s * Fin)%nat; N]
                    (data (T3 N s Fin (fun sig i => Tf L N 1 (entry sig i))))).
    { unfold h3. clear Hx0 Hres Hp2 Hx0'. arr_solve. }
    rewrite (rec_mult_run h3 _ _ _ N s Fin _ _ Fout Hx1
               (is_tensor3_nth K Fout Fin c3 1 Hc3 H1K)).
    set (h4 := h_alloc _ _ _).
    assert (Hm : arr_in h4 (next_obj h3) (next_buf h3) [length s; Fout; N]
                   (data (T3 N s Fout (rterm c3 L N Fin 1)))).
    { unfold h4. clear Hx0 Hres Hp2 Hx0' Hx1. arr_solve. }
    assert (Hres' : arr_in h4 (next_obj h1) (next_buf h1) [length s; Fout; N]
                      (data (T3 N s Fout (racc c3 L N Fin 1)))).
    { unfold h4, h3. apply arr_in_alloc_old. apply arr_in_reshape_other.
      - apply arr_in_log, arr_in_alloc_old. apply arr_in_reshape_other.
        + apply arr_in_log. exact Hres.
        + unfold h1. cbn [next_obj h_view]. lia.
      - unfold h2, h1. cbn [next_obj h_alloc h_reshape h_log h_view]. lia. }
    rewrite (iadd_run h4 _ _ _ _ _ _ _ Hres' Hm).
    unfold vadd. rewrite zipWith_data.
    set (h5 := h_write h4 _ _).
    destruct (rec_loop_run (K - 2) 0 h5 (next_obj h1) (next_buf h1)
                (next_obj h0) bs (next_obj h2) (next_buf h2) [length s; Fin; N])
      as (h' & Hrun & Hfin & Hp' & Htr).
    + lia.
    + unfold h5.
      replace (data (T3 N s Fout (racc c3 L N Fin 2)))
        with (data (T3 N s Fout
                      (fun sig o n => racc c3 L N Fin 1 sig o n + rterm c3 L N Fin 1 sig o n))).
      * eapply arr_in_write_same. exact Hres'.
      * f_equal. apply T3_ext. intros. unfold racc. symmetry.
        apply (rsum_seq_S (fun j0 => rterm c3 L N Fin j0 sig o n)).
    + pose proof (arr_in_bounds _ _ _ _ _ Hsobj).
      unfold h5, h4, h3. apply arr_in_write_other.
      * apply arr_in_alloc_old. apply arr_in_reshape_other.
        -- apply arr_in_log, arr_in_alloc_old. apply arr_in_reshape_same with (sh := [length s; Fin; N]).
           apply arr_in_log. exact Hx0'.
        -- unfold h2, h1. cbn [next_obj h_alloc h_reshape h_log h_view]. lia.
      * unfold h1. cbn [next_buf h_view]. lia.
    + unfold h5, h4. clear Hx0 Hres Hp2 Hx0' Hm Hres'. apply arr_in_write_other.
      * apply arr_in_alloc_old. eapply arr_in_reshape_same. apply arr_in_log. exact Hx1.
      * unfold h2, h1. cbn [next_buf h_alloc h_reshape h_log h_view]. lia.
    + pose proof (arr_in_bounds _ _ _ _ _ Hsobj). unfold h1. cbn [next_buf h_view]. lia.
    + unfold h2, h1. cbn [next_buf h_alloc h_reshape h_log h_view]. lia.
    + unfold h1. cbn [next_obj h_view]. lia.
    + unfold h2, h1. cbn [next_obj h_alloc h_reshape h_log h_view]. lia.
    + unfold h2, h1. cbn [next_obj h_alloc h_reshape h_log h_view]. lia.
    + unfold h1. cbn [next_obj h_view]. lia.
    + unfold h2, h1. cbn [next_obj h_alloc h_reshape h_log h_view]. lia.
    + unfold h1. cbn [next_buf h_view]. lia.
    + unfold h5, h4, h3. apply preserved_write.
      * apply preserved_alloc. apply preserved_reshape.
        -- apply preserved_log, preserved_alloc. apply preserved_reshape.
           ++ apply preserved_log. exact Hp2.
           ++ lia.
        -- unfold h2, h1. cbn [next_obj h_alloc h_reshape h_log h_view]. lia.
      * unfold h1. cbn [next_buf h_view]. lia.
    + exists (next_obj h1), (next_buf h1), h'.
      rewrite Hrun. split; [reflexivity|]. split; [exact Hfin|]. split; [exact Hp'|].
      split; [| unfold h1; cbn [next_obj next_buf h_view]; split; lia].
      rewrite Htr. unfold h5, h4, h3, h2, h1.
      cbn [trace h_write h_alloc h_reshape h_log h_view].
      replace (K - 1)%nat with (S (K - 2)) by lia. cbn [repeat concat].
      rewrite <- !app_assoc. reflexivity.
  - (* K = 1 *)
    assert (K = 1%nat) by lia. subst K.
    exists (next_obj h1), (next_buf h1), h2.
    split; [reflexivity|]. split; [exact Hres|]. split; [exact Hp2|].
    split; [| unfold h1; cbn [next_obj next_buf h_view]; split; lia].
    unfold h2, h1. cbn [trace h_alloc h_reshape h_log h_view repeat concat Nat.sub].
    reflexivity.
Qed.

Lemma filter_recursive_run (self : Chebyshev) (c : ndarray) (sobj bs : nat) :
  _coefficients self = Some c ->
  nd_shape c = [K; Fout; Fin] ->
  nd_data c = data c3 ->
  (1 <= K)%nat ->
  is_tensor3 (length s) Fin N s ->
  arr_in h0 sobj bs [length s; Fin; N] (data s) ->
  exists r br h',
    _filter_recursive self (SparseMatrix L) sobj h0 = (Ok r, h')
    /\ arr_in h' r br [length s; Fout; N] (data (T3 N s Fout (racc c3 L N Fin K)))
    /\ preserved h0 h'
    /\ trace h' = trace h0 ++ OpMult :: concat (repeat [OpDot; OpMult] (K - 1)).
Proof.
  intros Hc Hsh Hdat HK Hs Hsobj.
  destruct (filter_recursive_run_fresh self c sobj bs Hc Hsh Hdat HK Hs Hsobj)
    as (r & br & h' & H1 & H2 & H3 & H4 & _).
  exists r, br, h'. auto.
Qed.
End RecursiveRun.

(** ** [_filter_clenshaw] on the store *)

Lemma arr_in_inj h a b sh d b' sh' d' :
  arr_in h a b sh d -> arr_in h a b' sh' d' -> b' = b /\ sh' = sh /\ d' = d.
Proof.
  intros (Ho & Hb & _) (Ho' & Hb' & _). rewrite Ho in Ho'. inversion Ho'; subst.
  rewrite Hb in Hb'. inversion Hb'. auto.
Qed.

Lemma clen_dot_keeps h x b Mb Fout N dx d a b' sh' d' :
  arr_in h x b [Mb; Fout; N] dx ->
  arr_in h a b' sh' d' ->
  arr_in (h_clen_dot h x b Mb Fout N d) a b' sh' d'.
Proof.
  intros Hx Ha. unfold h_clen_dot. destruct (Nat.eq_dec a x) as [->|Hne].
  - destruct (arr_in_inj _ _ _ _ _ _ _ _ Hx Ha) as (-> & -> & ->). clear Ha. arr_solve.
  - clear Hx. arr_solve.
Qed.

Lemma clen_dot_new h x b Mb Fout N dx d :
  arr_in h x b [Mb; Fout; N] dx ->
  arr_in (h_clen_dot h x b Mb Fout N d) (next_obj h) (next_buf h) [Mb; Fout; N] d.
Proof. intros Hx. unfold h_clen_dot. arr_solve. Qed.

Lemma clen_dot_preserved h0 h x b Mb Fout N d :
  preserved h0 h -> (next_obj h0 <= x)%nat ->
  preserved h0 (h_clen_dot h x b Mb Fout N d).
Proof.
  intros Hp Hx. unfold h_clen_dot.
  pose proof Hp as (_ & _ & Hp3 & _).
  apply preserved_reshape; [|lia]. apply preserved_reshape; [|exact Hx].
  apply preserved_alloc. apply preserved_reshape; [|exact Hx]. now apply preserved_log.
Qed.

Lemma zeros_data N s C :
  zeros (size_of [length s; C; N]) = data (T3 N s C (fun _ _ _ => 0)).
Proof.
  rewrite size_of_3, <- (data_length N s C (fun sig o n => entry sig o n)).
  unfold zeros. rewrite repeat_as_map. apply map_data.
Qed.

Lemma clen_dot_run' h x b sh N s Fout g (L : mat) :
  arr_in h x b sh (data (T3 N s Fout g)) ->
  is_mat N N L ->
  clen_dot (length s) Fout N (SparseMatrix L) x h
  = (Ok (next_obj h),
     h_clen_dot h x b (length s) Fout N
       (data (T3 N s Fout (fun sig o => Aop L N (g sig o))))).
Proof. intros Hx HL. exact (clen_dot_run h x b sh N s Fout g L Hx HL). Qed.

Create HintDb heapdb.
#[local] Hint Resolve arr_in_log arr_in_alloc_old arr_in_alloc_new
  clen_dot_keeps clen_dot_new : heapdb.

Section ClenshawRun.
Variables (K Fout Fin N : nat) (c3 : list mat) (L : mat) (s : list mat) (h0 : heap).
Variables (sobj bs : nat).
Hypothesis Hc3 : is_tensor3 K Fout Fin c3.
Hypothesis HL : is_mat N N L.

Lemma clen_loop_run :
  forall ks h b1 bb1 b2 (st : cstate),
    Forall (fun k => (k < K)%nat) ks ->
    arr_in h sobj bs [length s; Fin; N] (data (T3 N s Fin (fun sig i => entry sig i))) ->
    arr_in h b1 bb1 [length s; Fout; N] (data (T3 N s Fout (fst st))) ->
    val_at N s Fout h b2 (snd st) ->
    (next_obj h0 <= b1)%nat ->
    preserved h0 h ->
    exists h' b1' bb1' b2',
      clen_loop (coef_at K Fout Fin (data c3)) (length s) Fout N (SparseMatrix L) sobj ks b1 b2 h
      = (Ok (b1', b2'), h')
      /\ arr_in h' sobj bs [length s; Fin; N] (data (T3 N s Fin (fun sig i => entry sig i)))
      /\ arr_in h' b1' bb1' [length s; Fout; N]
           (data (T3 N s Fout (fst (fold_left (cstep c3 L N Fin) ks st))))
      /\ val_at N s Fout h' b2' (snd (fold_left (cstep c3 L N Fin) ks st))
      /\ (next_obj h0 <= b1')%nat
      /\ preserved h0 h'
      /\ trace h' = trace h ++ concat (repeat [OpMult; OpDot] (length ks)).
Proof.
  induction ks as [|k ks IH]; intros h b1 bb1 b2 st Hks Hs Hb1 Hb2 Gb1 Hp.
  - exists h, b1, bb1, b2. cbn [clen_loop fold_left length repeat concat].
    rewrite app_nil_r. unfold ret. auto 10.
  - pose proof (Forall_inv Hks) as Hk. pose proof (Forall_inv_tail Hks) as Hks'.
    cbv beta in Hk.
    cbn [clen_loop]. unfold bind, lift.
    rewrite (coef_at_data K Fout Fin c3 k Hc3 Hk).
    rewrite (clen_mult_run h sobj bs N s Fin _ _ Fout Hs (is_tensor3_nth K Fout Fin c3 k Hc3 Hk)).
    fold (U c3 Fin k).
    set (h1 := h_alloc (h_log h OpMult) _ _).
    assert (Hb1_1 : arr_in h1 b1 bb1 [length s; Fout; N] (data (T3 N s Fout (fst st))))
      by (unfold h1; auto with heapdb).
    rewrite (clen_dot_run' h1 b1 bb1 _ N s Fout _ L Hb1_1 HL).
    set (h2 := h_clen_dot h1 _ _ _ _ _ _).
    assert (Hd : arr_in h2 (next_obj h1) (next_buf h1) [length s; Fout; N]
                   (data (T3 N s Fout (fun sig o => Aop L N (fst st sig o)))))
      by (unfold h2; eauto with heapdb).
    rewrite (scalar_mul_run 2 h2 _ _ _ _ Hd).
    unfold vscale. rewrite map_data.
    set (h3 := h_alloc h2 _ _).
    assert (Hm : arr_in h3 (next_obj h) (next_buf h) [length s; Fout; N]
                   (data (T3 N s Fout (fun sig o => U c3 Fin k sig o)))).
    { unfold h3, h2. apply arr_in_alloc_old. eapply clen_dot_keeps; [exact Hb1_1|].
      unfold h1. apply (arr_in_alloc_new (h_log h OpMult)). }
    assert (Hd2 : arr_in h3 (next_obj h2) (next_buf h2) [length s; Fout; N]
                    (data (T3 N s Fout (fun sig o n => 2 * Aop L N (fst st sig o) n))))
      by (unfold h3; auto with heapdb).
    rewrite (binop_run Rplus h3 _ _ _ _ _ _ _ Hm Hd2).
    rewrite zipWith_data.
    set (h4 := h_alloc h3 _ _).
    assert (Ht : arr_in h4 (next_obj h3) (next_buf h3) [length s; Fout; N]
                   (data (T3 N s Fout
                            (fun sig o n => U c3 Fin k sig o n + 2 * Aop L N (fst st sig o) n))))
      by (unfold h4; auto with heapdb).
    assert (Hkeep : forall a b sh d, arr_in h a b sh d -> arr_in h4 a b sh d).
    { intros a b sh d Ha. unfold h4, h3, h2. do 2 apply arr_in_alloc_old.
      eapply clen_dot_keeps; [exact Hb1_1|]. unfold h1. auto with heapdb. }
    assert (Hp4 : preserved h0 h4).
    { unfold h4, h3, h2. do 2 apply preserved_alloc. apply clen_dot_preserved.
      - unfold h1. apply preserved_alloc. now apply preserved_log.
      - exact Gb1. }
    assert (Hn4 : next_obj h4 = (4 + next_obj h)%nat /\ trace h4 = trace h ++ [OpMult; OpDot]).
    { unfold h4, h3, h2, h1.
      cbn [next_obj trace h_alloc h_clen_dot h_reshape h_log]. rewrite <- app_assoc. auto. }
    destruct Hn4 as [Hn4 Htr4].
    assert (Hsub : exists h5,
               sub_val (next_obj h3) b2 h4 = (Ok (next_obj h4), h5)
               /\ arr_in h5 (next_obj h4) (next_buf h4) [length s; Fout; N]
                    (data (T3 N s Fout (fst (cstep c3 L N Fin st k))))
               /\ (forall a b sh d, arr_in h4 a b sh d -> arr_in h5 a b sh d)
               /\ preserved h0 h5 /\ trace h5 = trace h4).
    { destruct b2 as [a|]; cbn [val_at] in Hb2.
      - destruct Hb2 as [bb Ha]. apply Hkeep in Ha. unfold sub_val.
        rewrite (binop_run Rminus h4 _ _ _ _ _ _ _ Ht Ha). rewrite zipWith_data.
        eexists. split; [reflexivity|]. split; [apply arr_in_alloc_new|].
        split; [intros; now apply arr_in_alloc_old|].
        split; [now apply preserved_alloc | reflexivity].
      - rewrite (sub_val_none_run h4 _ _ _ _ Ht). rewrite map_data.
        eexists. split; [reflexivity|]. split.
        + replace (data (T3 N s Fout (fst (cstep c3 L N Fin st k))))
            with (data (T3 N s Fout
                          (fun sig o n =>
                             U c3 Fin k sig o n + 2 * Aop L N (fst st sig o) n - 0))).
          * apply arr_in_alloc_new.
          * f_equal. apply T3_ext. intros. cbn [cstep fst]. now rewrite Hb2.
        + split; [intros; now apply arr_in_alloc_old|].
          split; [now apply preserved_alloc | reflexivity]. }
    destruct Hsub as (h5 & Hrun5 & Hb5 & Hkeep5 & Hp5 & Htr5).
    rewrite Hrun5.
    destruct (IH h5 (next_obj h4) (next_buf h4) (Some b1) (cstep c3 L N Fin st k))
      as (h' & b1' & bb1' & b2' & Hrun & Hs' & Hb1' & Hb2' & Gb1' & Hp' & Htr').
    + exact Hks'.
    + apply Hkeep5, Hkeep, Hs.
    + exact Hb5.
    + cbn [val_at cstep snd]. exists bb1. apply Hkeep5, Hkeep, Hb1.
    + pose proof Hp as (_ & _ & Hp3 & _). lia.
    + exact Hp5.
    + exists h', b1', bb1', b2'. cbn [fold_left length repeat concat].
      rewrite Hrun. repeat (split; [assumption|]).
      split; [reflexivity|]. repeat (split; [assumption|]).
      rewrite Htr', Htr5, Htr4. rewrite <- !app_assoc. reflexivity.
Qed.
End ClenshawRun.

Lemma bind_ok {A B : Type} (m : M A) (f : A -> M B) (h h' : heap) (a : A) :
  m h = (Ok a, h') -> bind m f h = f a h'.
Proof. intros E. unfold bind. now rewrite E. Qed.

Section ClenshawFilter.
Variables (K Fout Fin N : nat) (c3 : list mat) (L : mat) (s : list mat) (h0 : heap).
Variables (sobj bs : nat).
Hypothesis Hc3 : is_tensor3 K Fout Fin c3.
Hypothesis HL : is_mat N N L.
Hypothesis HK : (1 <= K)%nat.

Lemma clen_tail_run_fresh h b1 bb1 :
  arr_in h sobj bs [length s; Fin; N] (data (T3 N s Fin (fun sig i => entry sig i))) ->
  arr_in h b1 bb1 [length s; Fout; N] (data (T3 N s Fout (cinit c3 Fin K))) ->
  (next_obj h0 <= b1)%nat ->
  preserved h0 h ->
  exists r br h',
    (bb <- clen_loop (coef_at K Fout Fin (data c3)) (length s) Fout N (SparseMatrix L) sobj
             (rev (seq 1 (K - 2))) b1 None ;;
     c0 <- lift (coef_at K Fout Fin (data c3) 0%nat) ;;
     m <- clen_mult c0 sobj ;;
     d <- clen_dot (length s) Fout N (SparseMatrix L) (fst bb) ;;
     t <- binop Rplus m d ;;
     sub_val t (snd bb)) h = (Ok r, h')
    /\ arr_in h' r br [length s; Fout; N] (data (T3 N s Fout (clen_fun c3 L N Fin K)))
    /\ preserved h0 h'
    /\ trace h' = trace h ++ concat (repeat [OpMult; OpDot] (K - 2)) ++ [OpMult; OpDot]
    /\ (next_obj h0 <= r)%nat /\ (next_buf h0 <= br)%nat.
Proof.
  intros Hs Hb1 Gb1 Hp.
  destruct (clen_loop_run K Fout Fin N c3 L s h0 sobj bs Hc3 HL
              (rev (seq 1 (K - 2))) h b1 bb1 None
              (cinit c3 Fin K, fun _ _ _ => 0))
    as (h1 & b1' & bb1' & b2' & Hrun & Hs1 & Hb1' & Hb2' & Gb1' & Hp1 & Htr1);
    try assumption.
  { apply Forall_rev. apply Forall_forall. intros k Hk. apply in_seq in Hk. lia. }
  { cbn [val_at snd]. reflexivity. }
  set (st := fold_left (cstep c3 L N Fin) (rev (seq 1 (K - 2)))
               (cinit c3 Fin K, fun _ _ _ => 0)) in *.
  rewrite (bind_ok _ _ _ _ _ Hrun). cbn [fst snd].
  assert (H0K : (0 < K)%nat) by lia.
  unfold lift at 1. unfold bind at 1. rewrite (coef_at_data K Fout Fin c3 0 Hc3 H0K).
  rewrite (bind_ok _ _ _ _ _
             (clen_mult_run h1 sobj bs N s Fin _ _ Fout Hs1
                (is_tensor3_nth K Fout Fin c3 0 Hc3 H0K))).
  fold (U c3 Fin 0).
  set (h2 := h_alloc (h_log h1 OpMult) _ _).
  assert (Hb1_2 : arr_in h2 b1' bb1' [length s; Fout; N] (data (T3 N s Fout (fst st))))
    by (unfold h2; auto with heapdb).
  rewrite (bind_ok _ _ _ _ _ (clen_dot_run' h2 b1' bb1' _ N s Fout _ L Hb1_2 HL)).
  set (h3 := h_clen_dot h2 _ _ _ _ _ _).
  assert (Hm : arr_in h3 (next_obj h1) (next_buf h1) [length s; Fout; N]
                 (data (T3 N s Fout (fun sig o => U c3 Fin 0 sig o)))).
  { unfold h3. eapply clen_dot_keeps; [exact Hb1_2|].
    unfold h2. apply (arr_in_alloc_new (h_log h1 OpMult)). }
  assert (Hd : arr_in h3 (next_obj h2) (next_buf h2) [length s; Fout; N]
                 (data (T3 N s Fout (fun sig o => Aop L N (fst st sig o)))))
    by (unfold h3; eauto with heapdb).
  rewrite (bind_ok _ _ _ _ _ (binop_run Rplus h3 _ _ _ _ _ _ _ Hm Hd)).
  rewrite zipWith_data.
  set (h4 := h_alloc h3 _ _).
  assert (Ht : arr_in h4 (next_obj h3) (next_buf h3) [length s; Fout; N]
                 (data (T3 N s Fout
                          (fun sig o n => U c3 Fin 0 sig o n + Aop L N (fst st sig o) n))))
    by (unfold h4; auto with heapdb).
  assert (Hkeep : forall a b sh d, arr_in h1 a b sh d -> arr_in h4 a b sh d).
  { intros a b sh d Ha. unfold h4, h3. apply arr_in_alloc_old.
    eapply clen_dot_keeps; [exact Hb1_2|]. unfold h2. auto with heapdb. }
  assert (Hp4 : preserved h0 h4).
  { unfold h4, h3. apply preserved_alloc. apply clen_dot_preserved.
    - unfold h2. apply preserved_alloc. now apply preserved_log.
    - exact Gb1'. }
  assert (Htr4 : trace h4 = trace h1 ++ [OpMult; OpDot]).
  { unfold h4, h3, h2. cbn [trace h_alloc h_clen_dot h_reshape h_log].
    now rewrite <- app_assoc. }
  exists (next_obj h4), (next_buf h4).
  destruct b2' as [a|]; cbn [val_at] in Hb2'.
  - destruct Hb2' as [bb Ha]. apply Hkeep in Ha. unfold sub_val.
    rewrite (binop_run Rminus h4 _ _ _ _ _ _ _ Ht Ha). rewrite zipWith_data.
    eexists. split; [reflexivity|]. split; [apply arr_in_alloc_new|].
    split; [now apply preserved_alloc|].
    split; [| destruct Hp4 as (_ & _ & Hp4a & Hp4b & _); split; assumption].
    cbn [trace h_alloc]. rewrite Htr4, Htr1, length_rev, length_seq.
    now rewrite <- !app_assoc.
  - rewrite (sub_val_none_run h4 _ _ _ _ Ht). rewrite map_data.
    eexists. split; [reflexivity|]. split.
    + replace (data (T3 N s Fout (clen_fun c3 L N Fin K)))
        with (data (T3 N s Fout
                      (fun sig o n => U c3 Fin 0 sig o n + Aop L N (fst st sig o) n - 0))).
      * apply arr_in_alloc_new.
      * f_equal. apply T3_ext. intros. unfold clen_fun. fold st. now rewrite Hb2'.
    + split; [now apply preserved_alloc|].
      split; [| destruct Hp4 as (_ & _ & Hp4a & Hp4b & _); split; assumption].
      cbn [trace h_alloc]. rewrite Htr4, Htr1, length_rev, length_seq.
      now rewrite <- !app_assoc.
Qed.
End ClenshawFilter.

Lemma filter_clenshaw_run_fresh (K Fout Fin N : nat) (c3 : list mat) (L : mat)
    (s : list mat) (h0 : heap) (sobj bs : nat) (self : Chebyshev) (c : ndarray) :
  is_tensor3 K Fout Fin c3 ->
  is_mat N N L ->
  _coefficients self = Some c ->
  nd_shape c = [K; Fout; Fin] ->
  nd_data c = data c3 ->
  (1 <= K)%nat ->
  is_tensor3 (length s) Fin N s ->
  arr_in h0 sobj bs [length s; Fin; N] (data s) ->
  exists r br h',
    _filter_clenshaw self (SparseMatrix L) sobj h0 = (Ok r, h')
    /\ arr_in h' r br [length s; Fout; N] (data (T3 N s Fout (clen_fun c3 L N Fin K)))
    /\ preserved h0 h'
    /\ trace h' = trace h0 ++ (if Nat.leb 2 K then [OpMult] else [])
                   ++ concat (repeat [OpMult; OpDot] (K - 2)) ++ [OpMult; OpDot]
    /\ (next_obj h0 <= r)%nat /\ (next_buf h0 <= br)%nat.
Proof.
  intros Hc3 HL Hc Hsh Hdat HK Hs Hsobj.
  rewrite (tensor_as_T3 (length s) Fin N s Hs) in Hsobj. rewrite T3_length in Hsobj.
  unfold _filter_clenshaw, get_coefficients. rewrite Hc.
  unfold ret at 1. unfold bind at 1.
  rewrite Hsh, Hdat. unfold lift at 1. unfold bind at 1. cbn [unpack3].
  rewrite (bind_ok _ _ _ _ _ (read_run _ _ _ _ _ Hsobj)). cbn [fst].
  unfold lift at 1. unfold bind at 1. cbn [unpack3].
  pose proof (arr_in_bounds _ _ _ _ _ Hsobj) as [Hsa Hsb].
  unfold cinit in *.
  destruct (Nat.leb_spec 2 K) as [H2K|H2K].
  - assert (HkK : (K - 1 < K)%nat) by lia.
    unfold lift at 1. unfold bind at 2. rewrite (coef_at_data K Fout Fin c3 (K - 1) Hc3 HkK).
    rewrite (bind_ok _ _ _ _ _
               (clen_mult_run h0 sobj bs N s Fin _ _ Fout Hsobj
                  (is_tensor3_nth K Fout Fin c3 (K - 1) Hc3 HkK))).
    fold (U c3 Fin (K - 1)).
    set (h1 := h_alloc (h_log h0 OpMult) _ _).
    destruct (clen_tail_run_fresh K Fout Fin N c3 L s h0 sobj bs Hc3 HL HK h1
                (next_obj h0) (next_buf h0))
      as (r & br & h' & Hrun & Hr & Hp & Htr & Hfr).
    + unfold h1. auto with heapdb.
    + unfold cinit. destruct (Nat.leb_spec 2 K); [|lia].
      unfold h1. apply (arr_in_alloc_new (h_log h0 OpMult)).
    + lia.
    + unfold h1. apply preserved_alloc, preserved_log, preserved_refl.
    + exists r, br, h'. split; [exact Hrun|]. split; [exact Hr|]. split; [exact Hp|].
      split; [|exact Hfr].
      rewrite Htr. unfold h1. cbn [trace h_alloc h_log]. now rewrite <- !app_assoc.
  - rewrite (bind_ok _ _ _ _ _ (new_array_run h0 _ _)).
    rewrite zeros_data.
    set (h1 := h_alloc h0 _ _).
    destruct (clen_tail_run_fresh K Fout Fin N c3 L s h0 sobj bs Hc3 HL HK h1
                (next_obj h0) (next_buf h0))
      as (r & br & h' & Hrun & Hr & Hp & Htr & Hfr).
    + unfold h1. auto with heapdb.
    + unfold cinit. destruct (Nat.leb_spec 2 K); [lia|].
      unfold h1. apply arr_in_alloc_new.
    + lia.
    + unfold h1. apply preserved_alloc, preserved_refl.
    + exists r, br, h'. split; [exact Hrun|]. split; [exact Hr|]. split; [exact Hp|].
      split; [|exact Hfr].
      rewrite Htr. unfold h1. cbn [trace h_alloc]. reflexivity.
Qed.

Lemma filter_clenshaw_run (K Fout Fin N : nat) (c3 : list mat) (L : mat) (s : list mat)
    (h0 : heap) (sobj bs : nat) (self : Chebyshev) (c : ndarray) :
  is_tensor3 K Fout Fin c3 ->
  is_mat N N L ->
  _coefficients self = Some c ->
  nd_shape c = [K; Fout; Fin] ->
  nd_data c = data c3 ->
  (1 <= K)%nat ->
  is_tensor3 (length s) Fin N s ->
  arr_in h0 sobj bs [length s; Fin; N] (data s) ->
  exists r br h',
    _filter_clenshaw self (SparseMatrix L) sobj h0 = (Ok r, h')
    /\ arr_in h' r br [length s; Fout; N] (data (T3 N s Fout (clen_fun c3 L N Fin K)))
    /\ preserved h0 h'
    /\ trace h' = trace h0 ++ (if Nat.leb 2 K then [OpMult] else [])
                   ++ concat (repeat [OpMult; OpDot] (K - 2)) ++ [OpMult; OpDot].
Proof.
  intros Hc3 HL Hc Hsh Hdat HK Hs Hsobj.
  destruct (filter_clenshaw_run_fresh K Fout Fin N c3 L s h0 sobj bs self c
              Hc3 HL Hc Hsh Hdat HK Hs Hsobj)
    as (r & br & h' & H1 & H2 & H3 & H4 & _).
  exists r, br, h'. auto.
Qed.

(** ** Algebra of the diffusion on coordinates *)

Lemma nat_pair_ind (P : nat -> Prop) :
  P O -> P 1%nat -> (forall k, P k -> P (S k) -> P (S (S k))) -> forall k, P k.
Proof.
  intros H0 H1 HS k. assert (H : P k /\ P (S k)).
  { induction k as [|k [IHa IHb]]; [split; assumption|]. split; [exact IHb | now apply HS]. }
  exact (proj1 H).
Qed.

Lemma rsum_map_ext {X : Type} (f g : X -> R) (l : list X) :
  (forall j, f j = g j) -> rsum (map f l) = rsum (map g l).
Proof. intros H. f_equal. apply map_ext. exact H. Qed.

Lemma rsum_lin {X : Type} (a b : R) (f g : X -> R) (l : list X) :
  rsum (map (fun j => a * f j + b * g j) l) = a * rsum (map f l) + b * rsum (map g l).
Proof.
  induction l as [|x l IH]; cbn [map rsum fold_right]; [ring|].
  unfold rsum in IH. rewrite IH. ring.
Qed.

Section Diffusion.
Variables (L : mat) (N : nat).

Lemma Aop_ext (f g : nat -> R) :
  (forall j, f j = g j) -> forall n, Aop L N f n = Aop L N g n.
Proof.
  intros H n. unfold Aop. apply rsum_map_ext. intros j. now rewrite H.
Qed.

Lemma Aop_lin (a b : R) (f g : nat -> R) (n : nat) :
  Aop L N (fun j => a * f j + b * g j) n = a * Aop L N f n + b * Aop L N g n.
Proof.
  unfold Aop. rewrite <- rsum_lin. apply rsum_map_ext. intros j. ring.
Qed.

Lemma Tf_ext (f g : nat -> R) :
  (forall j, f j = g j) -> forall k n, Tf L N k f n = Tf L N k g n.
Proof.
  intros H k. induction k as [| |k IH0 IH1] using nat_pair_ind; intros n.
  - apply H.
  - now apply Aop_ext.
  - change (2 * Aop L N (Tf L N (S k) f) n - Tf L N k f n
            = 2 * Aop L N (Tf L N (S k) g) n - Tf L N k g n).
    rewrite (Aop_ext _ _ IH1 n), IH0. reflexivity.
Qed.

Lemma Tf_lin (a b : R) (f g : nat -> R) :
  forall k n, Tf L N k (fun j => a * f j + b * g j) n
              = a * Tf L N k f n + b * Tf L N k g n.
Proof.
  intros k. induction k as [| |k IH0 IH1] using nat_pair_ind; intros n.
  - reflexivity.
  - apply Aop_lin.
  - change (2 * Aop L N (Tf L N (S k) (fun j => a * f j + b * g j)) n
            - Tf L N k (fun j => a * f j + b * g j) n
            = a * (2 * Aop L N (Tf L N (S k) f) n - Tf L N k f n)
              + b * (2 * Aop L N (Tf L N (S k) g) n - Tf L N k g n)).
    rewrite (Aop_ext _ _ IH1 n), Aop_lin, IH0. ring.
Qed.

Lemma Tf_zero (k n : nat) : Tf L N k (fun _ => 0) n = 0.
Proof.
  rewrite (Tf_ext (fun _ => 0) (fun j => 0 * 0 + 0 * 0)) by (intros; ring).
  rewrite (Tf_lin 0 0 (fun _ => 0) (fun _ => 0)). ring.
Qed.

Lemma Tf_lin3 (u a b : nat -> R) (k n : nat) :
  Tf L N k (fun j => u j + 2 * a j - b j) n
  = Tf L N k u n + 2 * Tf L N k a n - Tf L N k b n.
Proof.
  rewrite (Tf_ext (fun j => u j + 2 * a j - b j)
             (fun j => 1 * u j + 1 * (2 * a j + (-1) * b j))) by (intros; ring).
  rewrite (Tf_lin 1 1 u (fun j => 2 * a j + (-1) * b j)).
  rewrite (Tf_lin 2 (-1) a b). ring.
Qed.

Lemma Tf_Aop_comm (f : nat -> R) :
  forall k n, Tf L N k (Aop L N f) n = Aop L N (Tf L N k f) n.
Proof.
  intros k. induction k as [| |k IH0 IH1] using nat_pair_ind; intros n.
  - reflexivity.
  - reflexivity.
  - change (2 * Aop L N (Tf L N (S k) (Aop L N f)) n - Tf L N k (Aop L N f) n
            = Aop L N (fun j => 2 * Aop L N (Tf L N (S k) f) j - Tf L N k f j) n).
    rewrite (Aop_ext _ _ IH1 n), IH0.
    rewrite (Aop_ext (fun j => 2 * Aop L N (Tf L N (S k) f) j - Tf L N k f j)
               (fun j => 2 * Aop L N (Tf L N (S k) f) j + (-1) * Tf L N k f j))
      by (intros; ring).
    rewrite (Aop_lin 2 (-1)). ring.
Qed.

Lemma Tf_rsum {X : Type} (alpha : X -> R) (G : X -> nat -> R) (l : list X) (k n : nat) :
  Tf L N k (fun j => rsum (map (fun i => alpha i * G i j) l)) n
  = rsum (map (fun i => alpha i * Tf L N k (G i) n) l).
Proof.
  induction l as [|x l IH]; cbn [map].
  - apply Tf_zero.
  - unfold rsum at 2. cbn [fold_right]. fold (rsum (map (fun i => alpha i * Tf L N k (G i) n) l)).
    rewrite <- IH.
    rewrite (Tf_ext (fun j => rsum (alpha x * G x j :: map (fun i => alpha i * G i j) l))
               (fun j => alpha x * G x j
                         + 1 * rsum (map (fun i => alpha i * G i j) l)));
      [| intros; unfold rsum; cbn [fold_right]; ring].
    rewrite (Tf_lin (alpha x) 1). ring.
Qed.
End Diffusion.

(** ** The backward recurrence sums the same series *)

Lemma rsum_cons (a : R) (l : list R) : rsum (a :: l) = a + rsum l.
Proof. reflexivity. Qed.

Lemma rsum_nil : rsum [] = 0.
Proof. reflexivity. Qed.

Section Clenshaw.
Variables (c3 : list mat) (L : mat) (N Fin : nat).

Lemma clenshaw_identity (st : cstate) (sig : mat) (o : nat) :
  forall ks m n,
    Tf L N (S m) (fst (fold_right (fun k st => cstep c3 L N Fin st k) st ks) sig o) n
    - Tf L N m (snd (fold_right (fun k st => cstep c3 L N Fin st k) st ks) sig o) n
    = csum c3 L N Fin m ks sig o n
      + Tf L N (S m + length ks) (fst st sig o) n
      - Tf L N (m + length ks) (snd st sig o) n.
Proof.
  induction ks as [|k ks IH]; intros m n.
  - cbn [fold_right csum length]. rewrite !Nat.add_0_r. ring.
  - cbn [fold_right csum length].
    set (st' := fold_right (fun k st => cstep c3 L N Fin st k) st ks) in *.
    cbn [cstep fst snd].
    rewrite (Tf_lin3 L N (U c3 Fin k sig o) (Aop L N (fst st' sig o)) (snd st' sig o)).
    rewrite Tf_Aop_comm.
    replace (S m + S (length ks))%nat with (S (S m) + length ks)%nat by lia.
    replace (m + S (length ks))%nat with (S m + length ks)%nat by lia.
    pose proof (IH (S m) n) as E.
    change (Tf L N (S (S m)) (fst st' sig o) n)
      with (2 * Aop L N (Tf L N (S m) (fst st' sig o)) n - Tf L N m (fst st' sig o) n) in E.
    lra.
Qed.

Lemma csum_seq (sig : mat) (o n : nat) :
  forall len m,
    csum c3 L N Fin m (seq (S m) len) sig o n
    = rsum (map (fun k => Tf L N k (U c3 Fin k sig o) n) (seq (S m) len)).
Proof.
  induction len as [|len IH]; intros m; [reflexivity|].
  cbn [seq csum map]. rewrite IH. reflexivity.
Qed.

Lemma rterm_Tf (k : nat) (sig : mat) (o n : nat) :
  rterm c3 L N Fin k sig o n = Tf L N k (U c3 Fin k sig o) n.
Proof.
  unfold rterm, U, mix. symmetry.
  apply (Tf_rsum L N (fun i => entry (nth k c3 []) o i) (fun i => entry sig i)).
Qed.

Lemma clen_fun_racc (K : nat) (sig : mat) (o n : nat) :
  (1 <= K)%nat ->
  clen_fun c3 L N Fin K sig o n = racc c3 L N Fin K sig o n.
Proof.
  intros HK. unfold clen_fun. rewrite fold_left_rev.
  set (st := (cinit c3 Fin K, fun (_ : mat) (_ _ : nat) => 0)).
  pose proof (clenshaw_identity st sig o (seq 1 (K - 2)) 0 n) as E.
  cbn [Tf] in E. rewrite length_seq in E.
  replace (U c3 Fin 0 sig o n
           + Aop L N (fst (fold_right (fun k st0 => cstep c3 L N Fin st0 k) st
                             (seq 1 (K - 2))) sig o) n
           - snd (fold_right (fun k st0 => cstep c3 L N Fin st0 k) st
                    (seq 1 (K - 2))) sig o n)
    with (U c3 Fin 0 sig o n
          + (Aop L N (fst (fold_right (fun k st0 => cstep c3 L N Fin st0 k) st
                             (seq 1 (K - 2))) sig o) n
             - snd (fold_right (fun k st0 => cstep c3 L N Fin st0 k) st
                      (seq 1 (K - 2))) sig o n)) by ring.
  rewrite E. rewrite csum_seq. unfold st. cbn [fst snd]. rewrite Tf_zero.
  unfold racc.
  rewrite (rsum_map_ext (fun j => rterm c3 L N Fin j sig o n)
             (fun k => Tf L N k (U c3 Fin k sig o) n) (seq 0 K))
    by (intros; apply rterm_Tf).
  unfold cinit. destruct (Nat.leb_spec 2 K) as [H2|H2].
  - destruct K as [|[|j]]; [lia | lia |].
    replace (S (S j) - 2)%nat with j by lia. replace (S (S j) - 1)%nat with (S j) by lia.
    change (seq 0 (S (S j))) with (0%nat :: seq 1 (S j)). rewrite (seq_S j 1).
    cbn [map]. rewrite map_app. cbn [map].
    rewrite rsum_cons, rsum_app, rsum_cons, rsum_nil. cbn [Tf Nat.add]. ring.
  - assert (E1 : K = 1%nat) by lia. subst K. cbn [Nat.sub seq map].
    rewrite Tf_zero, rsum_cons, !rsum_nil. cbn [Tf]. ring.
Qed.
End Clenshaw.

(** ** The rescaled Laplacian *)

Lemma vtab_nth (N : nat) (f : nat -> R) (n : nat) :
  (n < N)%nat -> nth n (vtab N f) 0 = f n.
Proof.
  intros Hn. unfold vtab.
  rewrite (nth_indep _ 0 (f O)) by (rewrite length_map, length_seq; exact Hn).
  rewrite map_nth, seq_nth by exact Hn. reflexivity.
Qed.

Lemma entry_table (r n : nat) (F : nat -> nat -> R) (i j : nat) :
  entry (map (fun i => vtab n (F i)) (seq 0 r)) i j
  = if Nat.ltb i r && Nat.ltb j n then F i j else 0.
Proof.
  unfold entry. destruct (Nat.ltb_spec i r) as [Hi|Hi]; cbn [andb].
  - rewrite (nth_indep _ [] (vtab n (F O))) by (rewrite length_map, length_seq; exact Hi).
    rewrite (map_nth (fun i => vtab n (F i))), seq_nth by exact Hi. cbn [Nat.add].
    destruct (Nat.ltb_spec j n) as [Hj|Hj].
    + now apply vtab_nth.
    + apply nth_overflow. now rewrite vtab_length.
  - rewrite (nth_overflow _ []) by (rewrite length_map, length_seq; exact Hi).
    now destruct j.
Qed.

Lemma rescaled_is_mat (lmax : R) (N : nat) (L : mat) : is_mat N N (rescaled lmax N L).
Proof.
  unfold rescaled. split.
  - now rewrite length_map, length_seq.
  - apply Forall_map, Forall_forall. intros i _. now rewrite length_map, length_seq.
Qed.

Lemma rescaled_symmetric (lmax : R) (N : nat) (L : mat) :
  symmetric L -> symmetric (rescaled lmax N L).
Proof.
  intros HL i j. unfold rescaled.
  rewrite (entry_table N N (fun i j => 2 * entry L i j / lmax - (if Nat.eqb i j then 1 else 0))).
  rewrite (entry_table N N (fun i j => 2 * entry L i j / lmax - (if Nat.eqb i j then 1 else 0))).
  rewrite (andb_comm (Nat.ltb j N)).
  destruct (Nat.ltb i N && Nat.ltb j N); [|reflexivity].
  rewrite (HL i j), (Nat.eqb_sym i j). reflexivity.
Qed.

Lemma is_mat_square (N : nat) (L : mat) : is_mat N N L -> is_square N L = true.
Proof.
  intros H. pose proof H as [Hl _]. unfold is_square.
  rewrite Hl, Nat.eqb_refl. cbn [andb]. now apply (is_mat_forallb N N).
Qed.

Lemma rescale_laplacian_ok (G : graph) :
  G_issparse G = true ->
  is_mat (G_N G) (G_N G) (G_L G) ->
  rescale_laplacian G = Ok (SparseMatrix (rescaled (G_lmax G) (G_N G) (G_L G))).
Proof.
  intros Hsp H. unfold rescale_laplacian. rewrite Hsp, (is_mat_square _ _ H). do 2 f_equal.
  rewrite (mat_as_rows _ _ _ H) at 1. rewrite map_map.
  unfold msub, identity, rescaled. rewrite zipWith_map.
  apply map_ext. intros i. unfold vtab. rewrite map_map.
  unfold vsub. apply zipWith_map.
Qed.

(** ** The recursion against the documented formula *)

Lemma rsum_map_ext_in {X : Type} (f g : X -> R) (l : list X) :
  (forall j, In j l -> f j = g j) -> rsum (map f l) = rsum (map g l).
Proof. intros H. f_equal. apply map_ext_in. exact H. Qed.

Section Symmetric.
Variables (L : mat) (N : nat).
Hypothesis HL : is_mat N N L.
Hypothesis Hsym : symmetric L.

Lemma matvec_vtab (f : nat -> R) : matvec L (vtab N f) = vtab N (Aop L N f).
Proof.
  unfold matvec. rewrite (mat_as_rows N N L HL) at 1. rewrite map_map.
  unfold vtab at 3. apply map_ext. intros i.
  unfold dotp, vtab. rewrite zipWith_map. unfold Aop.
  apply rsum_map_ext. intros j. rewrite (Hsym i j). ring.
Qed.

Lemma cheb_diffuse_vtab (f : nat -> R) :
  forall k, cheb_diffuse L k (vtab N f) = vtab N (Tf L N k f).
Proof.
  intros k. induction k as [| |k IH0 IH1] using nat_pair_ind.
  - reflexivity.
  - apply matvec_vtab.
  - change (vsub (vscale 2 (matvec L (cheb_diffuse L (S k) (vtab N f))))
              (cheb_diffuse L k (vtab N f))
            = vtab N (fun n => 2 * Aop L N (Tf L N (S k) f) n - Tf L N k f n)).
    rewrite IH1, IH0, matvec_vtab.
    unfold vscale, vsub, vtab. rewrite map_map. apply zipWith_map.
Qed.

Lemma filtered_racc (K Fout Fin Mb : nat) (c3 : list mat) (s : list mat) :
  is_tensor3 Mb Fin N s ->
  filtered L K Fout Fin N c3 s = T3 N s Fout (racc c3 L N Fin K).
Proof.
  intros [_ Hs]. unfold filtered.
  change (T3 N s Fout
            (fun sm o n =>
               rsum (map (fun k =>
                            rsum (map (fun i => entry3 c3 k o i
                                                * nth n (cheb_diffuse L k (nth i sm [])) 0)
                                      (seq 0 Fin)))
                         (seq 0 K)))
          = T3 N s Fout (racc c3 L N Fin K)).
  apply T3_ext. intros sig o n Hin Ho Hn. unfold racc, rterm, mix.
  apply rsum_map_ext. intros k. apply rsum_map_ext_in. intros i Hi. apply in_seq in Hi.
  unfold entry3. f_equal.
  rewrite Forall_forall in Hs. pose proof (Hs sig Hin) as Hsig.
  rewrite (vec_as_vtab N (nth i sig [])) by (apply (nth_row_length Fin N); [exact Hsig | lia]).
  rewrite cheb_diffuse_vtab. now apply vtab_nth.
Qed.
End Symmetric.

(** ** [Chebyshev._filter]: the two methods on a well-formed call *)

Lemma filter_dispatch (self : Chebyshev) (sobj : nat) (h : heap) (method : option string)
    (f : Chebyshev -> laplacian -> nat -> M nat) (L' : laplacian) :
  rescale_laplacian (self_G self) = Ok L' ->
  lookup_filter (default_method method) = Some f ->
  _filter self sobj method h
  = (let (r, h') := f self L' sobj h in (attr_to_value r, h')).
Proof.
  intros HL Hf. unfold _filter, bind, lift. rewrite HL, Hf. reflexivity.
Qed.

Lemma lookup_filter_cases (method : string) (f : Chebyshev -> laplacian -> nat -> M nat) :
  lookup_filter method = Some f -> f = _filter_recursive \/ f = _filter_clenshaw.
Proof.
  unfold lookup_filter. destruct (String.eqb method "recursive").
  - intros E. left. now inversion E.
  - destruct (String.eqb method "clenshaw"); [|discriminate].
    intros E. right. now inversion E.
Qed.

Section FilterCall.
Variables (self : Chebyshev) (c : ndarray) (K Fout Fin N Mb : nat).
Variables (c3 : list mat) (s : list mat) (h : heap) (sobj bs : nat).
Hypothesis Hc : _coefficients self = Some c.
Hypothesis Hsh : nd_shape c = [K; Fout; Fin].
Hypothesis Hdat : nd_data c = data c3.
Hypothesis Hc3 : is_tensor3 K Fout Fin c3.
Hypothesis HK : (1 <= K)%nat.
Hypothesis HN : G_N (self_G self) = N.
Hypothesis HL : is_mat N N (G_L (self_G self)).
Hypothesis Hsp : G_issparse (self_G self) = true.
Hypothesis Hs : is_tensor3 Mb Fin N s.
Hypothesis Hsobj : arr_in h sobj bs [Mb; Fin; N] (data s).

Lemma rescale_ok :
  rescale_laplacian (self_G self) = Ok (SparseMatrix (rescaled_L self N)).
Proof.
  unfold rescaled_L. rewrite <- HN. apply rescale_laplacian_ok; [exact Hsp|]. now rewrite HN.
Qed.

Lemma filter_recursive_ok (method : option string) :
  default_method method = "recursive"%string ->
  exists r br h',
    _filter self sobj method h = (Ok r, h')
    /\ arr_in h' r br [Mb; Fout; N] (data (T3 N s Fout (racc c3 (rescaled_L self N) N Fin K)))
    /\ preserved h h'
    /\ trace h' = trace h ++ OpMult :: concat (repeat [OpDot; OpMult] (K - 1)).
Proof.
  intros Hm. pose proof Hs as [HMb _]. subst Mb.
  destruct (filter_recursive_run K Fout Fin N c3 (rescaled_L self N) s h Hc3
              (rescaled_is_mat _ _ _) self c sobj bs Hc Hsh Hdat HK Hs Hsobj)
    as (r & br & h' & Hrun & Hr & Hp & Htr).
  exists r, br, h'.
  rewrite (filter_dispatch self sobj h method _filter_recursive (SparseMatrix (rescaled_L self N)) rescale_ok)
    by (rewrite Hm; reflexivity).
  rewrite Hrun. auto.
Qed.

Lemma filter_clenshaw_ok :
  exists r br h',
    _filter self sobj (Some "clenshaw"%string) h = (Ok r, h')
    /\ arr_in h' r br [Mb; Fout; N] (data (T3 N s Fout (racc c3 (rescaled_L self N) N Fin K)))
    /\ preserved h h'
    /\ trace h' = trace h ++ (if Nat.leb 2 K then [OpMult] else [])
                   ++ concat (repeat [OpMult; OpDot] (K - 2)) ++ [OpMult; OpDot].
Proof.
  pose proof Hs as [HMb _]. subst Mb.
  destruct (filter_clenshaw_run K Fout Fin N c3 (rescaled_L self N) s h sobj bs self c Hc3
              (rescaled_is_mat _ _ _) Hc Hsh Hdat HK Hs Hsobj)
    as (r & br & h' & Hrun & Hr & Hp & Htr).
  exists r, br, h'.
  rewrite (filter_dispatch self sobj h _ _filter_clenshaw (SparseMatrix (rescaled_L self N)) rescale_ok) by reflexivity.
  rewrite Hrun. split; [reflexivity|]. split; [|auto].
  replace (data (T3 N s Fout (racc c3 (rescaled_L self N) N Fin K)))
    with (data (T3 N s Fout (clen_fun c3 (rescaled_L self N) N Fin K))); [exact Hr|].
  f_equal. apply T3_ext. intros. now apply clen_fun_racc.
Qed.

End FilterCall.

Lemma preserved_arr_in (h h' : heap) (a b : nat) (sh : list nat) (d : list R) :
  arr_in h a b sh d -> preserved h h' -> arr_in h' a b sh d.
Proof.
  intros (H1 & H2 & H3 & H4 & H5) (Ho & Hb & Hno & Hnb & Hl).
  unfold arr_in. rewrite (Ho _ H3), (Hb _ H4), (proj1 (Hl _ H4)).
  repeat split; try assumption; lia.
Qed.

Lemma preserved_arr_at (h h' : heap) (a b : nat) (sh : list nat) (d : list R) :
  arr_at h a b sh d -> preserved h h' -> arr_at h' a b sh d.
Proof.
  intros (H1 & H2 & H3 & H4) (Ho & Hb & Hno & Hnb & Hl).
  unfold arr_at. rewrite (Ho _ H3), (Hb _ H4).
  repeat split; try assumption; lia.
Qed.

(** ** The frame of a call: whatever happens, what the caller had is kept *)

Lemma grown_refl h0 h : preserved h0 h -> grown h0 h h.
Proof. intros H. split; [exact H | auto]. Qed.

Lemma grown_trans h0 h1 h2 h3 : grown h0 h1 h2 -> grown h0 h2 h3 -> grown h0 h1 h3.
Proof. intros [_ H1] [H2 H3]. split; [exact H2 | auto]. Qed.

Lemma grown_log h0 h o : preserved h0 h -> grown h0 h (h_log h o).
Proof. intros H. split; [now apply preserved_log | auto]. Qed.

Lemma grown_alloc h0 h sh d :
  preserved h0 h -> grown h0 h (h_alloc h sh d) /\ newobj h0 (h_alloc h sh d) (next_obj h).
Proof.
  intros H. pose proof H as (_ & _ & Ho & Hb & _).
  assert (Hnew : owned h0 (h_alloc h sh d) (next_obj h)).
  { intros o. cbn [objs h_alloc]. rewrite upd_same. intros E. inversion E. cbn [a_buf]. exact Hb. }
  split; [split|split].
  - now apply preserved_alloc.
  - intros a Ha o. cbn [objs h_alloc]. unfold upd.
    destruct (Nat.eqb_spec a (next_obj h)) as [->|Hne]; [|apply Ha].
    intros E. inversion E. cbn [a_buf]. exact Hb.
  - exact Ho.
  - exact Hnew.
Qed.

Lemma grown_reshape h0 h a o sh :
  preserved h0 h -> (next_obj h0 <= a)%nat -> objs h a = Some o ->
  grown h0 h (h_reshape h a (a_buf o) sh).
Proof.
  intros H Ha Ho. split; [now apply preserved_reshape|].
  intros a' Ha' o'. cbn [objs h_reshape]. unfold upd.
  destruct (Nat.eqb_spec a' a) as [->|Hne]; [|apply Ha'].
  intros E. inversion E. cbn [a_buf]. now apply Ha'.
Qed.

Lemma grown_write h0 h b d :
  preserved h0 h -> (next_buf h0 <= b)%nat -> grown h0 h (h_write h b d).
Proof. intros H Hb. split; [now apply preserved_write | auto]. Qed.

(** Every outcome of the primitives. *)
Lemma read_heap a h : snd (read a h) = h.
Proof. unfold read. destruct (objs h a) as [o|]; [destruct (bufs h (a_buf o))|]; reflexivity. Qed.

Lemma read_cases a h :
  (exists v, read a h = (Ok v, h)) \/ (exists e, read a h = (Raise e, h)).
Proof.
  unfold read. destruct (objs h a) as [o|]; [destruct (bufs h (a_buf o))|]; eauto.
Qed.

Lemma set_shape_cases a sh h :
  (exists e, set_shape a sh h = (Raise e, h))
  \/ (exists o, objs h a = Some o /\ set_shape a sh h = (Ok tt, h_reshape h a (a_buf o) sh)).
Proof.
  unfold set_shape. destruct (objs h a) as [o|] eqn:Eo; [|eauto].
  destruct (bufs h (a_buf o)); [|eauto].
  destruct (Nat.eqb _ _); [|eauto].
  destruct (inplace_ok _ _ _); [|eauto].
  right. exists o. split; reflexivity.
Qed.

Lemma iadd_cases a b h :
  (exists e, iadd a b h = (Raise e, h))
  \/ (exists o d, objs h a = Some o /\ iadd a b h = (Ok tt, h_write h (a_buf o) d)).
Proof.
  unfold iadd. destruct (objs h a) as [o|] eqn:Eo; [|eauto].
  destruct (read a h) as [[[sa da]|e] h1]; [|eauto].
  destruct (read b h) as [[[sb db]|e] h2]; [|eauto].
  destruct (shape_eqb sa sb); [|eauto].
  right. exists o, (vadd da db). split; reflexivity.
Qed.

Lemma allocates_new sh d : allocates (new_array sh d).
Proof. intros h. right. exists sh, d. reflexivity. Qed.

Lemma allocates_raise e : allocates (raise nat e).
Proof. intros h. left. exists e. reflexivity. Qed.

Lemma allocates_read a (f : list nat * list R -> M nat) :
  (forall v, allocates (f v)) -> allocates (rx <- read a ;; f rx).
Proof.
  intros Hf h. unfold bind. destruct (read_cases a h) as [[v ->]|[e ->]]; [apply Hf | eauto].
Qed.

Lemma allocates_binop f a b : allocates (binop f a b).
Proof.
  unfold binop. apply allocates_read. intros ra. apply allocates_read. intros rb.
  destruct (shape_eqb _ _); [apply allocates_new | apply allocates_raise].
Qed.

Lemma allocates_scalar_mul k a : allocates (scalar_mul k a).
Proof. unfold scalar_mul. apply allocates_read. intros ra. apply allocates_new. Qed.

Lemma allocates_sub_val a b2 : allocates (sub_val a b2).
Proof.
  destruct b2 as [b|]; cbn [sub_val]; [apply allocates_binop|].
  apply allocates_read. intros ra. apply allocates_new.
Qed.

Lemma allocates_einsum ck x : allocates (einsum ck x).
Proof.
  unfold einsum. apply allocates_read. intros rx.
  destruct (fst rx) as [|m [|fin [|n [|? ?]]]]; try apply allocates_raise.
  destruct (forallb _ _); [apply allocates_new | apply allocates_raise].
Qed.

Lemma allocates_rmul L x : allocates (rmul L x).
Proof.
  unfold rmul. apply allocates_read. intros rx.
  destruct (fst rx) as [|r [|n [|? ?]]]; try apply allocates_raise.
  destruct L as [L|L].
  - destruct (Nat.eqb _ _); [apply allocates_new | apply allocates_raise].
  - destruct (broadcast2 _ _ _ _ _ _ _) as [[[r' c'] y]|e];
      [apply allocates_new | apply allocates_raise].
Qed.

Lemma allocates_frame h0 (m : M nat) h r h' :
  allocates m -> preserved h0 h -> m h = (r, h') ->
  grown h0 h h' /\ forall v, r = Ok v -> newobj h0 h' v.
Proof.
  intros Hm Hp E. destruct (Hm h) as [[e E']|(sh & d & E')]; rewrite E' in E; inversion E; subst.
  - split; [now apply grown_refl | discriminate].
  - destruct (grown_alloc h0 h sh d Hp) as [Hg Hn].
    split; [exact Hg|]. intros v Hv. inversion Hv. subst. exact Hn.
Qed.

Lemma set_shape_frame h0 a sh h r h' :
  preserved h0 h -> (next_obj h0 <= a)%nat -> set_shape a sh h = (r, h') -> grown h0 h h'.
Proof.
  intros Hp Ha E. destruct (set_shape_cases a sh h) as [[e E']|(o & Ho & E')];
    rewrite E' in E; inversion E; subst.
  - now apply grown_refl.
  - now apply grown_reshape.
Qed.

Lemma iadd_frame h0 a b h r h' :
  preserved h0 h -> owned h0 h a -> iadd a b h = (r, h') -> grown h0 h h'.
Proof.
  intros Hp Ha E. destruct (iadd_cases a b h) as [[e E']|(o & d & Ho & E')];
    rewrite E' in E; inversion E; subst.
  - now apply grown_refl.
  - apply grown_write; [exact Hp | now apply Ha].
Qed.

(** The helpers [mult] and [dot]. *)
Lemma rec_mult_frame h0 Mb Fin N ck x h r h' :
  preserved h0 h -> (next_obj h0 <= x)%nat -> rec_mult Mb Fin N ck x h = (r, h') ->
  grown h0 h h' /\ forall v, r = Ok v -> newobj h0 h' v.
Proof.
  intros Hp Hx E. unfold rec_mult, bind in E. rewrite log_run in E.
  destruct (set_shape x [Mb; Fin; N] (h_log h OpMult)) as [[[]|e] h1] eqn:E1.
  - pose proof (set_shape_frame h0 _ _ _ _ _ (preserved_log _ _ _ Hp) Hx E1) as G1.
    destruct (allocates_frame h0 _ h1 r h' (allocates_einsum ck x) (proj1 G1) E) as [G2 Hn].
    split; [|exact Hn].
    apply (grown_trans h0 h (h_log h OpMult)); [now apply grown_log|].
    now apply (grown_trans h0 _ h1).
  - pose proof (set_shape_frame h0 _ _ _ _ _ (preserved_log _ _ _ Hp) Hx E1) as G1.
    inversion E; subst. split; [|discriminate].
    apply (grown_trans h0 h (h_log h OpMult)); [now apply grown_log | exact G1].
Qed.

Lemma rec_dot_frame h0 Mb Fin N L x h r h' :
  preserved h0 h -> (next_obj h0 <= x)%nat -> rec_dot Mb Fin N L x h = (r, h') ->
  grown h0 h h' /\ forall v, r = Ok v -> newobj h0 h' v.
Proof.
  intros Hp Hx E. unfold rec_dot, bind in E. rewrite log_run in E.
  destruct (set_shape x [(Mb * Fin)%nat; N] (h_log h OpDot)) as [[[]|e] h1] eqn:E1.
  - pose proof (set_shape_frame h0 _ _ _ _ _ (preserved_log _ _ _ Hp) Hx E1) as G1.
    destruct (allocates_frame h0 _ h1 r h' (allocates_rmul L x) (proj1 G1) E) as [G2 Hn].
    split; [|exact Hn].
    apply (grown_trans h0 h (h_log h OpDot)); [now apply grown_log|].
    now apply (grown_trans h0 _ h1).
  - pose proof (set_shape_frame h0 _ _ _ _ _ (preserved_log _ _ _ Hp) Hx E1) as G1.
    inversion E; subst. split; [|discriminate].
    apply (grown_trans h0 h (h_log h OpDot)); [now apply grown_log | exact G1].
Qed.

Lemma clen_mult_frame h0 ck x h r h' :
  preserved h0 h -> clen_mult ck x h = (r, h') ->
  grown h0 h h' /\ forall v, r = Ok v -> newobj h0 h' v.
Proof.
  intros Hp E. unfold clen_mult, bind in E. rewrite log_run in E.
  destruct (allocates_frame h0 _ _ r h' (allocates_einsum ck x) (preserved_log _ _ OpMult Hp) E)
    as [G2 Hn].
  split; [|exact Hn].
  apply (grown_trans h0 h (h_log h OpMult)); [now apply grown_log | exact G2].
Qed.

Lemma clen_dot_frame h0 Mb Fout N L x h r h' :
  preserved h0 h -> (next_obj h0 <= x)%nat -> clen_dot Mb Fout N L x h = (r, h') ->
  grown h0 h h' /\ forall v, r = Ok v -> newobj h0 h' v.
Proof.
  intros Hp Hx E. unfold clen_dot, bind in E. rewrite log_run in E.
  assert (G0 : grown h0 h (h_log h OpDot)) by now apply grown_log.
  destruct (set_shape x [(Mb * Fout)%nat; N] (h_log h OpDot)) as [[[]|e] h1] eqn:E1;
    pose proof (set_shape_frame h0 _ _ _ _ _ (proj1 G0) Hx E1) as G1;
    pose proof (grown_trans h0 _ _ _ G0 G1) as G01;
    [|inversion E; subst; split; [exact G01 | discriminate]].
  destruct (rmul L x h1) as [[y|e] h2] eqn:E2;
    destruct (allocates_frame h0 _ h1 _ h2 (allocates_rmul L x) (proj1 G1) E2) as [G2 Hn];
    pose proof (grown_trans h0 _ _ _ G01 G2) as G02;
    [|inversion E; subst; split; [exact G02 | discriminate]].
  destruct (Hn y eq_refl) as [Hy Hoy].
  destruct (set_shape x [Mb; Fout; N] h2) as [[[]|e] h3] eqn:E3;
    pose proof (set_shape_frame h0 _ _ _ _ _ (proj1 G02) Hx E3) as G3;
    pose proof (grown_trans h0 _ _ _ G02 G3) as G03;
    [|inversion E; subst; split; [exact G03 | discriminate]].
  destruct (set_shape y [Mb; Fout; N] h3) as [[[]|e] h4] eqn:E4;
    pose proof (set_shape_frame h0 _ _ _ _ _ (proj1 G03) Hy E4) as G4;
    pose proof (grown_trans h0 _ _ _ G03 G4) as G04;
    inversion E; subst; (split; [exact G04 | try discriminate]).
  intros v Hv. inversion Hv. subst. split; [exact Hy|].
  apply (proj2 G4). apply (proj2 G3). exact Hoy.
Qed.

Lemma bind_frame {A B : Type} (m : M A) (f : A -> M B) (h : heap) (P : heap -> Prop) :
  (forall r h1, m h = (r, h1) -> P h1 /\ forall v, r = Ok v -> P (snd (f v h1))) ->
  P (snd (bind m f h)).
Proof.
  intros H. unfold bind. destruct (m h) as [[v|e] h1] eqn:E;
    destruct (H _ _ eq_refl) as [H1 H2]; [now apply H2 | exact H1].
Qed.

Lemma lift_frame {A B : Type} (r : result A) (f : A -> M B) (h : heap) (P : heap -> Prop) :
  P h -> (forall v, r = Ok v -> P (snd (f v h))) -> P (snd (bind (lift r) f h)).
Proof.
  intros H1 H2. unfold bind, lift. destruct r as [v|e]; [now apply H2 | exact H1].
Qed.

Lemma rec_loop_frame h0 coef Mb Fin N L ks :
  forall h res x0 x1,
    preserved h0 h -> owned h0 h res ->
    (next_obj h0 <= res)%nat -> (next_obj h0 <= x0)%nat -> (next_obj h0 <= x1)%nat ->
    preserved h0 (snd (rec_loop coef Mb Fin N L ks res x0 x1 h)).
Proof.
  induction ks as [|k ks IH]; intros h res x0 x1 Hp Hres Hr Hx0 Hx1; [exact Hp|].
  cbn [rec_loop].
  apply bind_frame. intros r1 h1 E1.
  destruct (rec_dot_frame h0 _ _ _ _ _ _ _ _ Hp Hx1 E1) as [G1 N1].
  split; [exact (proj1 G1)|]. intros d ->. destruct (N1 d eq_refl) as [Hd _].
  apply bind_frame. intros r2 h2 E2.
  destruct (allocates_frame h0 _ _ _ _ (allocates_scalar_mul 2 d) (proj1 G1) E2) as [G2 N2].
  split; [exact (proj1 G2)|]. intros d2 ->.
  apply bind_frame. intros r3 h3 E3.
  destruct (allocates_frame h0 _ _ _ _ (allocates_binop Rminus d2 x0) (proj1 G2) E3) as [G3 N3].
  split; [exact (proj1 G3)|]. intros x2 ->. destruct (N3 x2 eq_refl) as [Hx2 _].
  apply lift_frame; [exact (proj1 G3)|]. intros ck _.
  apply bind_frame. intros r4 h4 E4.
  destruct (rec_mult_frame h0 _ _ _ _ _ _ _ _ (proj1 G3) Hx2 E4) as [G4 N4].
  split; [exact (proj1 G4)|]. intros m ->.
  assert (Hres4 : owned h0 h4 res).
  { apply (proj2 G4), (proj2 G3), (proj2 G2), (proj2 G1). exact Hres. }
  apply bind_frame. intros r5 h5 E5.
  pose proof (iadd_frame h0 _ _ _ _ _ (proj1 G4) Hres4 E5) as G5.
  split; [exact (proj1 G5)|]. intros [] _.
  apply IH; try assumption; [exact (proj1 G5) | apply (proj2 G5); exact Hres4].
Qed.

Lemma view_frame h0 a h r h' :
  preserved h0 h -> view a h = (r, h') ->
  preserved h0 h' /\ forall v, r = Ok v -> (next_obj h0 <= v)%nat.
Proof.
  intros Hp E. unfold view in E. destruct (objs h a) as [o|]; inversion E; subst.
  - split.
    + destruct Hp as (H1 & H2 & H3 & H4 & H5). repeat split;
        cbn [objs bufs buf_layout buf_dtype next_obj next_buf]; intros;
        try rewrite upd_other by lia; auto; now apply H5.
    + intros v Hv. inversion Hv. destruct Hp as (_ & _ & H3 & _). lia.
  - split; [exact Hp | discriminate].
Qed.

Lemma filter_recursive_frame self L s h :
  preserved h (snd (_filter_recursive self L s h)).
Proof.
  assert (Hp : preserved h h) by apply preserved_refl.
  unfold _filter_recursive.
  apply bind_frame. intros r0 h0' E0.
  assert (h0' = h) as ->.
  { unfold get_coefficients in E0. destruct (_coefficients self); inversion E0; reflexivity. }
  split; [exact Hp|]. intros c _.
  apply lift_frame; [exact Hp|]. intros [[K Fout] cFin] _.
  apply bind_frame. intros r1 h1 E1.
  assert (h1 = h) as -> by (rewrite <- (read_heap s h), E1; reflexivity).
  split; [exact Hp|]. intros rs _.
  apply lift_frame; [exact Hp|]. intros [[Mb Fin] N] _.
  apply bind_frame. intros r2 h2 E2.
  destruct (view_frame h _ _ _ _ Hp E2) as [Hp2 N2].
  split; [exact Hp2|]. intros x0 ->. pose proof (N2 x0 eq_refl) as Hx0.
  apply lift_frame; [exact Hp2|]. intros c0 _.
  apply bind_frame. intros r3 h3 E3.
  destruct (rec_mult_frame h _ _ _ _ _ _ _ _ Hp2 Hx0 E3) as [G3 N3].
  split; [exact (proj1 G3)|]. intros res ->. destruct (N3 res eq_refl) as [Hres Hores].
  apply bind_frame. intros r4 h4 E4.
  assert (Hp4 : preserved h h4).
  { destruct (Nat.ltb 1 K).
    - replace h4 with (snd ((x1 <- rec_dot Mb Fin N L x0 ;;
                             c1 <- lift (coef_at K Fout cFin (nd_data c) 1%nat) ;;
                             m <- rec_mult Mb Fin N c1 x1 ;;
                             iadd res m ;;;
                             rec_loop (coef_at K Fout cFin (nd_data c)) Mb Fin N L
                               (seq 2 (K - 2)) res x0 x1) h3))
        by (rewrite E4; reflexivity).
      apply bind_frame. intros r5 h5 E5.
      destruct (rec_dot_frame h _ _ _ _ _ _ _ _ (proj1 G3) Hx0 E5) as [G5 N5].
      split; [exact (proj1 G5)|]. intros x1 ->. destruct (N5 x1 eq_refl) as [Hx1 _].
      apply lift_frame; [exact (proj1 G5)|]. intros c1 _.
      apply bind_frame. intros r6 h6 E6.
      destruct (rec_mult_frame h _ _ _ _ _ _ _ _ (proj1 G5) Hx1 E6) as [G6 N6].
      split; [exact (proj1 G6)|]. intros m ->.
      assert (Hres6 : owned h h6 res) by (apply (proj2 G6), (proj2 G5); exact Hores).
      apply bind_frame. intros r7 h7 E7.
      pose proof (iadd_frame h _ _ _ _ _ (proj1 G6) Hres6 E7) as G7.
      split; [exact (proj1 G7)|]. intros [] _.
      apply rec_loop_frame; try assumption; [exact (proj1 G7) | apply (proj2 G7); exact Hres6].
    - unfold ret in E4. inversion E4. subst. exact (proj1 G3). }
  split; [exact Hp4|]. intros u _. exact Hp4.
Qed.

Lemma clen_loop_frame h0 coef Mb Fout N L s ks :
  forall h b1 b2,
    preserved h0 h -> (next_obj h0 <= b1)%nat ->
    preserved h0 (snd (clen_loop coef Mb Fout N L s ks b1 b2 h))
    /\ forall bb, fst (clen_loop coef Mb Fout N L s ks b1 b2 h) = Ok bb ->
                  (next_obj h0 <= fst bb)%nat.
Proof.
  induction ks as [|k ks IH]; intros h b1 b2 Hp Hb1.
  - cbn [clen_loop]. unfold ret. cbn [fst snd]. split; [exact Hp|].
    intros bb E. inversion E. exact Hb1.
  - cbn [clen_loop]. unfold bind, lift.
    destruct (coef k) as [ck|e]; [|cbn [fst snd]; split; [exact Hp | intros ? ?; discriminate]].
    destruct (clen_mult ck s h) as [[m|e] h1] eqn:E1;
      destruct (clen_mult_frame h0 _ _ _ _ _ Hp E1) as [G1 N1];
      [|cbn [fst snd]; split; [exact (proj1 G1) | intros ? ?; discriminate]].
    destruct (clen_dot Mb Fout N L b1 h1) as [[d|e] h2] eqn:E2;
      destruct (clen_dot_frame h0 _ _ _ _ _ _ _ _ (proj1 G1) Hb1 E2) as [G2 N2];
      [|cbn [fst snd]; split; [exact (proj1 G2) | intros ? ?; discriminate]].
    destruct (scalar_mul 2 d h2) as [[d2|e] h3] eqn:E3;
      destruct (allocates_frame h0 _ _ _ _ (allocates_scalar_mul 2 d) (proj1 G2) E3) as [G3 N3];
      [|cbn [fst snd]; split; [exact (proj1 G3) | intros ? ?; discriminate]].
    destruct (binop Rplus m d2 h3) as [[t|e] h4] eqn:E4;
      destruct (allocates_frame h0 _ _ _ _ (allocates_binop Rplus m d2) (proj1 G3) E4) as [G4 N4];
      [|cbn [fst snd]; split; [exact (proj1 G4) | intros ? ?; discriminate]].
    destruct (sub_val t b2 h4) as [[b|e] h5] eqn:E5;
      destruct (allocates_frame h0 _ _ _ _ (allocates_sub_val t b2) (proj1 G4) E5) as [G5 N5];
      [|cbn [fst snd]; split; [exact (proj1 G5) | intros ? ?; discriminate]].
    apply IH; [exact (proj1 G5) | exact (proj1 (N5 b eq_refl))].
Qed.

Lemma filter_clenshaw_frame self L s h :
  preserved h (snd (_filter_clenshaw self L s h)).
Proof.
  assert (Hp : preserved h h) by apply preserved_refl.
  unfold _filter_clenshaw.
  apply bind_frame. intros r0 h0' E0.
  assert (h0' = h) as ->.
  { unfold get_coefficients in E0. destruct (_coefficients self); inversion E0; reflexivity. }
  split; [exact Hp|]. intros c _.
  apply lift_frame; [exact Hp|]. intros [[K Fout] cFin] _.
  apply bind_frame. intros r1 h1 E1.
  assert (h1 = h) as -> by (rewrite <- (read_heap s h), E1; reflexivity).
  split; [exact Hp|]. intros rs _.
  apply lift_frame; [exact Hp|]. intros [[Mb Fin] N] _.
  apply bind_frame. intros r2 h2 E2.
  assert (H2 : grown h h h2 /\ forall v, r2 = Ok v -> newobj h h2 v).
  { destruct (Nat.leb 2 K).
    - unfold bind, lift in E2.
      destruct (coef_at K Fout cFin (nd_data c) (K - 1)) as [ck|e].
      + exact (clen_mult_frame h _ _ _ _ _ Hp E2).
      + inversion E2; subst. split; [now apply grown_refl | discriminate].
    - exact (allocates_frame h _ _ _ _ (allocates_new _ _) Hp E2). }
  destruct H2 as [G2 N2].
  split; [exact (proj1 G2)|]. intros b1 ->. destruct (N2 b1 eq_refl) as [Hb1 _].
  destruct (clen_loop_frame h (coef_at K Fout cFin (nd_data c)) Mb Fout N L s
              (rev (seq 1 (K - 2))) h2 b1 None (proj1 G2) Hb1) as [Hp3 N3].
  apply bind_frame. intros r3 h3 E3.
  rewrite E3 in Hp3, N3. cbn [fst snd] in Hp3, N3.
  split; [exact Hp3|]. intros bb ->. pose proof (N3 bb eq_refl) as Hbb.
  apply lift_frame; [exact Hp3|]. intros c0 _.
  apply bind_frame. intros r4 h4 E4.
  destruct (clen_mult_frame h _ _ _ _ _ Hp3 E4) as [G4 N4].
  split; [exact (proj1 G4)|]. intros m ->.
  apply bind_frame. intros r5 h5 E5.
  destruct (clen_dot_frame h _ _ _ _ _ _ _ _ (proj1 G4) Hbb E5) as [G5 N5].
  split; [exact (proj1 G5)|]. intros d ->.
  apply bind_frame. intros r6 h6 E6.
  destruct (allocates_frame h _ _ _ _ (allocates_binop Rplus m d) (proj1 G5) E6) as [G6 N6].
  split; [exact (proj1 G6)|]. intros t ->.
  destruct (sub_val t (snd bb) h6) as [r7 h7] eqn:E7.
  destruct (allocates_frame h _ _ _ _ (allocates_sub_val t (snd bb)) (proj1 G6) E7) as [G7 _].
  exact (proj1 G7).
Qed.

(** Whatever [_filter] returns or raises, on any object, graph, signal and
    method name, everything the store held before the call is as it was. *)
Lemma filter_frame self s method h : preserved h (snd (_filter self s method h)).
Proof.
  unfold _filter. apply lift_frame; [apply preserved_refl|]. intros L _.
  destruct (lookup_filter (default_method method)) as [f|] eqn:Ef;
    [|apply preserved_refl].
  destruct (lookup_filter_cases _ _ Ef) as [-> | ->].
  - pose proof (filter_recursive_frame self L s h) as H.
    destruct (_filter_recursive self L s h) as [r h']. exact H.
  - pose proof (filter_clenshaw_frame self L s h) as H.
    destruct (_filter_clenshaw self L s h) as [r h']. exact H.
Qed.

(** ** The claims on [filter] *)

Lemma is_tensor3_111 (v : R) : is_tensor3 1 1 1 [[[v]]].
Proof. repeat constructor. Qed.

Lemma is_mat_11 (v : R) : is_mat 1 1 [[v]].
Proof. repeat constructor. Qed.

Lemma symmetric_11 (v : R) : symmetric [[v]].
Proof. intros [|[|i]] [|[|j]]; reflexivity. Qed.

Lemma heap1_signal : arr_in heap1 0 0 [1; 1; 1]%nat (data [[[5]]]).
Proof. repeat split; cbn; lia. Qed.

Lemma heap_of_at (l : layout) (dt : dtype) (sh : list nat) (d : list R) :
  arr_at (heap_of l dt sh d) 0 0 sh d.
Proof. repeat split; cbn; lia. Qed.

Lemma heap_of_in (dt : dtype) (sh : list nat) (d : list R) :
  arr_in (heap_of Contiguous dt sh d) 0 0 sh d.
Proof. repeat split; cbn; lia. Qed.

Lemma G_pair_mat : is_mat 2 2 (G_L G_pair).
Proof. repeat constructor. Qed.

Lemma G_pair_symmetric : symmetric (G_L G_pair).
Proof. intros [|[|i]] [|[|[|j]]]; try reflexivity; destruct i; reflexivity. Qed.

Lemma c_322_tensor : is_tensor3 3 2 2 c_322.
Proof. repeat constructor. Qed.

Lemma s_222_tensor : is_tensor3 2 2 2 s_222.
Proof. repeat constructor. Qed.

(** Calls on concrete stores are run by evaluation, the operations on the
    reals left as they are. *)
Ltac run_call := cbv -[IZR Rdiv Rminus Rinv Rplus Rmult Ropp].

Ltac same_reals := repeat (f_equal; try lra).

(** A batch whose three axes lie apart in memory, as after a transposition:
    "recursive" stops at the first [dot], where [x.shape = (M * Fin, N)]
    cannot be done in place, and "clenshaw", which reshapes only arrays of
    its own, returns. *)
Lemma strided_recursive_raises :
  returned (_filter (self_of G_pair [2; 1; 2]%nat [1; 1; 1; 1]) 0 (Some "recursive"%string))
           (heap_of (Blocks [2; 2; 2]%nat) float64 [2; 2; 2]%nat (data s_222))
  = Raise ValueError.
Proof. vm_compute. reflexivity. Qed.

Lemma strided_clenshaw_returns :
  returned (_filter (self_of G_pair [2; 1; 2]%nat [1; 1; 1; 1]) 0 (Some "clenshaw"%string))
           (heap_of (Blocks [2; 2; 2]%nat) float64 [2; 2; 2]%nat (data s_222))
  = Ok ([2; 1; 2]%nat, [-2; 2; -2; 2]).
Proof. run_call. same_reals. Qed.

(** A dense Laplacian: [L.__rmul__(x)] multiplies element by element.  On
    one signal with two features on two nodes the shapes fit and "recursive"
    returns numbers that are not those of the formula; in "clenshaw" the
    product of the [(1, 2)] array [b1] with [L] is broadcast to [(2, 2)] and
    cannot be given the shape [(1, 1, 2)]. *)
Lemma dense_recursive_returns :
  returned (_filter (self_of G_dense [2; 1; 2]%nat [1; 1; 1; 1]) 0 (Some "recursive"%string))
           (heap_of Contiguous float64 [1; 2; 2]%nat [1; 2; 3; 4])
  = Ok ([1; 1; 2]%nat, [1; 4]).
Proof. run_call. same_reals. Qed.

Lemma dense_clenshaw_raises :
  returned (_filter (self_of G_dense [2; 1; 2]%nat [1; 1; 1; 1]) 0 (Some "clenshaw"%string))
           (heap_of Contiguous float64 [1; 2; 2]%nat [1; 2; 3; 4])
  = Raise ValueError.
Proof. vm_compute. reflexivity. Qed.

Lemma dense_formula :
  data (filtered (rescaled (G_lmax G_dense) 2 (G_L G_dense)) 2 1 2 2
          [[[1; 1]]; [[1; 1]]] [[[1; 2]; [3; 4]]])
  = [-2; 2].
Proof. run_call. same_reals. Qed.

(** A Laplacian that is not symmetric: the code multiplies the signal, a
    row, by [L'] from the right. *)
Lemma directed_recursive_returns :
  returned (_filter (self_of G_directed [2; 1; 1]%nat [0; 1]) 0 (Some "recursive"%string))
           (heap_of Contiguous float64 [1; 1; 2]%nat [1; 0])
  = Ok ([1; 1; 2]%nat, [0; 2]).
Proof. run_call. same_reals. Qed.

Lemma directed_formula :
  data (filtered (rescaled (G_lmax G_directed) 2 (G_L G_directed)) 2 1 1 2
          [[[0]]; [[1]]] [[[1; 0]]])
  = [0; 0].
Proof. run_call. same_reals. Qed.

(** C1, as stated, fails on three kinds of input.  On a signal that is not
    contiguous the call raises [ValueError].  On a dense Laplacian it
    returns [[1; 4]] where the formula gives [[-2; 2]].  On a Laplacian that
    is not symmetric it returns [[0; 2]], the product of the signal with
    [L'] from the right, where the formula, with [L'] applied to the signal,
    gives [[0; 0]]. *)
Lemma C1_recursive_formula_fails :
  returned (_filter (self_of G_pair [2; 1; 2]%nat [1; 1; 1; 1]) 0 (Some "recursive"%string))
           (heap_of (Blocks [2; 2; 2]%nat) float64 [2; 2; 2]%nat (data s_222))
  = Raise ValueError
  /\ (returned (_filter (self_of G_dense [2; 1; 2]%nat [1; 1; 1; 1]) 0
                  (Some "recursive"%string))
               (heap_of Contiguous float64 [1; 2; 2]%nat [1; 2; 3; 4])
      = Ok ([1; 1; 2]%nat, [1; 4])
      /\ data (filtered (rescaled (G_lmax G_dense) 2 (G_L G_dense)) 2 1 2 2
                 [[[1; 1]]; [[1; 1]]] [[[1; 2]; [3; 4]]])
         = [-2; 2])
  /\ (returned (_filter (self_of G_directed [2; 1; 1]%nat [0; 1]) 0
                  (Some "recursive"%string))
               (heap_of Contiguous float64 [1; 1; 2]%nat [1; 0])
      = Ok ([1; 1; 2]%nat, [0; 2])
      /\ data (filtered (rescaled (G_lmax G_directed) 2 (G_L G_directed)) 2 1 1 2
                 [[[0]]; [[1]]] [[[1; 0]]])
         = [0; 0]).
Proof.
  split; [exact strided_recursive_raises|]. split.
  - split; [exact dense_recursive_returns | exact dense_formula].
  - split; [exact directed_recursive_returns | exact directed_formula].
Qed.



(** C4, as stated, fails on two kinds of input.  On a signal that is not
    contiguous "recursive" raises [ValueError] and "clenshaw" returns; on a
    dense Laplacian "recursive" returns and "clenshaw" raises
    [ValueError]. *)
Lemma C4_methods_disagree :
  (returned (_filter (self_of G_pair [2; 1; 2]%nat [1; 1; 1; 1]) 0 (Some "recursive"%string))
            (heap_of (Blocks [2; 2; 2]%nat) float64 [2; 2; 2]%nat (data s_222))
   = Raise ValueError
   /\ returned (_filter (self_of G_pair [2; 1; 2]%nat [1; 1; 1; 1]) 0
                  (Some "clenshaw"%string))
               (heap_of (Blocks [2; 2; 2]%nat) float64 [2; 2; 2]%nat (data s_222))
      = Ok ([2; 1; 2]%nat, [-2; 2; -2; 2]))
  /\ (returned (_filter (self_of G_dense [2; 1; 2]%nat [1; 1; 1; 1]) 0
                  (Some "recursive"%string))
               (heap_of Contiguous float64 [1; 2; 2]%nat [1; 2; 3; 4])
      = Ok ([1; 1; 2]%nat, [1; 4])
      /\ returned (_filter (self_of G_dense [2; 1; 2]%nat [1; 1; 1; 1]) 0
                     (Some "clenshaw"%string))
                  (heap_of Contiguous float64 [1; 2; 2]%nat [1; 2; 3; 4])
         = Raise ValueError).
Proof.
  split.
  - split; [exact strided_recursive_raises | exact strided_clenshaw_returns].
  - split; [exact dense_recursive_returns | exact dense_clenshaw_raises].
Qed.



(** C10: after a call of [_filter], with either method (or any other method
    name), the caller's array is as it was: same header (shape and buffer),
    same contents, same layout.  This holds on every graph, whatever the
    layout of the signal, and whether the call returns or raises: only the
    view and the temporaries made during the call were reshaped or
    written. *)
Theorem C10_filter_leaves_signal_unchanged
    (self : Chebyshev) (s bs : nat) (sh : list nat) (d : list R)
    (method : option string) (h : heap) :
  arr_at h s bs sh d ->
  arr_at (snd (_filter self s method h)) s bs sh d
  /\ objs (snd (_filter self s method h)) s = objs h s
  /\ bufs (snd (_filter self s method h)) bs = bufs h bs
  /\ buf_layout (snd (_filter self s method h)) bs = buf_layout h bs
  /\ preserved h (snd (_filter self s method h)).
Proof.
  intros Hs. pose proof (filter_frame self s method h) as Hp.
  pose proof Hs as (_ & _ & Ha & Hb).
  split; [exact (preserved_arr_at _ _ _ _ _ _ Hs Hp)|].
  pose proof Hp as (Ho & Hbf & _ & _ & Hl).
  split; [now apply Ho|]. split; [now apply Hbf|].
  split; [exact (proj1 (Hl bs Hb)) | exact Hp].
Qed.

Lemma C10_filter_leaves_signal_unchanged_witness :
  arr_at heap_222 0 0 [2; 2; 2]%nat (data s_222)
  /\ arr_at (snd (_filter self_322 0 (Some "recursive"%string) heap_222))
            0 0 [2; 2; 2]%nat (data s_222)
  /\ objs (snd (_filter self_322 0 (Some "recursive"%string) heap_222)) 0%nat
     = objs heap_222 0%nat
  /\ bufs (snd (_filter self_322 0 (Some "recursive"%string) heap_222)) 0%nat
     = bufs heap_222 0%nat
  /\ buf_layout (snd (_filter self_322 0 (Some "recursive"%string) heap_222)) 0%nat
     = buf_layout heap_222 0%nat
  /\ preserved heap_222 (snd (_filter self_322 0 (Some "recursive"%string) heap_222)).
Proof.
  split; [apply heap_of_at|].
  apply (C10_filter_leaves_signal_unchanged self_322 0 0 [2; 2; 2]%nat (data s_222)
           (Some "recursive"%string) heap_222).
  apply heap_of_at.
Defined.


Lemma set_shape_same_at h a b sh d :
  arr_at h a b sh d -> size_of sh = length d ->
  set_shape a sh h = (Ok tt, h_reshape h a b sh).
Proof.
  intros (Ho & Hb & _) Hs. unfold set_shape. rewrite Ho. cbn [a_buf a_shape].
  rewrite Hb, Hs, Nat.eqb_refl.
  assert (E : inplace_ok (buf_layout h b) sh sh = true).
  { unfold inplace_ok. destruct (buf_layout h b); [reflexivity|].
    now rewrite shape_eqb_refl. }
  rewrite E. reflexivity.
Qed.

Lemma einsum_at h x b N s Fin g (ck : mat) (Fout : nat) :
  arr_at h x b [length s; Fin; N] (data (T3 N s Fin g)) ->
  is_mat Fout Fin ck ->
  einsum ck x h
  = (Ok (next_obj h),
     h_alloc h [length s; Fout; N] (data (T3 N s Fout (fun sig o => mix ck Fin (g sig) o)))).
Proof.
  intros Hx Hck. unfold einsum, bind. rewrite (read_at _ _ _ _ _ Hx). cbn [fst snd].
  rewrite (is_mat_forallb Fout Fin ck Hck), new_array_run.
  rewrite unflat_data, unflat_T3, (einsum_T3 ck Fout Fin N s g Hck).
  destruct Hck as [-> _]. reflexivity.
Qed.

Lemma arr_at_reshape_same h a b sh sh' d :
  arr_at h a b sh d -> arr_at (h_reshape h a b sh') a b sh' d.
Proof. intros H. arr_solve. Qed.

Lemma coef_at_single (c0 : R) : coef_at 1 1 1 [c0] 0 = Ok [[c0]].
Proof. reflexivity. Qed.

Lemma single_mix (c0 : R) (N Mb : nat) (s : list mat) (g : mat -> nat -> nat -> R) :
  is_tensor3 Mb 1 N s ->
  (forall sig n, g sig 0%nat n = c0 * entry sig 0 n) ->
  data (T3 N s 1 g) = map (Rmult c0) (data s).
Proof.
  intros Hs Hg. rewrite (tensor_as_T3 Mb 1 N s Hs) at 2. rewrite map_data.
  f_equal. apply T3_ext. intros sig o n _ Ho _.
  assert (o = 0%nat) by lia. subst o. apply Hg.
Qed.

Lemma mix_single (c0 : R) (f : nat -> nat -> R) (n : nat) :
  mix [[c0]] 1 f 0 n = c0 * f 0%nat n.
Proof. unfold mix, entry. cbn [seq map nth]. rewrite rsum_cons, rsum_nil. ring. Qed.

Lemma Aop_zero (L : mat) (N n : nat) : Aop L N (fun _ => 0) n = 0.
Proof. exact (Tf_zero L N 1 n). Qed.

Lemma filter_recursive_single
    (self : Chebyshev) (c0 : R) (L : laplacian) (N Mb : nat) (s : list mat)
    (h : heap) (sobj bs : nat) :
  _coefficients self = Some {| nd_shape := [1; 1; 1]%nat; nd_data := [c0] |} ->
  is_tensor3 Mb 1 N s ->
  arr_at h sobj bs [Mb; 1%nat; N] (data s) ->
  exists r br h',
    _filter_recursive self L sobj h = (Ok r, h')
    /\ arr_in h' r br [Mb; 1%nat; N] (map (Rmult c0) (data s))
    /\ trace h' = trace h ++ [OpMult].
Proof.
  intros Hc Hs Hsobj. pose proof Hs as [HMb _]. subst Mb.
  assert (Hd : data s = data (T3 N s 1 (fun sig i => entry sig i)))
    by (f_equal; exact (tensor_as_T3 _ 1 N s Hs)).
  rewrite Hd in Hsobj.
  unfold _filter_recursive, get_coefficients. rewrite Hc.
  unfold bind at 1. unfold ret at 1. cbn [nd_shape unpack3 lift nd_data].
  unfold bind at 1. cbn [lift]. unfold bind at 1.
  rewrite (read_at _ _ _ _ _ Hsobj). cbn [fst unpack3].
  unfold bind at 1. cbn [lift]. unfold bind at 1.
  rewrite (view_at _ _ _ _ _ Hsobj).
  unfold bind at 1. rewrite coef_at_single. cbn [lift].
  set (h1 := h_view h bs [length s; 1%nat; N]).
  assert (Hx0 : arr_at (h_log h1 OpMult) (next_obj h) bs [length s; 1%nat; N]
                  (data (T3 N s 1 (fun sig i => entry sig i)))).
  { unfold h1. destruct Hsobj as (Ho & Hb & Ha & Hbb). unfold arr_at.
    cbn [objs bufs next_obj next_buf h_log h_view]. rewrite upd_same.
    repeat split; try assumption; lia. }
  unfold bind at 1. unfold rec_mult, bind at 1. rewrite log_run.
  unfold bind at 1.
  rewrite (set_shape_same_at _ _ _ _ _ Hx0) by (now rewrite size_of_3, data_length).
  rewrite (einsum_at _ (next_obj h) bs N s 1 (fun sig i => entry sig i) [[c0]] 1);
    [| now apply arr_at_reshape_same with (sh := [length s; 1%nat; N]) | repeat constructor].
  cbn [Nat.ltb Nat.leb]. unfold bind, ret.
  do 3 eexists. split; [reflexivity|]. split.
  - rewrite <- (single_mix c0 N (length s) s
                  (fun sig o => mix [[c0]] 1 (fun i => entry sig i) o) Hs)
      by (intros; apply mix_single).
    apply arr_in_alloc_new.
  - reflexivity.
Qed.

Lemma filter_clenshaw_single
    (self : Chebyshev) (c0 : R) (L : mat) (N Mb : nat) (s : list mat)
    (h : heap) (sobj bs : nat) :
  _coefficients self = Some {| nd_shape := [1; 1; 1]%nat; nd_data := [c0] |} ->
  is_mat N N L ->
  is_tensor3 Mb 1 N s ->
  arr_at h sobj bs [Mb; 1%nat; N] (data s) ->
  exists r br h',
    _filter_clenshaw self (SparseMatrix L) sobj h = (Ok r, h')
    /\ arr_in h' r br [Mb; 1%nat; N] (map (Rmult c0) (data s))
    /\ trace h' = trace h ++ [OpMult; OpDot].
Proof.
  intros Hc HL Hs Hsobj. pose proof Hs as [HMb _]. subst Mb.
  assert (Hd : data s = data (T3 N s 1 (fun sig i => entry sig i)))
    by (f_equal; exact (tensor_as_T3 _ 1 N s Hs)).
  rewrite Hd in Hsobj.
  unfold _filter_clenshaw, get_coefficients. rewrite Hc.
  unfold bind at 1. unfold ret at 1. cbn [nd_shape unpack3 lift nd_data].
  unfold bind at 1. cbn [lift]. unfold bind at 1.
  rewrite (read_at _ _ _ _ _ Hsobj). cbn [fst unpack3].
  unfold bind at 1. cbn [lift]. cbn [Nat.leb Nat.sub seq rev clen_loop].
  unfold bind at 1. rewrite new_array_run, zeros_data.
  unfold bind at 1. unfold ret at 1. cbn [fst snd].
  unfold bind at 1. rewrite coef_at_single. cbn [lift].
  set (h1 := h_alloc h _ _).
  assert (Hs1 : arr_at (h_log h1 OpMult) sobj bs [length s; 1%nat; N]
                  (data (T3 N s 1 (fun sig i => entry sig i)))).
  { apply arr_at_log. unfold h1. now apply arr_at_alloc_old. }
  unfold bind at 1. unfold clen_mult, bind at 1. rewrite log_run.
  rewrite (einsum_at _ sobj bs N s 1 (fun sig i => entry sig i) [[c0]] 1 Hs1)
    by (repeat constructor).
  set (h2 := h_alloc (h_log h1 OpMult) _ _).
  assert (Hb1 : arr_in h2 (next_obj h) (next_buf h) [length s; 1%nat; N]
                  (data (T3 N s 1 (fun _ _ _ => 0)))).
  { unfold h2. apply arr_in_alloc_old, arr_in_log. unfold h1. apply arr_in_alloc_new. }
  unfold bind at 1.
  rewrite (clen_dot_run' _ _ _ _ N s 1 _ L Hb1 HL).
  set (h3 := h_clen_dot h2 _ _ _ _ _ _).
  assert (Hm : arr_in h3 (next_obj (h_log h1 OpMult)) (next_buf (h_log h1 OpMult))
                 [length s; 1%nat; N]
                 (data (T3 N s 1 (fun sig o => mix [[c0]] 1 (fun i => entry sig i) o)))).
  { unfold h3. apply (clen_dot_keeps _ _ _ _ _ _ _ _ _ _ _ _ Hb1).
    unfold h2. apply arr_in_alloc_new. }
  assert (Hdot : arr_in h3 (next_obj h2) (next_buf h2) [length s; 1%nat; N]
                 (data (T3 N s 1 (fun sig o => Aop L N (fun _ => 0))))).
  { unfold h3. exact (clen_dot_new _ _ _ _ _ _ _ _ Hb1). }
  unfold bind at 1.
  rewrite (binop_run Rplus h3 _ _ _ _ _ _ _ Hm Hdot).
  rewrite zipWith_data.
  set (h4 := h_alloc h3 _ _).
  rewrite (sub_val_none_run h4 (next_obj h3) (next_buf h3) _ _ (arr_in_alloc_new _ _ _)).
  rewrite map_data.
  do 3 eexists. split; [reflexivity|]. split.
  - rewrite <- (single_mix c0 N (length s) s
                  (fun sig o n => mix [[c0]] 1 (fun i => entry sig i) o n
                                  + Aop L N (fun _ => 0) n - 0) Hs).
    + apply arr_in_alloc_new.
    + intros sig n. rewrite mix_single, Aop_zero. ring.
  - unfold h4, h3, h2, h1. cbn [trace h_alloc h_log h_clen_dot h_reshape].
    now rewrite <- app_assoc.
Qed.



(** ** The precision of the signal *)

Lemma bdim_same (n : nat) : bdim n n = Some n.
Proof. unfold bdim. now rewrite Nat.eqb_refl. Qed.

Lemma np_float64_rows (a : typed_array) :
  (2 <= length (t_rows a))%nat ->
  np_float64 a = NpArray {| t_dtype := float64; t_rows := t_rows a |}.
Proof.
  unfold np_float64. destruct (t_rows a) as [|r0 [|r1 rows]]; cbn [length]; intros H; try lia.
  destruct r0 as [|v [|w r0]]; reflexivity.
Qed.

(** When [cheby_op] reaches its recurrence, [twf_old] holds the values of
    the signal; it is of type [float64] if the signal was of type [float32]
    and of the type of the signal otherwise. *)
Lemma cheby_op_start_dtype (G : graph) (c : list (list R)) (signal : typed_array)
    (st : cheby_state) :
  cheby_op_start G c signal = Ok st ->
  t_rows (twf_old st) = t_rows signal
  /\ t_dtype (twf_old st)
     = (if dtype_eqb (t_dtype signal) float32 then float64 else t_dtype signal)
  /\ t_dtype (twf_cur st) = float64.
Proof.
  unfold cheby_op_start.
  destruct (nth_error c 1) as [c1|]; [|discriminate].
  destruct (nth_error _ 2) as [r2|]; [|discriminate].
  destruct (nth_error _ 1) as [r1|]; [|discriminate].
  assert (Hx : forall (x : typed_array) (dt0 : dtype),
             t_rows x = t_rows signal ->
             t_dtype x = dt0 ->
             match laplacian_times G (t_rows x) with
             | Raise e => Raise e
             | Ok (r, n, Lx) =>
                 match broadcast2 Rminus r n Lx (length (t_rows x)) (ncols (t_rows x))
                                  (mscale ((INR r2 + INR r1) / 2) (t_rows x)) with
                 | Raise e => Raise e
                 | Ok (_, _, dif) =>
                     match nth_error (t_rows x) 1 with
                     | None => Raise IndexError
                     | Some row1 =>
                         Ok {| twf_old := x;
                               twf_cur :=
                                 {| t_dtype := float64;
                                    t_rows := map (map (fun v => v / ((INR r2 - INR r1) / 2)))
                                                  dif |};
                               cheby_r := mzeros (G_N G * length c1) (length row1) |}
                     end
                 end
             end = Ok st ->
             t_rows (twf_old st) = t_rows signal
             /\ t_dtype (twf_old st) = dt0
             /\ t_dtype (twf_cur st) = float64).
  { intros x dt0 Hr Hd.
    destruct (laplacian_times G (t_rows x)) as [[[r n] Lx]|e]; [|discriminate].
    destruct (broadcast2 _ _ _ _ _ _ _) as [[[r' n'] dif]|e]; [|discriminate].
    destruct (nth_error (t_rows x) 1) as [row1|]; [|discriminate].
    intros E. inversion E. subst st. cbn [twf_old twf_cur t_dtype]. auto. }
  destruct (dtype_eqb (t_dtype signal) float32) eqn:Ed.
  - unfold np_float64.
    destruct (t_rows signal) as [|[|v [|w r0]] [|r1' rows]] eqn:Er;
      try (apply Hx; [cbn [t_rows]; now rewrite ?Er | reflexivity]).
    destruct (G_issparse G); [destruct (Req_EM_T _ _)|]; discriminate.
  - apply Hx; reflexivity.
Qed.

(** On a sparse Laplacian and a signal with a row per node, on two nodes or
    more, [cheby_op] reaches its recurrence. *)
Lemma cheby_op_start_runs (G : graph) (c : list (list R)) (signal : typed_array) (N Nv : nat) :
  G_issparse G = true ->
  is_mat N N (G_L G) ->
  (2 <= N)%nat ->
  is_mat N Nv (t_rows signal) ->
  (2 <= length c)%nat ->
  3 <= G_lmax G ->
  exists st, cheby_op_start G c signal = Ok st.
Proof.
  intros Hsp HL HN Hs Hc Hl.
  assert (Hrows : forall dt, exists st,
             match laplacian_times G (t_rows signal) with
             | Raise e => Raise e
             | Ok (r, n, Lx) =>
                 match broadcast2 Rminus r n Lx (length (t_rows signal))
                                  (ncols (t_rows signal))
                                  (mscale ((INR 2 + INR 1) / 2) (t_rows signal)) with
                 | Raise e => Raise e
                 | Ok (_, _, dif) =>
                     match nth_error (t_rows signal) 1 with
                     | None => Raise IndexError
                     | Some row1 =>
                         Ok {| twf_old := {| t_dtype := dt; t_rows := t_rows signal |};
                               twf_cur :=
                                 {| t_dtype := float64;
                                    t_rows := map (map (fun v => v / ((INR 2 - INR 1) / 2)))
                                                  dif |};
                               cheby_r := mzeros (G_N G * length (nth 1 c []))
                                                 (length row1) |}
                     end
                 end
             end = Ok st).
  { intros dt. unfold laplacian_times. rewrite Hsp.
    destruct HL as [HLl HLr]. destruct Hs as [Hsl Hsr].
    assert (HcL : ncols (G_L G) = N).
    { destruct (G_L G) as [|r0 L]; cbn [length] in HLl; [lia|].
      cbn [ncols]. inversion HLr. assumption. }
    rewrite HcL, Hsl, Nat.eqb_refl. unfold broadcast2.
    rewrite HLl, !bdim_same.
    destruct (t_rows signal) as [|r0 [|r1 rows]]; cbn [length] in Hsl; try lia.
    cbn [nth_error]. eauto. }
  unfold cheby_op_start.
  destruct (nth_error c 1) as [c1|] eqn:Ec; [|apply nth_error_None in Ec; lia].
  destruct (arange_indices _ (Int_part_large _ Hl)) as [-> ->].
  assert (Hn1 : nth 1 c [] = c1) by (now apply nth_error_nth).
  destruct (dtype_eqb (t_dtype signal) float32) eqn:Ed.
  - rewrite np_float64_rows by (destruct Hs as [-> _]; exact HN).
    cbn [t_rows]. rewrite <- Hn1. apply Hrows.
  - destruct signal as [dt rows]. cbn [t_rows t_dtype] in *. rewrite <- Hn1. apply Hrows.
Qed.

Lemma G_path3_mat : is_mat 3 3 (G_L G_path3).
Proof. repeat constructor. Qed.

(** C8, as stated, fails on both functions it is about.  A half-precision
    signal enters the recurrence of [cheby_op] in half precision.  And
    [_filter] converts nothing: on a single-precision signal the array [x0]
    its recurrence starts from (the object [1], the first the call makes) is
    a view of the caller's buffer, which is single precision before and
    after the call. *)
Lemma C8_float16_not_upcast :
  (exists st, cheby_op_start G_path3 [[1]; [1]] signal16 = Ok st
              /\ t_dtype (twf_old st) = float16)
  /\ (returned (_filter (self_of G_pair [2; 1; 2]%nat [1; 1; 1; 1]) 0
                  (Some "recursive"%string))
               (heap_of Contiguous float32 [2; 2; 2]%nat (data s_222))
      = Ok ([2; 1; 2]%nat, [-2; 2; -2; 2])
      /\ objs (snd (_filter (self_of G_pair [2; 1; 2]%nat [1; 1; 1; 1]) 0
                      (Some "recursive"%string)
                      (heap_of Contiguous float32 [2; 2; 2]%nat (data s_222)))) 1%nat
         = Some {| a_buf := 0; a_shape := [4; 2]%nat |}
      /\ buf_dtype (snd (_filter (self_of G_pair [2; 1; 2]%nat [1; 1; 1; 1]) 0
                           (Some "recursive"%string)
                           (heap_of Contiguous float32 [2; 2; 2]%nat (data s_222)))) 0%nat
         = float32).
Proof.
  split.
  - assert (Hl : 3 <= G_lmax G_path3) by (cbn [G_lmax G_path3]; lra).
    assert (Hc : (2 <= length [[1]; [1]])%nat) by (cbn [length]; lia).
    destruct (cheby_op_start_runs G_path3 [[1]; [1]] signal16 3 1 eq_refl G_path3_mat
                (le_S _ _ (le_n 2)) ltac:(repeat constructor) Hc Hl) as [st E].
    exists st. split; [exact E|].
    now destruct (cheby_op_start_dtype _ _ _ _ E) as (_ & Hd & _).
  - split; [run_call; same_reals|]. split; vm_compute; reflexivity.
Qed.

(** C8 (amended): [cheby_op] reaches its recurrence on a sparse Laplacian of
    two nodes or more with [lmax >= 3] and a signal with a row per node;
    [twf_old] then holds the signal in [float64] if it was supplied in
    [float32], and in the type it was supplied in otherwise.  [_filter]
    converts nothing: [s.view()], from which its recurrence starts, is an
    array over the caller's buffer, and that buffer has the element type it
    had when the call ends. *)
Theorem C8_cheby_op_upcasts_float32
    (G : graph) (c : list (list R)) (signal : typed_array) (N Nv : nat)
    (self : Chebyshev) (s bs : nat) (sh : list nat) (d : list R)
    (method : option string) (h : heap) :
  G_issparse G = true ->
  is_mat N N (G_L G) ->
  (2 <= N)%nat ->
  is_mat N Nv (t_rows signal) ->
  (2 <= length c)%nat ->
  3 <= G_lmax G ->
  arr_at h s bs sh d ->
  (exists st, cheby_op_start G c signal = Ok st
              /\ t_rows (twf_old st) = t_rows signal
              /\ t_dtype (twf_old st)
                 = (if dtype_eqb (t_dtype signal) float32 then float64
                    else t_dtype signal)
              /\ t_dtype (twf_cur st) = float64)
  /\ (exists h1, view s h = (Ok (next_obj h), h1)
                 /\ arr_at h1 (next_obj h) bs sh d
                 /\ buf_dtype h1 bs = buf_dtype h bs)
  /\ buf_dtype (snd (_filter self s method h)) bs = buf_dtype h bs.
Proof.
  intros Hsp HL HN Hs Hc Hl Harr. split; [|split].
  - destruct (cheby_op_start_runs G c signal N Nv Hsp HL HN Hs Hc Hl) as [st E].
    exists st. split; [exact E|]. exact (cheby_op_start_dtype _ _ _ _ E).
  - exists (h_view h bs sh). split; [exact (view_at _ _ _ _ _ Harr)|].
    split; [|reflexivity].
    destruct Harr as (Ho & Hb & Ha & Hbb). unfold arr_at.
    cbn [objs bufs next_obj next_buf h_view]. rewrite upd_same.
    repeat split; try assumption; lia.
  - destruct Harr as (_ & _ & _ & Hbb).
    destruct (filter_frame self s method h) as (_ & _ & _ & _ & Hld).
    exact (proj2 (Hld bs Hbb)).
Qed.

Lemma C8_cheby_op_upcasts_float32_witness :
  (exists st, cheby_op_start G_path3 [[1]; [1]] signal32 = Ok st
              /\ t_rows (twf_old st) = [[1]; [2]; [3]]
              /\ t_dtype (twf_old st) = float64
              /\ t_dtype (twf_cur st) = float64)
  /\ (exists h1, view 0 (heap_of Contiguous float32 [2; 2; 2]%nat (data s_222))
                 = (Ok 1%nat, h1)
                 /\ arr_at h1 1 0 [2; 2; 2]%nat (data s_222)
                 /\ buf_dtype h1 0%nat = float32)
  /\ buf_dtype (snd (_filter self_322 0 (Some "recursive"%string)
                       (heap_of Contiguous float32 [2; 2; 2]%nat (data s_222)))) 0%nat
     = float32.
Proof.
  apply (C8_cheby_op_upcasts_float32 G_path3 [[1]; [1]] signal32 3 1
           self_322 0 0 [2; 2; 2]%nat (data s_222) (Some "recursive"%string)
           (heap_of Contiguous float32 [2; 2; 2]%nat (data s_222))).
  - reflexivity.
  - apply G_path3_mat.
  - lia.
  - repeat constructor.
  - cbn [length]. lia.
  - cbn [G_lmax G_path3]. lra.
  - apply heap_of_at.
Defined.

(** ** Unknown method names *)

Lemma lookup_evaluate_none (method : string) :
  method <> "direct"%string -> method <> "recursive"%string -> method <> "clenshaw"%string ->
  lookup_evaluate method = None.
Proof.
  intros H1 H2 H3. unfold lookup_evaluate.
  apply String.eqb_neq in H1, H2, H3. now rewrite H1, H2, H3.
Qed.

Lemma lookup_filter_none (method : string) :
  method <> "recursive"%string -> method <> "clenshaw"%string ->
  lookup_filter method = None.
Proof.
  intros H2 H3. unfold lookup_filter.
  apply String.eqb_neq in H2, H3. now rewrite H2, H3.
Qed.

Lemma rescale_laplacian_error (G : graph) (e : exn) :
  rescale_laplacian G = Raise e -> e = ValueError.
Proof.
  unfold rescale_laplacian, broadcast2. destruct (G_issparse G).
  - destruct (is_square _ _); [discriminate|]. intros E. now inversion E.
  - destruct (bdim _ _); [destruct (bdim _ _)|]; try discriminate;
      intros E; now inversion E.
Qed.

(** C6: a method name that names no algorithm makes [_evaluate] and
    [_filter] raise [ValueError]; "direct" is such a name for [_filter].  The
    lookup fails before any algorithm is entered: the store, with its log of
    [mult] and [dot] calls, is the one the call started from. *)
Theorem C6_unknown_method_raises
    (self : Chebyshev) (c : ndarray) (method : string) (x : vec) (s : nat) (h : heap) :
  _coefficients self = Some c ->
  (method <> "direct"%string -> method <> "recursive"%string ->
   method <> "clenshaw"%string ->
   lookup_evaluate method = None
   /\ _evaluate self x (Some method) = Raise ValueError)
  /\ (method <> "recursive"%string -> method <> "clenshaw"%string ->
      lookup_filter method = None
      /\ _filter self s (Some method) h = (Raise ValueError, h))
  /\ _filter self s (Some "direct"%string) h = (Raise ValueError, h).
Proof.
  intros Hc.
  assert (Hf : forall m, lookup_filter m = None ->
                         _filter self s (Some m) h = (Raise ValueError, h)).
  { intros m Hm. unfold _filter, bind, lift.
    destruct (rescale_laplacian (self_G self)) as [L'|e] eqn:E.
    - cbn [default_method]. rewrite Hm. reflexivity.
    - now rewrite (rescale_laplacian_error _ _ E). }
  split; [|split].
  - intros H1 H2 H3. pose proof (lookup_evaluate_none method H1 H2 H3) as Hl.
    split; [exact Hl|]. unfold _evaluate. destruct x as [|t x]; [reflexivity|].
    rewrite Hc. destruct (nd_shape c) as [|a [|b [|k [|? ?]]]]; cbn [unpack3]; try reflexivity.
    cbn [default_method]. now rewrite Hl.
  - intros H2 H3. pose proof (lookup_filter_none method H2 H3) as Hl.
    split; [exact Hl | now apply Hf].
  - apply Hf. reflexivity.
Qed.

Lemma C6_unknown_method_raises_witness :
  (lookup_evaluate "bogus" = None
   /\ _evaluate self1 [1] (Some "bogus"%string) = Raise ValueError)
  /\ (lookup_filter "bogus" = None
      /\ _filter self1 0 (Some "bogus"%string) heap1 = (Raise ValueError, heap1))
  /\ _filter self1 0 (Some "direct"%string) heap1 = (Raise ValueError, heap1).
Proof.
  destruct (C6_unknown_method_raises self1 {| nd_shape := [1; 1; 1]%nat; nd_data := [3] |}
              "bogus"%string [1] 0%nat heap1 eq_refl) as (He & Hf & Hd).
  split; [|split].
  - apply He; discriminate.
  - apply Hf; discriminate.
  - exact Hd.
Defined.

(** * Further properties of the code *)

(** ** [_evaluate]: beyond the domain, at its ends, and on degenerate input *)

Lemma evaluate_unfold (self : Chebyshev) (c : ndarray) (K Fout Fin : nat) (t : R) (x : vec)
    (method : string) (f : nat -> list vec -> vec -> result mat) :
  _coefficients self = Some c ->
  nd_shape c = [K; Fout; Fin] ->
  lookup_evaluate method = Some f ->
  _evaluate self (t :: x) (Some method)
  = attr_to_value (f (Fout * Fin)%nat (unflat K (Fout * Fin) (nd_data c))
                     (map (fun t => 2 * t / G_lmax (self_G self) - 1) (t :: x))).
Proof.
  intros Hc Hs Hf. unfold _evaluate. rewrite Hc, Hs. cbn [unpack3 default_method].
  rewrite Hf. reflexivity.
Qed.

Lemma eval_series_shape (F : nat) (c : list vec) (x : vec) :
  length (eval_series F c x) = F
  /\ Forall (fun row => length row = length x) (eval_series F c x).
Proof.
  unfold eval_series, tab. split.
  - now rewrite length_map, length_seq.
  - apply Forall_map, Forall_forall. intros f _. apply length_map.
Qed.

Lemma evaluate_method_series (self : Chebyshev) (c : ndarray) (K Fout Fin : nat) (x : vec)
    (method : string) :
  _coefficients self = Some c ->
  nd_shape c = [S K; Fout; Fin] ->
  length (nd_data c) = (S K * (Fout * Fin))%nat ->
  x <> [] ->
  method = "recursive"%string \/ method = "clenshaw"%string
  \/ (method = "direct"%string
      /\ Forall (fun t => -1 <= 2 * t / G_lmax (self_G self) - 1 <= 1) x) ->
  _evaluate self x (Some method)
  = Ok (eval_series (Fout * Fin) (unflat (S K) (Fout * Fin) (nd_data c))
          (map (fun t => 2 * t / G_lmax (self_G self) - 1) x)).
Proof.
  intros Hc Hs Hd Hx Hm.
  destruct (unflat_is_mat (S K) (Fout * Fin) (nd_data c) Hd) as [_ Hrows].
  destruct x as [|t x]; [now elim Hx|].
  cbn [unflat] in *.
  pose proof (Forall_inv Hrows) as H0. pose proof (Forall_inv_tail Hrows) as Hcs.
  cbv beta in H0.
  destruct Hm as [->|[->|[-> Hdom]]].
  - rewrite (evaluate_unfold self c (S K) Fout Fin t x "recursive"
               (fun _ c x => _evaluate_recursive c x) Hc Hs eq_refl).
    cbn [unflat]. now rewrite (evaluate_recursive_series _ _ _ _ H0 Hcs).
  - rewrite (evaluate_unfold self c (S K) Fout Fin t x "clenshaw"
               (fun _ c x => _evaluate_clenshaw c x) Hc Hs eq_refl).
    cbn [unflat]. now rewrite (evaluate_clenshaw_series _ _ _ _ H0 Hcs).
  - rewrite (evaluate_unfold self c (S K) Fout Fin t x "direct"
               (fun F c x => Ok (_evaluate_direct F c x)) Hc Hs eq_refl).
    cbn [unflat].
    rewrite (evaluate_direct_series _ _ _ _ H0 Hcs); [reflexivity|].
    apply Forall_map. exact Hdom.
Qed.

(** X1: "recursive" and "clenshaw" agree at every point, inside the domain
    [[0, lmax]] or not; both return the [(Fout * Fin, x.size)] array of the
    Chebyshev series. *)
Theorem evaluate_recursive_clenshaw_everywhere
    (self : Chebyshev) (c : ndarray) (K Fout Fin : nat) (x : vec) :
  _coefficients self = Some c ->
  nd_shape c = [S K; Fout; Fin] ->
  length (nd_data c) = (S K * (Fout * Fin))%nat ->
  x <> [] ->
  exists y,
    _evaluate self x (Some "recursive"%string) = Ok y
    /\ _evaluate self x (Some "clenshaw"%string) = Ok y
    /\ y = eval_series (Fout * Fin) (unflat (S K) (Fout * Fin) (nd_data c))
             (map (fun t => 2 * t / G_lmax (self_G self) - 1) x)
    /\ length y = (Fout * Fin)%nat
    /\ Forall (fun row => length row = length x) y.
Proof.
  intros Hc Hs Hd Hx. eexists.
  rewrite (evaluate_method_series self c K Fout Fin x "recursive" Hc Hs Hd Hx)
    by (left; reflexivity).
  rewrite (evaluate_method_series self c K Fout Fin x "clenshaw" Hc Hs Hd Hx)
    by (right; left; reflexivity).
  split; [reflexivity|]. split; [reflexivity|]. split; [reflexivity|].
  pose proof (eval_series_shape (Fout * Fin) (unflat (S K) (Fout * Fin) (nd_data c))
                (map (fun t => 2 * t / G_lmax (self_G self) - 1) x)) as [Hl Hf].
  split; [exact Hl|]. rewrite length_map in Hf. exact Hf.
Qed.

Lemma evaluate_recursive_clenshaw_everywhere_witness :
  exists y,
    _evaluate self_example [7] (Some "recursive"%string) = Ok y
    /\ _evaluate self_example [7] (Some "clenshaw"%string) = Ok y
    /\ y = eval_series (1 * 1) (unflat 3 (1 * 1) [1; 2; 3])
             (map (fun t => 2 * t / G_lmax (self_G self_example) - 1) [7])
    /\ length y = (1 * 1)%nat
    /\ Forall (fun row => length row = length [7]) y.
Proof.
  apply (evaluate_recursive_clenshaw_everywhere self_example
           {| nd_shape := [3; 1; 1]%nat; nd_data := [1; 2; 3] |} 2 1 1 [7]).
  - reflexivity.
  - reflexivity.
  - reflexivity.
  - discriminate.
Defined.

(** X2: on an empty coefficient tensor (shape [(0, Fout, Fin)]) the methods
    part ways: "direct" returns zeros, "recursive" and "clenshaw" stop with
    [IndexError] at [c[0]]. *)
Theorem evaluate_empty_coefficients
    (self : Chebyshev) (c : ndarray) (Fout Fin : nat) (x : vec) :
  _coefficients self = Some c ->
  nd_shape c = [0%nat; Fout; Fin] ->
  x <> [] ->
  _evaluate self x (Some "direct"%string) = Ok (mzeros (Fout * Fin) (length x))
  /\ _evaluate self x (Some "recursive"%string) = Raise IndexError
  /\ _evaluate self x (Some "clenshaw"%string) = Raise IndexError
  /\ _evaluate self x None = Raise IndexError.
Proof.
  intros Hc Hs Hx. destruct x as [|t x]; [now elim Hx|].
  rewrite (evaluate_unfold self c 0 Fout Fin t x "direct"
             (fun F c x => Ok (_evaluate_direct F c x)) Hc Hs eq_refl).
  rewrite (evaluate_unfold self c 0 Fout Fin t x "recursive"
             (fun _ c x => _evaluate_recursive c x) Hc Hs eq_refl).
  rewrite (evaluate_unfold self c 0 Fout Fin t x "clenshaw"
             (fun _ c x => _evaluate_clenshaw c x) Hc Hs eq_refl).
  split; [|split; [reflexivity | split; [reflexivity|]]].
  - cbn [unflat attr_to_value]. unfold _evaluate_direct. cbn [fold_left fst].
    now rewrite length_map.
  - unfold _evaluate. rewrite Hc, Hs. reflexivity.
Qed.

Lemma evaluate_empty_coefficients_witness :
  _evaluate (__init__ G_example (ArrayLike {| nd_shape := [0; 1; 1]%nat; nd_data := [] |}) 0)
    [1] (Some "direct"%string) = Ok (mzeros (1 * 1) (length [1]))
  /\ _evaluate (__init__ G_example (ArrayLike {| nd_shape := [0; 1; 1]%nat; nd_data := [] |}) 0)
       [1] (Some "recursive"%string) = Raise IndexError
  /\ _evaluate (__init__ G_example (ArrayLike {| nd_shape := [0; 1; 1]%nat; nd_data := [] |}) 0)
       [1] (Some "clenshaw"%string) = Raise IndexError
  /\ _evaluate (__init__ G_example (ArrayLike {| nd_shape := [0; 1; 1]%nat; nd_data := [] |}) 0)
       [1] None = Raise IndexError.
Proof.
  apply (evaluate_empty_coefficients
           (__init__ G_example (ArrayLike {| nd_shape := [0; 1; 1]%nat; nd_data := [] |}) 0)
           {| nd_shape := [0; 1; 1]%nat; nd_data := [] |} 1 1 [1]).
  - reflexivity.
  - reflexivity.
  - discriminate.
Defined.

Lemma cheb_at_1 (n : nat) : cheb n 1 = 1.
Proof.
  induction n as [| |n IH0 IH1] using nat_pair_ind; [reflexivity | reflexivity |].
  change (cheb (S (S n)) 1) with (2 * 1 * cheb (S n) 1 - cheb n 1).
  rewrite IH0, IH1. ring.
Qed.

Lemma series_at_1 (l : list R) : forall n, series_from n l 1 = rsum l.
Proof.
  induction l as [|a l IH]; intros n; [reflexivity|].
  cbn [series_from]. rewrite IH, cheb_at_1, rsum_cons. ring.
Qed.

Lemma cheb_at_minus_1 (n : nat) : cheb (S n) (-1) = - cheb n (-1).
Proof.
  induction n as [|n IH].
  - simpl. ring.
  - change (cheb (S (S n)) (-1)) with (2 * (-1) * cheb (S n) (-1) - cheb n (-1)).
    rewrite IH. ring.
Qed.

Lemma series_at_minus_1 (l : list R) :
  forall n, series_from n l (-1) = cheb n (-1) * alt_sum l.
Proof.
  induction l as [|a l IH]; intros n.
  - simpl. ring.
  - cbn [series_from alt_sum fold_right]. fold (alt_sum l).
    rewrite IH, cheb_at_minus_1. ring.
Qed.

(** X3: at the upper end of the domain, [x = lmax], every method returns the
    plain sum of the coefficients of each filter; at the lower end, [x = 0],
    their alternating sum [c0 - c1 + c2 - ...]. *)
Theorem evaluate_at_domain_ends
    (self : Chebyshev) (c : ndarray) (K Fout Fin : nat) (method : string) :
  _coefficients self = Some c ->
  nd_shape c = [S K; Fout; Fin] ->
  length (nd_data c) = (S K * (Fout * Fin))%nat ->
  G_lmax (self_G self) <> 0 ->
  In method ["direct"; "recursive"; "clenshaw"]%string ->
  _evaluate self [G_lmax (self_G self)] (Some method)
  = Ok (map (fun f => [rsum (col (unflat (S K) (Fout * Fin) (nd_data c)) f)])
          (seq 0 (Fout * Fin)))
  /\ _evaluate self [0] (Some method)
     = Ok (map (fun f => [alt_sum (col (unflat (S K) (Fout * Fin) (nd_data c)) f)])
             (seq 0 (Fout * Fin))).
Proof.
  intros Hc Hs Hd Hl Hm.
  assert (E1 : 2 * G_lmax (self_G self) / G_lmax (self_G self) - 1 = 1) by (field; exact Hl).
  assert (E0 : 2 * 0 / G_lmax (self_G self) - 1 = -1) by (unfold Rdiv; ring).
  assert (Hcase : forall t, -1 <= 2 * t / G_lmax (self_G self) - 1 <= 1 ->
            method = "recursive"%string \/ method = "clenshaw"%string
            \/ (method = "direct"%string
                /\ Forall (fun t => -1 <= 2 * t / G_lmax (self_G self) - 1 <= 1) [t])).
  { intros t Ht. destruct Hm as [<-|[<-|[<-|[]]]]; auto 6. }
  split.
  - rewrite (evaluate_method_series self c K Fout Fin _ method Hc Hs Hd)
      by (try discriminate; apply Hcase; rewrite E1; lra).
    f_equal. unfold eval_series, tab. apply map_ext. intros f. cbn [map].
    rewrite E1. unfold cheb_series. now rewrite series_at_1.
  - rewrite (evaluate_method_series self c K Fout Fin _ method Hc Hs Hd)
      by (try discriminate; apply Hcase; rewrite E0; lra).
    f_equal. unfold eval_series, tab. apply map_ext. intros f. cbn [map].
    rewrite E0. unfold cheb_series. rewrite series_at_minus_1. cbn [cheb].
    f_equal. ring.
Qed.

Lemma evaluate_at_domain_ends_witness :
  _evaluate self_example [G_lmax (self_G self_example)] (Some "clenshaw"%string)
  = Ok (map (fun f => [rsum (col (unflat 3 (1 * 1) [1; 2; 3]) f)]) (seq 0 (1 * 1)))
  /\ _evaluate self_example [0] (Some "clenshaw"%string)
     = Ok (map (fun f => [alt_sum (col (unflat 3 (1 * 1) [1; 2; 3]) f)]) (seq 0 (1 * 1))).
Proof.
  apply (evaluate_at_domain_ends self_example
           {| nd_shape := [3; 1; 1]%nat; nd_data := [1; 2; 3] |} 2 1 1 "clenshaw").
  - reflexivity.
  - reflexivity.
  - reflexivity.
  - simpl. lra.
  - simpl. auto.
Defined.

Lemma unflat_singletons {A : Type} (l : list A) :
  unflat (length l) 1 l = map (fun a => [a]) l.
Proof.
  induction l as [|a l IH]; [reflexivity|].
  cbn [length unflat map firstn skipn]. now rewrite IH.
Qed.

(** X4: a plain list of [K+1] coefficients, given without the filter axes,
    is one filter: the constructor stores it as [(K+1, 1, 1)] and [_evaluate]
    returns the single row of its Chebyshev series at the rescaled points. *)
Theorem evaluate_flat_coefficients
    (G : graph) (cs : list R) (order : nat) (x : vec) (method : string) :
  cs <> [] -> x <> [] ->
  method = "recursive"%string \/ method = "clenshaw"%string ->
  _evaluate (__init__ G (ArrayLike {| nd_shape := [length cs]; nd_data := cs |}) order)
    x (Some method)
  = Ok [map (fun t => cheb_series cs (2 * t / G_lmax G - 1)) x].
Proof.
  intros Hcs Hx Hm.
  destruct cs as [|c0 cs]; [now elim Hcs|].
  rewrite (evaluate_method_series _ {| nd_shape := [S (length cs); 1; 1]%nat;
                                       nd_data := c0 :: cs |}
             (length cs) 1 1 x method); try reflexivity; try assumption.
  - cbn [nd_data Nat.mul Nat.add].
    change (unflat (S (length cs)) 1 (c0 :: cs)) with (unflat (length (c0 :: cs)) 1 (c0 :: cs)).
    rewrite unflat_singletons. unfold eval_series, tab. cbn [seq map].
    apply f_equal. apply (f_equal (fun r => [r])).
    rewrite map_map. apply map_ext. intros t.
    assert (E : col ([c0] :: map (fun a : R => [a]) cs) 0 = c0 :: cs).
    { unfold col. cbn [map nth]. f_equal. rewrite map_map. cbn [nth]. apply map_id. }
    rewrite E. reflexivity.
  - cbn [nd_data length]. lia.
  - destruct Hm as [->| ->]; auto.
Qed.

Lemma evaluate_flat_coefficients_witness :
  _evaluate (__init__ G_example (ArrayLike {| nd_shape := [length [1; 2; 3]];
                                            nd_data := [1; 2; 3] |}) 2)
    [7] (Some "recursive"%string)
  = Ok [map (fun t => cheb_series [1; 2; 3] (2 * t / G_lmax G_example - 1)) [7]].
Proof.
  apply (evaluate_flat_coefficients G_example [1; 2; 3] 2 [7] "recursive").
  - discriminate.
  - discriminate.
  - left. reflexivity.
Defined.

(** ** [compute_cheby_coeff]: what [lmax] and the grid order do *)

(** X5: whenever [lmax < 3], [compute_cheby_coeff] stops with [IndexError]:
    [range(0, int(lmax))] has no element of index 2. *)
Theorem compute_cheby_coeff_small_lmax (f : R -> R) (lmax : R) (m : nat) (N : option nat) :
  lmax < 3 -> compute_cheby_coeff f lmax m N = Raise IndexError.
Proof.
  intros H. apply Int_part_small in H. unfold compute_cheby_coeff.
  destruct (Z.to_nat (Int_part lmax)) as [|[|[|n]]]; try lia; reflexivity.
Qed.

Lemma compute_cheby_coeff_small_lmax_witness :
  compute_cheby_coeff (fun x => x) 2 30 None = Raise IndexError.
Proof. apply (compute_cheby_coeff_small_lmax (fun x => x) 2 30 None). lra. Defined.

(** X6: whenever [lmax >= 3], [compute_cheby_coeff] returns [m + 1]
    coefficients, and they do not depend on [lmax]: the rescaling constants
    are read off [range(0, int(lmax))], whose entries 1 and 2 are always 1
    and 2.  A grid order of [None] or [0] stands for [m + 1]. *)
Theorem compute_cheby_coeff_ignores_lmax
    (f : R -> R) (lmax lmax' : R) (m : nat) (N : option nat) :
  3 <= lmax -> 3 <= lmax' ->
  (exists c, compute_cheby_coeff f lmax m N = Ok c /\ length c = S m)
  /\ compute_cheby_coeff f lmax m N = compute_cheby_coeff f lmax' m N
  /\ compute_cheby_coeff f lmax m None = compute_cheby_coeff f lmax m (Some (S m))
  /\ compute_cheby_coeff f lmax m (Some O) = compute_cheby_coeff f lmax m (Some (S m)).
Proof.
  intros H H'. apply Int_part_large in H, H'.
  destruct (arange_indices lmax H) as [H2 H1].
  destruct (arange_indices lmax' H') as [H2' H1'].
  unfold compute_cheby_coeff. rewrite H2, H1, H2', H1'.
  split; [|split; [reflexivity | split; reflexivity]].
  eexists. split; [reflexivity|]. now rewrite length_map, length_seq.
Qed.

Lemma compute_cheby_coeff_ignores_lmax_witness :
  (exists c, compute_cheby_coeff (fun x => x) 3 2 None = Ok c /\ length c = 3%nat)
  /\ compute_cheby_coeff (fun x => x) 3 2 None = compute_cheby_coeff (fun x => x) 4 2 None
  /\ compute_cheby_coeff (fun x => x) 3 2 None = compute_cheby_coeff (fun x => x) 3 2 (Some 3%nat)
  /\ compute_cheby_coeff (fun x => x) 3 2 (Some O)
     = compute_cheby_coeff (fun x => x) 3 2 (Some 3%nat).
Proof.
  apply (compute_cheby_coeff_ignores_lmax (fun x => x) 3 4 2 None); lra.
Defined.

(** X7: with a grid of order 1, explicit or by default for [m = 0], nothing
    is summed ([np.arange(1, 1)] is empty) and every coefficient is 0,
    whatever the kernel. *)
Theorem compute_cheby_coeff_grid_1 (f : R -> R) (lmax : R) (m : nat) :
  3 <= lmax ->
  compute_cheby_coeff f lmax m (Some 1%nat) = Ok (repeat 0 (S m))
  /\ compute_cheby_coeff f lmax 0 None = Ok [0].
Proof.
  intros H. apply Int_part_large in H.
  destruct (arange_indices lmax H) as [H2 H1].
  unfold compute_cheby_coeff. rewrite H2, H1. cbn [Nat.sub seq map rsum fold_right].
  split.
  - f_equal. rewrite (repeat_as_seq 0 (S m)). cbn [seq map]. f_equal.
    + unfold rsum. cbn [fold_right INR]. field.
    + apply map_ext. intros o. unfold rsum. cbn [fold_right INR]. field.
  - f_equal. f_equal. unfold rsum. cbn [fold_right INR]. field.
Qed.

Lemma compute_cheby_coeff_grid_1_witness :
  compute_cheby_coeff (fun x => x) 3 2 (Some 1%nat) = Ok (repeat 0 3)
  /\ compute_cheby_coeff (fun x => x) 3 0 None = Ok [0].
Proof. apply (compute_cheby_coeff_grid_1 (fun x => x) 3 2). lra. Defined.

(** ** The constructor on arrays of any rank *)

Lemma size_of_app_ones (sh : list nat) (k : nat) :
  size_of (sh ++ repeat 1%nat k) = size_of sh.
Proof.
  unfold size_of. induction sh as [|a sh IH]; cbn [app fold_right].
  - induction k as [|k IHk]; cbn [repeat fold_right]; [reflexivity | lia].
  - now rewrite IH.
Qed.

(** X8: whatever the rank of the coefficient array, the constructor stores
    it with [max(3, ndim)] dimensions, the same data and the same number of
    entries: a well-formed array stays well-formed. *)
Theorem init_keeps_array_valid (G : graph) (a : ndarray) (order : nat) :
  size_of (nd_shape a) = length (nd_data a) ->
  exists c, _coefficients (__init__ G (ArrayLike a) order) = Some c
            /\ ndim c = Nat.max 3 (ndim a)
            /\ nd_data c = nd_data a
            /\ size_of (nd_shape c) = length (nd_data c).
Proof.
  intros Hv. exists (expand_loop 3 a).
  unfold __init__, _compute_coefficients. cbn [_coefficients].
  destruct (expand_loop_shape 3 a) as [Hs Hd]; [lia|].
  split; [reflexivity|]. split; [|split; [exact Hd|]].
  - unfold ndim in *. rewrite Hs, length_app, repeat_length. lia.
  - rewrite Hs, Hd, size_of_app_ones. exact Hv.
Qed.

Lemma init_keeps_array_valid_witness :
  exists c, _coefficients (__init__ G_example
                             (ArrayLike {| nd_shape := [2; 1; 1; 1]%nat; nd_data := [1; 2] |}) 1)
            = Some c
            /\ ndim c = Nat.max 3 (ndim {| nd_shape := [2; 1; 1; 1]%nat; nd_data := [1; 2] |})
            /\ nd_data c = [1; 2]
            /\ size_of (nd_shape c) = length (nd_data c).
Proof.
  apply (init_keeps_array_valid G_example
           {| nd_shape := [2; 1; 1; 1]%nat; nd_data := [1; 2] |} 1).
  reflexivity.
Defined.

(** ** [create_laplacian] *)

Lemma rsum_delta (a : R) (i n : nat) :
  rsum (map (fun j => if Nat.eqb i j then a else 0) (seq 0 n))
  = if Nat.ltb i n then a else 0.
Proof.
  induction n as [|n IH].
  - reflexivity.
  - rewrite rsum_seq_S, IH. cbn [Nat.add].
    destruct (Nat.ltb_spec i n) as [Hlt|Hge].
    + destruct (Nat.eqb_spec i n); [lia|].
      destruct (Nat.ltb_spec i (S n)); [ring | lia].
    + destruct (Nat.eqb_spec i n) as [->|Hne].
      * destruct (Nat.ltb_spec n (S n)); [ring | lia].
      * destruct (Nat.ltb_spec i (S n)); [lia | ring].
Qed.

Lemma rsum_sub {X : Type} (f g : X -> R) (l : list X) :
  rsum (map (fun j => f j - g j) l) = rsum (map f l) - rsum (map g l).
Proof.
  rewrite (rsum_map_ext (fun j => f j - g j) (fun j => 1 * f j + (-1) * g j))
    by (intros; ring).
  rewrite rsum_lin. ring.
Qed.

Lemma combinatorial_rows (N : nat) (W : mat) :
  is_mat N N W ->
  msub (diagflat (map rsum W)) W
  = map (fun i => vtab N (fun j => (if Nat.eqb i j then rsum (vtab N (entry W i)) else 0)
                                   - entry W i j))
        (seq 0 N).
Proof.
  intros H. pose proof H as [Hl _].
  unfold diagflat. rewrite length_map, Hl.
  remember (map rsum W) as rs eqn:Ers.
  remember (fun i : nat => vtab N (fun j => (if Nat.eqb i j then rsum (vtab N (entry W i)) else 0)
                                   - entry W i j)) as rhs eqn:Erhs.
  rewrite (mat_as_rows N N W H). subst rhs.
  unfold msub. rewrite zipWith_map. apply map_ext_in. intros i Hi. apply in_seq in Hi.
  unfold vsub, vtab. rewrite zipWith_map. apply map_ext. intros j.
  destruct (Nat.eqb i j); [|reflexivity].
  f_equal. subst rs. rewrite (nth_indep _ 0 (rsum [])) by (rewrite length_map; lia).
  rewrite (map_nth rsum W []). f_equal.
  apply (vec_as_vtab N). apply (nth_row_length N N); [exact H | lia].
Qed.

(** X9: for a square weight matrix, the combinatorial Laplacian is returned
    with the shape of [W] and every one of its rows sums to zero. *)
Theorem create_laplacian_rows_sum_to_zero (N : nat) (W : mat) (normalized : result mat) :
  is_mat N N W ->
  exists L, create_laplacian W "combinatorial" normalized = Ok L
            /\ is_mat N N L
            /\ Forall (fun row => rsum row = 0) L.
Proof.
  intros H. unfold create_laplacian. destruct (is_1x1 W) eqn:E1.
  - exists [[0]]. destruct W as [|[|w [|? ?]] [|? ?]]; try discriminate.
    destruct H as [Hl Hf]. cbn in Hl. subst N.
    split; [reflexivity|]. split; [repeat constructor|].
    constructor; [|constructor]. unfold rsum. cbn. ring.
  - cbn [String.eqb Ascii.eqb Bool.eqb].
    pose proof H as [Hl _]. rewrite Hl, (is_mat_square N W H).
    eexists. split; [reflexivity|].
    rewrite (combinatorial_rows N W H). split.
    + split; [now rewrite length_map, length_seq|].
      apply Forall_map, Forall_forall. intros i _. apply vtab_length.
    + apply Forall_map, Forall_forall. intros i Hi. apply in_seq in Hi.
      unfold vtab at 1. rewrite rsum_sub, rsum_delta.
      destruct (Nat.ltb_spec i N); [|lia]. unfold vtab. ring.
Qed.

Lemma create_laplacian_rows_sum_to_zero_witness :
  exists L, create_laplacian [[0; 1]; [1; 0]] "combinatorial" (Raise ValueError) = Ok L
            /\ is_mat 2 2 L
            /\ Forall (fun row => rsum row = 0) L.
Proof.
  apply (create_laplacian_rows_sum_to_zero 2 [[0; 1]; [1; 0]] (Raise ValueError)).
  repeat constructor.
Defined.

(** X10: the combinatorial Laplacian of a symmetric weight matrix is
    symmetric. *)
Theorem create_laplacian_symmetric (N : nat) (W : mat) (normalized : result mat) :
  is_mat N N W -> symmetric W ->
  exists L, create_laplacian W "combinatorial" normalized = Ok L /\ symmetric L.
Proof.
  intros H Hsym. unfold create_laplacian. destruct (is_1x1 W) eqn:E1.
  - exists [[0]]. split; [reflexivity | apply symmetric_11].
  - cbn [String.eqb Ascii.eqb Bool.eqb].
    pose proof H as [Hl _]. rewrite Hl, (is_mat_square N W H).
    eexists. split; [reflexivity|].
    rewrite (combinatorial_rows N W H). intros i j.
    rewrite !(entry_table N N
               (fun i j => (if Nat.eqb i j then rsum (vtab N (entry W i)) else 0)
                           - entry W i j)).
    rewrite (andb_comm (Nat.ltb j N)).
    destruct (Nat.ltb i N && Nat.ltb j N); [|reflexivity].
    rewrite (Hsym i j), (Nat.eqb_sym j i).
    destruct (Nat.eqb_spec i j) as [->|]; reflexivity.
Qed.

Lemma create_laplacian_symmetric_witness :
  exists L, create_laplacian [[0; 1]; [1; 0]] "combinatorial" (Raise ValueError) = Ok L
            /\ symmetric L.
Proof.
  apply (create_laplacian_symmetric 2 [[0; 1]; [1; 0]] (Raise ValueError)).
  - repeat constructor.
  - intros [|[|[|i]]] [|[|[|j]]]; reflexivity.
Defined.

(** ** [Chebyshev._filter]: errors *)

Lemma filter_raises (self : Chebyshev) (s : nat) (method : option string) (h : heap) :
  (forall L, _filter_recursive self L s h = (Raise AttributeError, h)
             \/ _filter_recursive self L s h = (Raise ValueError, h)) ->
  (forall L, _filter_clenshaw self L s h = (Raise AttributeError, h)
             \/ _filter_clenshaw self L s h = (Raise ValueError, h)) ->
  _filter self s method h = (Raise ValueError, h).
Proof.
  intros Hr Hc. unfold _filter, bind, lift.
  destruct (rescale_laplacian (self_G self)) as [L'|e] eqn:E.
  - destruct (lookup_filter (default_method method)) as [f|] eqn:Ef; [|reflexivity].
    destruct (lookup_filter_cases _ _ Ef) as [-> | ->].
    + destruct (Hr L') as [-> | ->]; reflexivity.
    + destruct (Hc L') as [-> | ->]; reflexivity.
  - now rewrite (rescale_laplacian_error _ _ E).
Qed.

(** X12: filtering with an object that was built from a [Filter] raises
    [ValueError] whatever the method and the signal: the [AttributeError] of
    the missing coefficients is caught by the handler for unknown method
    names.  The store is left as it was. *)
Theorem filter_of_filter_object_raises
    (G : graph) (Nf : nat) (g : list (R -> R)) (order : nat)
    (s : nat) (method : option string) (h : heap) :
  _filter (__init__ G (FilterObj Nf g) order) s method h = (Raise ValueError, h).
Proof.
  apply filter_raises; intros L; left; reflexivity.
Qed.

Lemma unpack3_not_3 (sh : list nat) : length sh <> 3%nat -> unpack3 sh = Raise ValueError.
Proof.
  destruct sh as [|a [|b [|c [|e sh]]]]; cbn [length unpack3]; intros H;
    try reflexivity. lia.
Qed.

(** X13: a signal that is not three-dimensional makes [_filter] raise
    [ValueError], whatever the object and the method; no helper is called and
    the store is left as it was. *)
Theorem filter_signal_not_3d
    (self : Chebyshev) (s bs : nat) (sh : list nat) (d : list R)
    (method : option string) (h : heap) :
  arr_at h s bs sh d ->
  length sh <> 3%nat ->
  _filter self s method h = (Raise ValueError, h).
Proof.
  intros Hs Hsh. pose proof (unpack3_not_3 sh Hsh) as Hu.
  apply filter_raises; intros L.
  - unfold _filter_recursive, get_coefficients.
    destruct (_coefficients self) as [c|]; [|left; reflexivity].
    right. unfold bind at 1. unfold ret at 1.
    unfold bind at 1. unfold lift at 1.
    destruct (unpack3 (nd_shape c)) as [[[K Fout] cFin]|e] eqn:E.
    + rewrite (bind_ok _ _ _ _ _ (read_at _ _ _ _ _ Hs)). cbn [fst].
      unfold bind at 1. unfold lift at 1. now rewrite Hu.
    + destruct (nd_shape c) as [|a [|b [|c' [|e' sh']]]]; cbn [unpack3] in E;
        inversion E; reflexivity.
  - unfold _filter_clenshaw, get_coefficients.
    destruct (_coefficients self) as [c|]; [|left; reflexivity].
    right. unfold bind at 1. unfold ret at 1.
    unfold bind at 1. unfold lift at 1.
    destruct (unpack3 (nd_shape c)) as [[[K Fout] cFin]|e] eqn:E.
    + rewrite (bind_ok _ _ _ _ _ (read_at _ _ _ _ _ Hs)). cbn [fst].
      unfold bind at 1. unfold lift at 1. now rewrite Hu.
    + destruct (nd_shape c) as [|a [|b [|c' [|e' sh']]]]; cbn [unpack3] in E;
        inversion E; reflexivity.
Qed.

Lemma filter_signal_not_3d_witness :
  _filter self1 0 (Some "clenshaw"%string)
    {| objs := fun a => if Nat.eqb a 0 then Some {| a_buf := 0; a_shape := [1]%nat |} else None;
       next_obj := 1;
       bufs := fun b => if Nat.eqb b 0 then Some [5] else None;
       buf_layout := fun _ => Contiguous;
       buf_dtype := fun _ => float64;
       next_buf := 1;
       trace := [] |}
  = (Raise ValueError,
     {| objs := fun a => if Nat.eqb a 0 then Some {| a_buf := 0; a_shape := [1]%nat |} else None;
        next_obj := 1;
        bufs := fun b => if Nat.eqb b 0 then Some [5] else None;
        buf_layout := fun _ => Contiguous;
        buf_dtype := fun _ => float64;
        next_buf := 1;
        trace := [] |}).
Proof.
  apply (filter_signal_not_3d self1 0 0 [1]%nat [5]).
  - repeat split; cbn; lia.
  - cbn. lia.
Defined.

Lemma is_square_is_mat (N : nat) (L : mat) : is_square N L = true -> is_mat N N L.
Proof.
  unfold is_square. intros H. apply andb_prop in H. destruct H as [H1 H2].
  split; [now apply Nat.eqb_eq|].
  apply Forall_forall. intros r Hr. apply Nat.eqb_eq.
  rewrite forallb_forall in H2. now apply H2.
Qed.

(** On a square Laplacian, sparse or dense, the rescaling succeeds. *)
Lemma rescale_square (G : graph) :
  is_square (G_N G) (G_L G) = true -> exists L', rescale_laplacian G = Ok L'.
Proof.
  intros Hsq. unfold rescale_laplacian. rewrite Hsq.
  destruct (G_issparse G); [eexists; reflexivity|].
  pose proof (is_square_is_mat _ _ Hsq) as HL.
  unfold broadcast2. rewrite (ncols_square _ _ HL). destruct HL as [-> _].
  rewrite bdim_same. eexists. reflexivity.
Qed.

(** X14: with an empty coefficient array, of shape [(0, Fout, Fin)], both
    methods of [_filter] raise [IndexError] at [c[0]], on any
    three-dimensional signal.  Neither [mult] nor [dot] was called, and the
    arrays of the caller are as they were. *)
Theorem filter_empty_coefficients
    (self : Chebyshev) (c : ndarray) (Fout Fin : nat)
    (s bs Mb sFin N : nat) (d : list R) (h : heap) :
  _coefficients self = Some c ->
  nd_shape c = [0%nat; Fout; Fin] ->
  is_square (G_N (self_G self)) (G_L (self_G self)) = true ->
  arr_at h s bs [Mb; sFin; N] d ->
  (forall method, default_method method = "recursive"%string ->
     exists h', _filter self s method h = (Raise IndexError, h')
                /\ preserved h h' /\ trace h' = trace h)
  /\ (exists h', _filter self s (Some "clenshaw"%string) h = (Raise IndexError, h')
                 /\ preserved h h' /\ trace h' = trace h).
Proof.
  intros Hc Hsh Hsq Hs.
  destruct (rescale_square (self_G self) Hsq) as [L' HL].
  split.
  - intros method Hm. exists (h_view h bs [Mb; sFin; N]).
    rewrite (filter_dispatch self s h method _filter_recursive _ HL)
      by (rewrite Hm; reflexivity).
    unfold _filter_recursive, get_coefficients. rewrite Hc.
    unfold bind at 1. unfold ret at 1. rewrite Hsh.
    unfold bind at 1. unfold lift at 1. cbn [unpack3].
    rewrite (bind_ok _ _ _ _ _ (read_at _ _ _ _ _ Hs)). cbn [fst].
    unfold bind at 1. unfold lift at 1. cbn [unpack3].
    rewrite (bind_ok _ _ _ _ _ (view_at _ _ _ _ _ Hs)).
    unfold bind at 1. unfold lift at 1. unfold coef_at. cbn [unflat nth_error attr_to_value].
    split; [reflexivity|]. split; [|reflexivity].
    apply preserved_view, preserved_refl.
  - exists (h_alloc h [Mb; Fout; N] (zeros (size_of [Mb; Fout; N]))).
    rewrite (filter_dispatch self s h (Some "clenshaw"%string) _filter_clenshaw _ HL)
      by reflexivity.
    unfold _filter_clenshaw, get_coefficients. rewrite Hc.
    unfold bind at 1. unfold ret at 1. rewrite Hsh.
    unfold bind at 1. unfold lift at 1. cbn [unpack3].
    rewrite (bind_ok _ _ _ _ _ (read_at _ _ _ _ _ Hs)). cbn [fst].
    unfold bind at 1. unfold lift at 1. cbn [unpack3 Nat.leb].
    rewrite (bind_ok _ _ _ _ _ (new_array_run _ _ _)).
    cbn [Nat.sub seq rev clen_loop].
    unfold bind at 1. unfold ret at 1.
    unfold bind at 1. unfold lift at 1. unfold coef_at. cbn [unflat nth_error attr_to_value].
    split; [reflexivity|]. split; [|reflexivity].
    apply preserved_alloc, preserved_refl.
Qed.

Lemma filter_empty_coefficients_witness :
  (forall method, default_method method = "recursive"%string ->
     exists h', _filter {| self_G := G_example; self_order := 0;
                           _coefficients := Some {| nd_shape := [0; 1; 1]%nat; nd_data := [] |};
                           self_Nf := 1 |} 0 method heap1 = (Raise IndexError, h')
                /\ preserved heap1 h' /\ trace h' = trace heap1)
  /\ (exists h', _filter {| self_G := G_example; self_order := 0;
                            _coefficients := Some {| nd_shape := [0; 1; 1]%nat; nd_data := [] |};
                            self_Nf := 1 |} 0 (Some "clenshaw"%string) heap1
                 = (Raise IndexError, h')
                 /\ preserved heap1 h' /\ trace h' = trace heap1).
Proof.
  apply (filter_empty_coefficients _ {| nd_shape := [0; 1; 1]%nat; nd_data := [] |} 1 1
           0 0 1 1 1 (data [[[5]]]) heap1).
  - reflexivity.
  - reflexivity.
  - reflexivity.
  - exact (arr_in_at _ _ _ _ _ heap1_signal).
Defined.

(** ** [Chebyshev._filter]: cost and allocation *)

Lemma count_op_app (o : op) (t u : list op) :
  count_op o (t ++ u) = (count_op o t + count_op o u)%nat.
Proof. unfold count_op. now rewrite filter_app, length_app. Qed.

Lemma count_op_rounds (o : op) (round : list op) (n : nat) :
  count_op o (concat (repeat round n)) = (n * count_op o round)%nat.
Proof.
  induction n as [|n IH]; [reflexivity|].
  cbn [repeat concat]. rewrite count_op_app, IH. lia.
Qed.

Section FilterCost.
Variables (self : Chebyshev) (c : ndarray) (K Fout Fin N Mb : nat).
Variables (c3 : list mat) (s : list mat) (h : heap) (sobj bs : nat).
Hypothesis Hc : _coefficients self = Some c.
Hypothesis Hsh : nd_shape c = [K; Fout; Fin].
Hypothesis Hdat : nd_data c = data c3.
Hypothesis Hc3 : is_tensor3 K Fout Fin c3.
Hypothesis HK : (1 <= K)%nat.
Hypothesis HN : G_N (self_G self) = N.
Hypothesis HL : is_mat N N (G_L (self_G self)).
Hypothesis Hsp : G_issparse (self_G self) = true.
Hypothesis Hs : is_tensor3 Mb Fin N s.
Hypothesis Hsobj : arr_in h sobj bs [Mb; Fin; N] (data s).

(** X15: on [K >= 1] coefficients the method "recursive" (also the default)
    calls [mult] [K] times and [dot] [K - 1] times; "clenshaw" calls [mult]
    [K] times and [dot] [max (K - 1) 1] times. *)
Theorem filter_call_counts :
  (forall method, default_method method = "recursive"%string ->
     exists r h' t,
       _filter self sobj method h = (Ok r, h')
       /\ trace h' = trace h ++ t
       /\ count_op OpMult t = K /\ count_op OpDot t = (K - 1)%nat)
  /\ (exists r h' t,
        _filter self sobj (Some "clenshaw"%string) h = (Ok r, h')
        /\ trace h' = trace h ++ t
        /\ count_op OpMult t = K /\ count_op OpDot t = Nat.max (K - 1) 1).
Proof.
  split.
  - intros method Hm.
    destruct (filter_recursive_ok self c K Fout Fin N Mb c3 s h sobj bs
                Hc Hsh Hdat Hc3 HK HN HL Hsp Hs Hsobj method Hm)
      as (r & br & h' & Hrun & _ & _ & Htr).
    exists r, h', (OpMult :: concat (repeat [OpDot; OpMult] (K - 1))).
    split; [exact Hrun|]. split; [exact Htr|].
    change (OpMult :: concat (repeat [OpDot; OpMult] (K - 1)))
      with ([OpMult] ++ concat (repeat [OpDot; OpMult] (K - 1))).
    rewrite !count_op_app, !count_op_rounds. cbn. lia.
  - destruct (filter_clenshaw_ok self c K Fout Fin N Mb c3 s h sobj bs
                Hc Hsh Hdat Hc3 HK HN HL Hsp Hs Hsobj)
      as (r & br & h' & Hrun & _ & _ & Htr).
    exists r, h', ((if Nat.leb 2 K then [OpMult] else [])
                   ++ concat (repeat [OpMult; OpDot] (K - 2)) ++ [OpMult; OpDot]).
    split; [exact Hrun|]. split; [exact Htr|].
    rewrite !count_op_app, !count_op_rounds.
    destruct (Nat.leb_spec 2 K); cbn; lia.
Qed.

(** X16: the array that [_filter] returns is new and owns its memory, with
    either method and any number [K >= 1] of coefficients: no array that
    existed before the call is the result or shares its buffer, the signal
    in particular. *)
Theorem filter_result_is_fresh (method : option string) :
  default_method method = "recursive"%string
  \/ default_method method = "clenshaw"%string ->
  exists r br h',
    _filter self sobj method h = (Ok r, h')
    /\ arr_in h' r br [Mb; Fout; N]
         (data (T3 N s Fout (racc c3 (rescaled_L self N) N Fin K)))
    /\ r <> sobj /\ br <> bs
    /\ (forall a b sh d, arr_in h a b sh d -> a <> r /\ b <> br).
Proof.
  intros Hm. pose proof Hs as [HMb _]. subst Mb.
  pose proof (rescale_ok self N HN HL Hsp) as HR.
  assert (Hfresh : forall r br : nat,
            (next_obj h <= r)%nat -> (next_buf h <= br)%nat ->
            r <> sobj /\ br <> bs
            /\ (forall a b sh d, arr_in h a b sh d -> a <> r /\ b <> br)).
  { intros r br Hr Hbr. destruct (arr_in_bounds _ _ _ _ _ Hsobj) as [Ha Hb].
    split; [lia|]. split; [lia|].
    intros a b sh d Hin. destruct (arr_in_bounds _ _ _ _ _ Hin). lia. }
  destruct Hm as [Hm|Hm].
  - destruct (filter_recursive_run_fresh K Fout Fin N c3 (rescaled_L self N) s h Hc3
                (rescaled_is_mat _ _ _) self c sobj bs Hc Hsh Hdat HK Hs Hsobj)
      as (r & br & h' & Hrun & Hr & _ & _ & Hfr & Hfb).
    exists r, br, h'.
    rewrite (filter_dispatch self sobj h method _filter_recursive (SparseMatrix (rescaled_L self N)) HR)
      by (rewrite Hm; reflexivity).
    rewrite Hrun. split; [reflexivity|]. split; [exact Hr|]. now apply Hfresh.
  - destruct (filter_clenshaw_run_fresh K Fout Fin N c3 (rescaled_L self N) s h sobj bs
                self c Hc3 (rescaled_is_mat _ _ _) Hc Hsh Hdat HK Hs Hsobj)
      as (r & br & h' & Hrun & Hr & _ & _ & Hfr & Hfb).
    exists r, br, h'.
    rewrite (filter_dispatch self sobj h method _filter_clenshaw (SparseMatrix (rescaled_L self N)) HR)
      by (rewrite Hm; reflexivity).
    rewrite Hrun. split; [reflexivity|]. split; [|now apply Hfresh].
    replace (data (T3 N s Fout (racc c3 (rescaled_L self N) N Fin K)))
      with (data (T3 N s Fout (clen_fun c3 (rescaled_L self N) N Fin K))); [exact Hr|].
    f_equal. apply T3_ext. intros. now apply clen_fun_racc.
Qed.

End FilterCost.

Lemma filter_call_counts_witness :
  (forall method, default_method method = "recursive"%string ->
     exists r h' t,
       _filter self_322 0 method heap_222 = (Ok r, h')
       /\ trace h' = trace heap_222 ++ t
       /\ count_op OpMult t = 3%nat /\ count_op OpDot t = (3 - 1)%nat)
  /\ (exists r h' t,
        _filter self_322 0 (Some "clenshaw"%string) heap_222 = (Ok r, h')
        /\ trace h' = trace heap_222 ++ t
        /\ count_op OpMult t = 3%nat /\ count_op OpDot t = Nat.max (3 - 1) 1).
Proof.
  apply (filter_call_counts self_322 {| nd_shape := [3; 2; 2]%nat; nd_data := data c_322 |}
           3 2 2 2 2 c_322 s_222 heap_222 0 0).
  - reflexivity.
  - reflexivity.
  - reflexivity.
  - apply c_322_tensor.
  - lia.
  - reflexivity.
  - apply G_pair_mat.
  - reflexivity.
  - apply s_222_tensor.
  - apply heap_of_in.
Defined.

Lemma filter_result_is_fresh_witness :
  exists r br h',
    _filter self_322 0 None heap_222 = (Ok r, h')
    /\ arr_in h' r br [2; 2; 2]%nat
         (data (T3 2 s_222 2 (racc c_322 (rescaled_L self_322 2) 2 2 3)))
    /\ r <> 0%nat /\ br <> 0%nat
    /\ (forall a b sh d, arr_in heap_222 a b sh d -> a <> r /\ b <> br).
Proof.
  apply (filter_result_is_fresh self_322
           {| nd_shape := [3; 2; 2]%nat; nd_data := data c_322 |}
           3 2 2 2 2 c_322 s_222 heap_222 0 0).
  - reflexivity.
  - reflexivity.
  - reflexivity.
  - apply c_322_tensor.
  - lia.
  - reflexivity.
  - apply G_pair_mat.
  - reflexivity.
  - apply s_222_tensor.
  - apply heap_of_in.
  - left. reflexivity.
Defined.

(** ** [Chebyshev._filter] is linear in the signal *)

Lemma zipWith_length {A B C : Type} (f : A -> B -> C) (l1 : list A) (l2 : list B) :
  length l1 = length l2 -> length (zipWith f l1 l2) = length l1.
Proof.
  revert l2. induction l1 as [|x l1 IH]; intros [|y l2] H; simpl in *; try discriminate; auto.
Qed.

Lemma zipWith_nth {A B C : Type} (f : A -> B -> C) (d1 : A) (d2 : B) (d : C)
    (l1 : list A) (l2 : list B) (i : nat) :
  length l1 = length l2 -> f d1 d2 = d ->
  nth i (zipWith f l1 l2) d = f (nth i l1 d1) (nth i l2 d2).
Proof.
  intros H Hd. revert l2 i H.
  induction l1 as [|x l1 IH]; intros [|y l2] i H; simpl in *; try discriminate.
  - destruct i; now symmetry.
  - destruct i; [reflexivity|]. apply IH. lia.
Qed.

Lemma row_lengths_agree (r n : nat) (A B : mat) (i : nat) :
  is_mat r n A -> is_mat r n B -> length (nth i A []) = length (nth i B []).
Proof.
  intros HA HB. destruct (Nat.lt_ge_cases i r) as [Hi|Hi].
  - now rewrite (nth_row_length r n A i HA Hi), (nth_row_length r n B i HB Hi).
  - destruct HA as [HA _], HB as [HB _].
    rewrite !nth_overflow by lia. reflexivity.
Qed.

Lemma entry_axpby (a b : R) (r n : nat) (A B : mat) (i j : nat) :
  is_mat r n A -> is_mat r n B ->
  entry (zipWith (zipWith (axpby a b)) A B) i j = a * entry A i j + b * entry B i j.
Proof.
  intros HA HB. unfold entry.
  rewrite (zipWith_nth (zipWith (axpby a b)) [] [] [] A B i)
    by (try reflexivity; destruct HA as [-> _], HB as [-> _]; reflexivity).
  apply (zipWith_nth (axpby a b) 0 0 0).
  - exact (row_lengths_agree r n A B i HA HB).
  - unfold axpby. ring.
Qed.

Lemma is_mat_axpby (a b : R) (r n : nat) (A B : mat) :
  is_mat r n A -> is_mat r n B -> is_mat r n (zipWith (zipWith (axpby a b)) A B).
Proof.
  intros [HA HfA] [HB HfB]. split.
  - rewrite zipWith_length; congruence.
  - clear HA HB. revert B HfB.
    induction HfA as [|x A Hx _ IH]; intros [|y B] HfB; cbn [zipWith]; constructor.
    + rewrite zipWith_length; [exact Hx|]. rewrite Hx. symmetry. exact (Forall_inv HfB).
    + apply IH. exact (Forall_inv_tail HfB).
Qed.

Lemma is_tensor3_axpby (a b : R) (Mb Fin N : nat) (s1 s2 : list mat) :
  is_tensor3 Mb Fin N s1 -> is_tensor3 Mb Fin N s2 ->
  is_tensor3 Mb Fin N (batch_axpby a b s1 s2).
Proof.
  intros [H1 Hf1] [H2 Hf2]. unfold batch_axpby. split.
  - rewrite zipWith_length; congruence.
  - clear H1 H2. revert s2 Hf2.
    induction Hf1 as [|x s1 Hx _ IH]; intros [|y s2] Hf2; cbn [zipWith]; constructor.
    + apply is_mat_axpby; [exact Hx | exact (Forall_inv Hf2)].
    + apply IH. exact (Forall_inv_tail Hf2).
Qed.

Lemma racc_axpby (a b : R) (c3 : list mat) (L : mat) (N Fin K : nat) (A B : mat) (o n : nat) :
  is_mat Fin N A -> is_mat Fin N B ->
  racc c3 L N Fin K (zipWith (zipWith (axpby a b)) A B) o n
  = a * racc c3 L N Fin K A o n + b * racc c3 L N Fin K B o n.
Proof.
  intros HA HB. unfold racc. rewrite <- rsum_lin. apply rsum_map_ext. intros k.
  unfold rterm, mix. rewrite <- rsum_lin. apply rsum_map_ext. intros i.
  rewrite (Tf_ext L N _ (fun j => a * entry A i j + b * entry B i j))
    by (intros j; apply (entry_axpby a b Fin N); assumption).
  rewrite Tf_lin. ring.
Qed.

Lemma channel_block_length (N : nat) (F : nat -> nat -> R) (l : list nat) :
  length (concat (map (fun o => vtab N (F o)) l)) = (length l * N)%nat.
Proof.
  induction l as [|o l IH]; [reflexivity|].
  cbn [map concat length]. rewrite length_app, vtab_length, IH. lia.
Qed.

Lemma data_axpby (a b : R) (Mb Fin N C : nat) (g : mat -> nat -> nat -> R)
    (s1 s2 : list mat) :
  is_tensor3 Mb Fin N s1 -> is_tensor3 Mb Fin N s2 ->
  (forall A B o n, is_mat Fin N A -> is_mat Fin N B ->
     g (zipWith (zipWith (axpby a b)) A B) o n = a * g A o n + b * g B o n) ->
  data (T3 N (batch_axpby a b s1 s2) C g)
  = zipWith (axpby a b) (data (T3 N s1 C g)) (data (T3 N s2 C g)).
Proof.
  intros [H1 Hf1] [H2 Hf2] Hg. rewrite !data_unfold. unfold batch_axpby.
  assert (Hlen : length s1 = length s2) by congruence. clear H1 H2.
  revert s2 Hf2 Hlen.
  induction Hf1 as [|A s1 HA _ IH]; intros [|B s2] Hf2 Hlen; try discriminate.
  - reflexivity.
  - cbn [zipWith map concat].
    rewrite zipWith_app by (now rewrite !channel_block_length).
    rewrite <- IH by (try exact (Forall_inv_tail Hf2); simpl in Hlen; lia).
    f_equal. rewrite zipWith_concat_map by (intros; now rewrite !vtab_length).
    f_equal. apply map_ext. intros o. unfold vtab. rewrite zipWith_map.
    apply map_ext. intros n. apply Hg; [exact HA | exact (Forall_inv Hf2)].
Qed.

Section FilterLinear.
Variables (self : Chebyshev) (c : ndarray) (K Fout Fin N Mb : nat).
Variables (c3 : list mat) (h : heap).
Hypothesis Hc : _coefficients self = Some c.
Hypothesis Hsh : nd_shape c = [K; Fout; Fin].
Hypothesis Hdat : nd_data c = data c3.
Hypothesis Hc3 : is_tensor3 K Fout Fin c3.
Hypothesis HK : (1 <= K)%nat.
Hypothesis HN : G_N (self_G self) = N.
Hypothesis HL : is_mat N N (G_L (self_G self)).
Hypothesis Hsp : G_issparse (self_G self) = true.

Lemma filter_method_ok (method : option string) (s : list mat) (sobj bs : nat) :
  default_method method = "recursive"%string
  \/ default_method method = "clenshaw"%string ->
  is_tensor3 Mb Fin N s ->
  arr_in h sobj bs [Mb; Fin; N] (data s) ->
  exists r br h',
    _filter self sobj method h = (Ok r, h')
    /\ arr_in h' r br [Mb; Fout; N]
         (data (T3 N s Fout (racc c3 (rescaled_L self N) N Fin K))).
Proof.
  intros [Hm|Hm] Hs Hsobj.
  - destruct (filter_recursive_ok self c K Fout Fin N Mb c3 s h sobj bs
                Hc Hsh Hdat Hc3 HK HN HL Hsp Hs Hsobj method Hm)
      as (r & br & h' & Hrun & Hr & _).
    exists r, br, h'. now split.
  - destruct method as [m|]; [|discriminate]. cbn [default_method] in Hm. subst m.
    destruct (filter_clenshaw_ok self c K Fout Fin N Mb c3 s h sobj bs
                Hc Hsh Hdat Hc3 HK HN HL Hsp Hs Hsobj)
      as (r & br & h' & Hrun & Hr & _).
    exists r, br, h'. now split.
Qed.

(** X17: [_filter] is linear in the signal, with either method: filtering
    [a * s1 + b * s2] gives [a] times the result on [s1] plus [b] times the
    result on [s2], entry by entry. *)
Theorem filter_linear_in_signal
    (method : option string) (a b : R) (s1 s2 : list mat) (o1 b1 o2 b2 o3 b3 : nat) :
  default_method method = "recursive"%string
  \/ default_method method = "clenshaw"%string ->
  is_tensor3 Mb Fin N s1 ->
  is_tensor3 Mb Fin N s2 ->
  arr_in h o1 b1 [Mb; Fin; N] (data s1) ->
  arr_in h o2 b2 [Mb; Fin; N] (data s2) ->
  arr_in h o3 b3 [Mb; Fin; N] (data (batch_axpby a b s1 s2)) ->
  exists r1 br1 h1 d1 r2 br2 h2 d2 r3 br3 h3,
    _filter self o1 method h = (Ok r1, h1) /\ arr_in h1 r1 br1 [Mb; Fout; N] d1
    /\ _filter self o2 method h = (Ok r2, h2) /\ arr_in h2 r2 br2 [Mb; Fout; N] d2
    /\ _filter self o3 method h = (Ok r3, h3)
    /\ arr_in h3 r3 br3 [Mb; Fout; N] (zipWith (axpby a b) d1 d2).
Proof.
  intros Hm Hs1 Hs2 Ho1 Ho2 Ho3.
  destruct (filter_method_ok method s1 o1 b1 Hm Hs1 Ho1) as (r1 & br1 & h1 & Hrun1 & Hr1).
  destruct (filter_method_ok method s2 o2 b2 Hm Hs2 Ho2) as (r2 & br2 & h2 & Hrun2 & Hr2).
  destruct (filter_method_ok method (batch_axpby a b s1 s2) o3 b3 Hm
              (is_tensor3_axpby a b Mb Fin N s1 s2 Hs1 Hs2) Ho3)
    as (r3 & br3 & h3 & Hrun3 & Hr3).
  exists r1, br1, h1, (data (T3 N s1 Fout (racc c3 (rescaled_L self N) N Fin K))).
  exists r2, br2, h2, (data (T3 N s2 Fout (racc c3 (rescaled_L self N) N Fin K))).
  exists r3, br3, h3.
  repeat (split; [assumption|]).
  rewrite <- (data_axpby a b Mb Fin N Fout _ s1 s2 Hs1 Hs2); [exact Hr3|].
  intros A B o n HA HB. now apply racc_axpby.
Qed.

End FilterLinear.

Lemma filter_linear_in_signal_witness :
  exists r1 br1 h1 d1 r2 br2 h2 d2 r3 br3 h3,
    _filter self_322 0 None heap3 = (Ok r1, h1) /\ arr_in h1 r1 br1 [1; 2; 2]%nat d1
    /\ _filter self_322 1 None heap3 = (Ok r2, h2) /\ arr_in h2 r2 br2 [1; 2; 2]%nat d2
    /\ _filter self_322 2 None heap3 = (Ok r3, h3)
    /\ arr_in h3 r3 br3 [1; 2; 2]%nat (zipWith (axpby 2 3) d1 d2).
Proof.
  apply (filter_linear_in_signal self_322
           {| nd_shape := [3; 2; 2]%nat; nd_data := data c_322 |}
           3 2 2 2 1 c_322 heap3) with (s1 := [[[1; 2]; [3; 4]]]) (s2 := [[[5; 6]; [7; 8]]])
                                       (b1 := 0%nat) (b2 := 1%nat) (b3 := 2%nat).
  - reflexivity.
  - reflexivity.
  - reflexivity.
  - apply c_322_tensor.
  - lia.
  - reflexivity.
  - apply G_pair_mat.
  - reflexivity.
  - left. reflexivity.
  - repeat constructor.
  - repeat constructor.
  - repeat split; try reflexivity; cbn; lia.
  - repeat split; try reflexivity; cbn; lia.
  - repeat split; try reflexivity; cbn; lia.
Defined.

(** ** [Chebyshev._filter] on a constant signal *)

Lemma rsum_delta_col (n N : nat) :
  rsum (map (fun j => if Nat.eqb j n then 1 else 0) (seq 0 N))
  = if Nat.ltb n N then 1 else 0.
Proof.
  rewrite <- (rsum_delta 1 n N). apply rsum_map_ext. intros j.
  now rewrite (Nat.eqb_sym j n).
Qed.

Section ConstantSignal.
Variables (L : mat) (N : nat) (lmax : R).
Hypothesis HL : is_mat N N L.
Hypothesis Hsym : symmetric L.
Hypothesis Hrows : Forall (fun row => rsum row = 0) L.
Hypothesis Hlmax : lmax <> 0.

Lemma column_sums_zero (n : nat) :
  (n < N)%nat -> rsum (map (fun j => entry L j n) (seq 0 N)) = 0.
Proof.
  intros Hn. rewrite (rsum_map_ext (fun j => entry L j n) (fun j => entry L n j))
    by (intros j; apply Hsym).
  replace (map (fun j => entry L n j) (seq 0 N)) with (nth n L []).
  - rewrite Forall_forall in Hrows. apply Hrows. apply nth_In.
    destruct HL as [-> _]. exact Hn.
  - apply (vec_as_vtab N). apply (nth_row_length N N); assumption.
Qed.

Lemma Aop_ext_in (A : mat) (f g : nat -> R) (n : nat) :
  (forall j, (j < N)%nat -> f j = g j) -> Aop A N f n = Aop A N g n.
Proof.
  intros H. unfold Aop. apply rsum_map_ext_in. intros j Hj. apply in_seq in Hj.
  rewrite H by lia. reflexivity.
Qed.

Lemma Tf_ext_in (A : mat) (f g : nat -> R) :
  (forall j, (j < N)%nat -> f j = g j) ->
  forall k n, (n < N)%nat -> Tf A N k f n = Tf A N k g n.
Proof.
  intros H k. induction k as [| |k IH0 IH1] using nat_pair_ind; intros n Hn.
  - now apply H.
  - now apply Aop_ext_in.
  - change (2 * Aop A N (Tf A N (S k) f) n - Tf A N k f n
            = 2 * Aop A N (Tf A N (S k) g) n - Tf A N k g n).
    rewrite (Aop_ext_in A _ (Tf A N (S k) g) n IH1), (IH0 n Hn). reflexivity.
Qed.

Lemma Aop_rescaled_const (v : R) (n : nat) :
  (n < N)%nat -> Aop (rescaled lmax N L) N (fun _ => v) n = - v.
Proof.
  intros Hn. unfold Aop.
  rewrite (rsum_map_ext_in _
             (fun j => (2 * v / lmax) * entry L j n
                       + (- v) * (if Nat.eqb j n then 1 else 0))).
  - rewrite rsum_lin, (column_sums_zero n Hn), rsum_delta_col.
    destruct (Nat.ltb_spec n N); [ring | lia].
  - intros j Hj. apply in_seq in Hj. unfold rescaled.
    rewrite (entry_table N N
               (fun i j => 2 * entry L i j / lmax - (if Nat.eqb i j then 1 else 0))).
    destruct (Nat.ltb_spec j N); [|lia]. destruct (Nat.ltb_spec n N); [|lia].
    cbn [andb]. field. exact Hlmax.
Qed.

Lemma Tf_rescaled_const (v : R) :
  forall k n, (n < N)%nat -> Tf (rescaled lmax N L) N k (fun _ => v) n = (-1) ^ k * v.
Proof.
  intros k. induction k as [| |k IH0 IH1] using nat_pair_ind; intros n Hn.
  - cbn [Tf pow]. ring.
  - cbn [Tf pow]. rewrite (Aop_rescaled_const v n Hn). ring.
  - change (2 * Aop (rescaled lmax N L) N (Tf (rescaled lmax N L) N (S k) (fun _ => v)) n
            - Tf (rescaled lmax N L) N k (fun _ => v) n = (-1) ^ S (S k) * v).
    rewrite (Aop_ext_in _ _ (fun _ => (-1) ^ S k * v) n IH1).
    rewrite (Aop_rescaled_const _ n Hn), (IH0 n Hn). cbn [pow]. ring.
Qed.

Lemma racc_constant (c3 : list mat) (Fin K : nat) (sig : mat) (o n : nat) :
  (forall i j, (i < Fin)%nat -> (j < N)%nat -> entry sig i j = entry sig i 0) ->
  (n < N)%nat ->
  racc c3 (rescaled lmax N L) N Fin K sig o n
  = rsum (map (fun k => (-1) ^ k
                        * rsum (map (fun i => entry3 c3 k o i * entry sig i 0) (seq 0 Fin)))
              (seq 0 K)).
Proof.
  intros Hconst Hn. unfold racc. apply rsum_map_ext. intros k.
  unfold rterm, mix, entry3.
  rewrite <- (Rplus_0_r (_ * rsum _)).
  rewrite <- (Rmult_0_l (rsum (map (fun _ : nat => 0) (seq 0 Fin)))).
  rewrite <- (rsum_lin ((-1) ^ k) 0).
  apply rsum_map_ext_in. intros i Hi. apply in_seq in Hi.
  assert (E : forall j, (j < N)%nat -> entry sig i j = (fun _ : nat => entry sig i 0) j).
  { intros j Hj. apply Hconst; [lia | exact Hj]. }
  rewrite (Tf_ext_in _ (entry sig i) (fun _ => entry sig i 0) E k n Hn).
  rewrite (Tf_rescaled_const _ k n Hn). ring.
Qed.

End ConstantSignal.


